(** * A shallow embedding of the needle CPU array backend

    Source: [src/ndarray_backend_cpu.cc] (namespace [needle::cpu]).

    Buffers ([AlignedArray]) are lists of scalars; [a.ptr[i]] is a bounds
    checked list access, and an access outside the allocation is undefined
    behaviour ([UB]).  Machine integers are values of [Z], with the
    wrap-around of the unsigned types written out and signed overflow
    reported as [UB].  The scalar type [scalar_t] and its arithmetic are the
    methods of a type class, in which the kernels are generic; the scalar
    type of the program, [float], is its instance on IEEE 754 binary32. *)

From Stdlib Require Import ZArith Lia Bool List SpecFloat.
From stdpp Require Import base list.

Local Open Scope Z_scope.

(** ** Outcomes *)

(** The one exception the source throws itself, in the constructor of
    [AlignedArray].  The index vectors of the strided loops are
    [std::vector]s; their allocation is taken to succeed. *)
Inductive exn : Type := bad_alloc.

(** A call returns, throws, runs into undefined behaviour, or is still
    running when the fuel of an unbounded loop is used up. *)
Inductive res (A : Type) : Type :=
| Ret (a : A)
| Raise (e : exn)
| UB
| OutOfFuel.

Arguments Ret {A} a.
Arguments Raise {A} e.
Arguments UB {A}.
Arguments OutOfFuel {A}.

Definition bind {A B : Type} (m : res A) (k : A -> res B) : res B :=
  match m with
  | Ret a => k a
  | Raise e => Raise e
  | UB => UB
  | OutOfFuel => OutOfFuel
  end.

Notation "'let*' x ':=' m 'in' k" := (bind m (fun x => k))
  (at level 10, x pattern, m at level 100, k at level 200).

(** ** Machine integers *)

Definition INT_MAX : Z := 2147483647.
Definition INT_MIN : Z := -2147483648.
Definition SIZE_MOD : Z := 18446744073709551616.  (* 2^64 *)
Definition UINT32_MOD : Z := 4294967296.          (* 2^32 *)

(** [size_t] arithmetic wraps modulo 2^64, [uint32_t] modulo 2^32. *)
Definition wrap64 (z : Z) : Z := z mod SIZE_MOD.
Definition wrap32 (z : Z) : Z := z mod UINT32_MOD.

(** Signed 32-bit arithmetic: a result outside the type is undefined. *)
Definition int32 (z : Z) : res Z :=
  if (INT_MIN <=? z) && (z <=? INT_MAX) then Ret z else UB.

(** Conversion of a [size_t] to [int] keeps the low 32 bits. *)
Definition int_of_size_t (z : Z) : Z :=
  let w := wrap32 z in if w <? 2147483648 then w else w - UINT32_MOD.

(** ** Buffers and vectors *)

Definition size {A : Type} (a : list A) : Z := Z.of_nat (length a).

(** [a.ptr[i]] as an rvalue. *)
Definition read {A : Type} (a : list A) (i : Z) : res A :=
  if (0 <=? i) && (i <? size a)
  then match a !! Z.to_nat i with Some v => Ret v | None => UB end
  else UB.

(** [out->ptr[i] = v]. *)
Definition write {A : Type} (out : list A) (i : Z) (v : A) : res (list A) :=
  if (0 <=? i) && (i <? size out) then Ret (<[Z.to_nat i := v]> out) else UB.

(** ** Counted loops

    [for (i = lo; i < hi; i += step) body], for a loop whose bounds do not
    change while it runs: [n] is the number of iterations. *)
Fixpoint for_loop {St : Type} (n : nat) (i step : Z) (body : Z -> St -> res St) (s : St)
  : res St :=
  match n with
  | O => Ret s
  | S n' => let* s' := body i s in for_loop n' (i + step) step body s'
  end.

Definition for_range {St : Type} (lo hi : Z) (body : Z -> St -> res St) (s : St) : res St :=
  for_loop (Z.to_nat (hi - lo)) lo 1 body s.

(** ** The scalar type *)

(** The operations of [scalar_t] that the kernels use.  [s_of_int] is the
    conversion of an integer (also of the literals [0] and [1]) to
    [scalar_t]. *)
Class Scalar (T : Type) : Type := {
  s_of_int : Z -> T;
  s_add : T -> T -> T;
  s_sub : T -> T -> T;
  s_mul : T -> T -> T;
  s_div : T -> T -> T;
  s_lt : T -> T -> bool;
  s_eq : T -> T -> bool;
  s_ge : T -> T -> bool
}.

(** The conversions that only [GridSample] uses.  [s_to_int] is
    [static_cast<int32_t>], which has no value where the conversion is
    undefined.  The two expressions with the literal [2.0] are evaluated in
    [double] and stored in a [scalar_t]: [s_half_of_int n] is [n / 2.0] for
    an [int n], and [s_half_plus p o] is [p / 2.0 + o] for [p] and [o] of
    [scalar_t]. *)
Class Sampling (T : Type) : Type := {
  s_half_of_int : Z -> T;
  s_half_plus : T -> T -> T;
  s_to_int : T -> option Z
}.

(** The functions of the C math library, taken as given. *)
Class Libm (T : Type) : Type := {
  s_pow : T -> T -> T;
  s_log : T -> T;
  s_exp : T -> T;
  s_tanh : T -> T
}.

(** [std::max(a, b)] is [(a < b) ? b : a]. *)
Definition s_max {T} `{Scalar T} (a b : T) : T := if s_lt a b then b else a.

(** A [bool] stored in a [scalar_t] is [1] or [0]. *)
Definition s_of_bool {T} `{Scalar T} (b : bool) : T := s_of_int (if b then 1 else 0).


(** Integers as scalars, for running the kernels other than [GridSample]
    on small whole numbers, on which the sums, products and comparisons of
    [float] are exact.  [s_div] is the quotient of the integers, which is
    that of [float] only where the division leaves no remainder.  The
    integers have no instance of [Sampling]: grid sampling is run on
    [float] itself. *)
#[export] Instance Z_Scalar : Scalar Z := {
  s_of_int z := z;
  s_add := Z.add;
  s_sub := Z.sub;
  s_mul := Z.mul;
  s_div := Z.quot;
  s_lt := Z.ltb;
  s_eq := Z.eqb;
  s_ge a b := Z.leb b a
}.

(** Integer functions in the places of those of the math library, so that
    the operators that call it can be run on integers as well.  They are
    not the functions of [libm], and no statement is about their values. *)
#[export] Instance Z_Libm : Libm Z := {
  s_pow := Z.pow;
  s_log := Z.log2;
  s_exp := Z.pow 2;
  s_tanh := Z.sgn
}.

(** ** The scalar type of the program

    [scalar_t] is [float], IEEE 754 binary32: 24 bits of precision and the
    exponent 128 for the infinities.  The operations are those of the
    standard library's specification of floating-point arithmetic, which
    round to nearest, ties to even, and have one NaN.  [double] is
    binary64. *)

(** The conversion of an [int] to [float] and to [double]. *)
Definition float_of_int (z : Z) : spec_float := binary_normalize 24 128 z 0 false.
Definition double_of_int (z : Z) : spec_float := binary_normalize 53 1024 z 0 false.

(** A [float] as a [double]: the same number. *)
Definition double_of_float (x : spec_float) : spec_float :=
  match x with
  | S754_finite s m e => binary_round 53 1024 s m e
  | _ => x
  end.

(** A [double] stored in a [float]: rounded. *)
Definition float_of_double (x : spec_float) : spec_float :=
  match x with
  | S754_finite s m e => binary_round 24 128 s m e
  | _ => x
  end.

(** [static_cast<int32_t>] of a [float] drops the fraction; it is
    undefined for a NaN, an infinity and a value outside [int32_t]. *)
Definition int_of_float (x : spec_float) : option Z :=
  match x with
  | S754_zero _ => Some 0
  | S754_finite s m e =>
    let q := if 0 <=? e then Zpos m * 2 ^ e else Zpos m / 2 ^ (- e) in
    let z := if s then - q else q in
    if (INT_MIN <=? z) && (z <=? INT_MAX) then Some z else None
  | _ => None
  end.

#[export] Instance float_Scalar : Scalar spec_float := {
  s_of_int := float_of_int;
  s_add := SFadd 24 128;
  s_sub := SFsub 24 128;
  s_mul := SFmul 24 128;
  s_div := SFdiv 24 128;
  s_lt := SFltb;
  s_eq := SFeqb;
  s_ge x y := SFleb y x
}.

#[export] Instance float_Sampling : Sampling spec_float := {
  s_half_of_int n := float_of_double (SFdiv 53 1024 (double_of_int n) (double_of_int 2));
  s_half_plus p o :=
    float_of_double
      (SFadd 53 1024 (SFdiv 53 1024 (double_of_float p) (double_of_int 2))
         (double_of_float o));
  s_to_int := int_of_float
}.

(** A [float] that is a number: not a NaN and not an infinity, and in the
    form in which binary32 holds it. *)
Definition finite_float (x : spec_float) : bool :=
  match x with
  | S754_zero _ => true
  | S754_finite _ m e => bounded 24 128 m e
  | _ => false
  end.

(** A zero of either sign. *)
Definition is_zero (x : spec_float) : bool :=
  match x with
  | S754_zero _ => true
  | _ => false
  end.

(** ** [Fill] *)

(** [for (int i = 0; i < out->size; i++) out->ptr[i] = val;]
    The counter is an [int]: [i++] is checked. *)
Definition Fill {T : Type} (out : list T) (val : T) : res (list T) :=
  for_range 0 (size out)
    (fun i o => let* o' := write o i val in let* _ := int32 (i + 1) in Ret o')
    out.

(** ** Strided traversal *)

(** The position loop:
    [pos = offset; for (i = 0; i < n_dim; ++i) pos += index[i] * strides[i];]
    The product is an [int32_t]; adding it to the [size_t] position wraps. *)
Definition position (n_dim : Z) (index strides : list Z) (offset : Z) : res Z :=
  for_range 0 n_dim
    (fun i pos =>
       let* ix := read index i in
       let* st := read strides i in
       let* prod := int32 (ix * st) in
       Ret (wrap64 (pos + prod)))
    offset.

(** The carry loop of [Compact] and [EwiseSetitem]:
    [for (int dim = n_dim - 1; dim >= 0; --dim) {
       index[dim]++;
       if (index[dim] < shape[dim]) break;
       index[dim] = 0;
       if (dim == 0) return;
     }]
    [n] is the number of iterations left, [dim + 1] when the loop starts.
    The result is the new index vector and whether [return] was reached. *)
Fixpoint carry (n : nat) (dim : Z) (shape index : list Z) : res (list Z * bool) :=
  match n with
  | O => Ret (index, false)
  | S n' =>
    let* ix := read index dim in
    let* ix1 := int32 (ix + 1) in
    let* index1 := write index dim ix1 in
    let* sh := read shape dim in
    if ix1 <? sh then Ret (index1, false)
    else
      let* index2 := write index1 dim 0 in
      if dim =? 0 then Ret (index2, true)
      else carry n' (dim - 1) shape index2
  end.

(** The same loop in [ScalarSetitem], which has no [return]. *)
Fixpoint carry_noreturn (n : nat) (dim : Z) (shape index : list Z) : res (list Z) :=
  match n with
  | O => Ret index
  | S n' =>
    let* ix := read index dim in
    let* ix1 := int32 (ix + 1) in
    let* index1 := write index dim ix1 in
    let* sh := read shape dim in
    if ix1 <? sh then Ret index1
    else
      let* index2 := write index1 dim 0 in
      carry_noreturn n' (dim - 1) shape index2
  end.

(** [int dim = n_dim - 1]: the subtraction is done in [size_t]. *)
Definition first_dim (n_dim : Z) : Z := int_of_size_t (wrap64 (n_dim - 1)).

(** The outer loop [for (size_t cnt = 0;; ++cnt)] shared by [Compact] and
    [EwiseSetitem]; [visit cnt pos] is the one statement in which the two
    differ.  The loop has no exit condition of its own. *)
Fixpoint strided_loop {St : Type} (visit : Z -> Z -> St -> res St)
    (fuel : nat) (shape strides : list Z) (offset : Z)
    (cnt : Z) (index : list Z) (out : St) : res St :=
  match fuel with
  | O => OutOfFuel
  | S fuel' =>
    let n_dim := size shape in
    let* pos := position n_dim index strides offset in
    let* out' := visit cnt pos out in
    let* st := carry (Z.to_nat (first_dim n_dim + 1)) (first_dim n_dim) shape index in
    if st.2 then Ret out'
    else strided_loop visit fuel' shape strides offset (wrap64 (cnt + 1)) st.1 out'
  end.

(** [Compact]: [out->ptr[cnt] = a.ptr[pos]]. *)
Definition Compact {T : Type} (fuel : nat) (a out : list T) (shape strides : list Z)
    (offset : Z) : res (list T) :=
  strided_loop (fun cnt pos o => let* v := read a pos in write o cnt v)
    fuel shape strides offset 0 (replicate (length shape) 0) out.

(** [EwiseSetitem]: [out->ptr[pos] = a.ptr[cnt]]. *)
Definition EwiseSetitem {T : Type} (fuel : nat) (a out : list T) (shape strides : list Z)
    (offset : Z) : res (list T) :=
  strided_loop (fun cnt pos o => let* v := read a cnt in write o pos v)
    fuel shape strides offset 0 (replicate (length shape) 0) out.

(** [ScalarSetitem]: [for (size_t cnt = 0; cnt < size; ++cnt)]; the state of
    the loop is the index vector and the buffer. *)
Definition ScalarSetitem {T : Type} (sz : Z) (val : T) (out : list T)
    (shape strides : list Z) (offset : Z) : res (list T) :=
  let n_dim := size shape in
  let* st :=
    for_range 0 sz
      (fun _ (st : list Z * list T) =>
         let* pos := position n_dim st.1 strides offset in
         let* out' := write st.2 pos val in
         let* index' :=
           carry_noreturn (Z.to_nat (first_dim n_dim + 1)) (first_dim n_dim) shape st.1 in
         Ret (index', out'))
      (replicate (length shape) 0, out) in
  Ret st.2.

(** The number of positions a traversal visits before it returns: the loop
    run with a visit that only counts. *)
Definition visit_count (fuel : nat) (shape strides : list Z) (offset : Z) : res Z :=
  strided_loop (fun _ _ n => Ret (n + 1)) fuel shape strides offset 0
    (replicate (length shape) 0) 0.

(** ** Elementwise, scalar and unary operators *)

Section Operators.
Context {T : Type} `{Scalar T} `{Libm T}.

Definition EwiseAdd (a b out : list T) : res (list T) :=
  for_range 0 (size a)
    (fun i o => let* x := read a i in let* y := read b i in write o i (s_add x y))
    out.

Definition ScalarAdd (a : list T) (val : T) (out : list T) : res (list T) :=
  for_range 0 (size a)
    (fun i o => let* x := read a i in write o i (s_add x val))
    out.

Definition DEFINE_EWISE_FUNC (opr : T -> T -> T) (a b out : list T) : res (list T) :=
  for_range 0 (size a)
    (fun i o => let* x := read a i in let* y := read b i in write o i (opr x y))
    out.

Definition DEFINE_SCALAR_FUNC (opr : T -> T -> T) (a : list T) (val : T) (out : list T)
  : res (list T) :=
  for_range 0 (size a)
    (fun i o => let* x := read a i in write o i (opr x val))
    out.

Definition DEFINE_UNARY_FUNC (opr : T -> T) (a out : list T) : res (list T) :=
  for_range 0 (size a)
    (fun i o => let* x := read a i in write o i (opr x))
    out.

Definition EwiseMul := DEFINE_EWISE_FUNC s_mul.
Definition ScalarMul := DEFINE_SCALAR_FUNC s_mul.
Definition EwiseDiv := DEFINE_EWISE_FUNC s_div.
Definition ScalarDiv := DEFINE_SCALAR_FUNC s_div.
Definition ScalarPower := DEFINE_SCALAR_FUNC s_pow.
Definition EwiseMaximum := DEFINE_EWISE_FUNC s_max.
Definition ScalarMaximum := DEFINE_SCALAR_FUNC s_max.
Definition EwiseEq := DEFINE_EWISE_FUNC (fun x y => s_of_bool (s_eq x y)).
Definition ScalarEq := DEFINE_SCALAR_FUNC (fun x y => s_of_bool (s_eq x y)).
Definition EwiseGe := DEFINE_EWISE_FUNC (fun x y => s_of_bool (s_ge x y)).
Definition ScalarGe := DEFINE_SCALAR_FUNC (fun x y => s_of_bool (s_ge x y)).
Definition EwiseLog := DEFINE_UNARY_FUNC s_log.
Definition EwiseExp := DEFINE_UNARY_FUNC s_exp.
Definition EwiseTanh := DEFINE_UNARY_FUNC s_tanh.

End Operators.

(** ** Matrix multiplication *)

Definition TILE : Z := 8.

Section Matmul.
Context {T : Type} `{Scalar T}.

(** [out->ptr[idx] += x * y]. *)
Definition accumulate (out : list T) (idx : Z) (x y : T) : res (list T) :=
  let* cur := read out idx in write out idx (s_add cur (s_mul x y)).

(** The naive product.  [i], [j], [k], [m], [n] and [p] are [uint32_t], so
    is every index expression. *)
Definition Matmul (a b out : list T) (m n p : Z) : res (list T) :=
  for_range 0 m
    (fun i o =>
       for_range 0 p
         (fun j o =>
            let* o := write o (wrap32 (wrap32 (i * p) + j)) (s_of_int 0) in
            for_range 0 n
              (fun k o =>
                 let* x := read a (wrap32 (wrap32 (i * n) + k)) in
                 let* y := read b (wrap32 (wrap32 (k * p) + j)) in
                 accumulate o (wrap32 (wrap32 (i * p) + j)) x y)
              o)
         o)
    out.

(** [AlignedDot]: the three pointers are a buffer and the position of the
    tile in it.  The operands are separate lists, as [__restrict__]
    promises. *)
Definition AlignedDot (a : list T) (a_tile : Z) (b : list T) (b_tile : Z)
    (out : list T) (out_tile : Z) : res (list T) :=
  for_range 0 TILE
    (fun i o =>
       for_range 0 TILE
         (fun j o =>
            for_range 0 TILE
              (fun k o =>
                 let* x := read a (a_tile + (i * TILE + k)) in
                 let* y := read b (b_tile + (k * TILE + j)) in
                 accumulate o (out_tile + (i * TILE + j)) x y)
              o)
         o)
    out.

(** The number of iterations of [for (size_t i = 0; i < m; i += TILE)]. *)
Definition tile_steps (m : Z) : nat := Z.to_nat ((m + (TILE - 1)) / TILE).

(** [MatmulTiled]: [i], [j] and [k] are [size_t]. *)
Definition MatmulTiled (a b out : list T) (m n p : Z) : res (list T) :=
  let* out := Fill out (s_of_int 0) in
  for_loop (tile_steps m) 0 TILE
    (fun i o =>
       for_loop (tile_steps p) 0 TILE
         (fun j o =>
            for_loop (tile_steps n) 0 TILE
              (fun k o =>
                 AlignedDot a (wrap64 (wrap64 (i * n) + wrap64 (k * TILE)))
                            b (wrap64 (wrap64 (k * p) + wrap64 (j * TILE)))
                            o (wrap64 (wrap64 (i * p) + wrap64 (j * TILE))))
              o)
         o)
    out.

(** ** Reductions *)

Definition ReduceMax (a out : list T) (reduce_size : Z) : res (list T) :=
  for_range 0 (size out)
    (fun i o =>
       let* first := read a (wrap64 (i * reduce_size)) in
       let* max_val :=
         for_range 1 reduce_size
           (fun j max_val =>
              let* x := read a (wrap64 (wrap64 (i * reduce_size) + j)) in
              Ret (s_max max_val x))
           first in
       write o i max_val)
    out.

Definition ReduceSum (a out : list T) (reduce_size : Z) : res (list T) :=
  for_range 0 (size out)
    (fun i o =>
       let* sum_val :=
         for_range 0 reduce_size
           (fun j sum_val =>
              let* x := read a (wrap64 (wrap64 (i * reduce_size) + j)) in
              Ret (s_add sum_val x))
           (s_of_int 0) in
       write o i sum_val)
    out.

End Matmul.

(** ** Grid sampling *)

(** Signed division and remainder truncate towards zero. *)
Definition div32 (x y : Z) : res Z := if y =? 0 then UB else int32 (Z.quot x y).
Definition rem32 (x y : Z) : res Z := if y =? 0 then UB else int32 (Z.rem x y).

Section GridSample.
Context {T : Type} `{Scalar T} `{Sampling T}.

Definition xx : list Z := [0; 1; 0; 1].
Definition yy : list Z := [0; 0; 1; 1].

(** [x * w / 2.0 + offset_x]: the product is a [scalar_t], the quotient
    and the sum are [double]. *)
Definition transform (x : T) (w : Z) (offset : T) : T :=
  s_half_plus (s_mul x (s_of_int w)) offset.

(** [dx * ((xx[k] << 1) - 1) + 1 - xx[k]]: the weight of neighbour [k] along
    one axis. *)
Definition weight (d : T) (bit : Z) : res T :=
  let* s := int32 (bit * 2) in
  let* s1 := int32 (s - 1) in
  Ret (s_sub (s_add (s_mul d (s_of_int s1)) (s_of_int 1)) (s_of_int bit)).

(** [(i / hw) * h2w2 + (y_ind + yy[k]) * (w+2) + (x_ind + xx[k])]. *)
Definition a_index (i hw h2w2 w y_ind x_ind yk xk : Z) : res Z :=
  let* q := div32 i hw in
  let* t1 := int32 (q * h2w2) in
  let* yi := int32 (y_ind + yk) in
  let* w2 := int32 (w + 2) in
  let* t2 := int32 (yi * w2) in
  let* t12 := int32 (t1 + t2) in
  let* xi := int32 (x_ind + xk) in
  int32 (t12 + xi).

(** [((i / chw) * hw + i % hw) << 1]. *)
Definition grid_index (i chw hw : Z) : res Z :=
  let* q := div32 i chw in
  let* t := int32 (q * hw) in
  let* r := rem32 i hw in
  let* s := int32 (t + r) in
  int32 (s * 2).

(** [static_cast<int32_t>(x)]. *)
Definition static_cast_int (x : T) : res Z :=
  match s_to_int x with
  | Some z => Ret z
  | None => UB
  end.

(** What the loop over [i] computes before it turns to the neighbours. *)
Record point : Type := { x_ind : Z; y_ind : Z; dx : T; dy : T }.

Definition sample_point (grid : list T) (h w chw hw : Z) (offset_x offset_y : T) (i : Z)
  : res point :=
  let* grid_ptr := grid_index i chw hw in
  let* x := read grid grid_ptr in
  let* grid_ptr1 := int32 (grid_ptr + 1) in
  let* y := read grid grid_ptr1 in
  let x_trans := transform x w offset_x in
  let y_trans := transform y h offset_y in
  let* xi := static_cast_int x_trans in
  let* yi := static_cast_int y_trans in
  Ret {| x_ind := xi; y_ind := yi;
         dx := s_sub x_trans (s_of_int xi); dy := s_sub y_trans (s_of_int yi) |}.

(** The body of the loop over [k]: one neighbour is added to [out->ptr[i]]. *)
Definition sample_neighbour (a : list T) (i hw h2w2 w : Z) (pt : point)
    (k : Z) (o : list T) : res (list T) :=
  let* xk := read xx k in
  let* yk := read yy k in
  let* a_ptr := a_index i hw h2w2 w (y_ind pt) (x_ind pt) yk xk in
  let* v := read a a_ptr in
  let* wx := weight (dx pt) xk in
  let* wy := weight (dy pt) yk in
  let* cur := read o i in
  write o i (s_add cur (s_mul (s_mul v wx) wy)).

Definition GridSample (a grid out : list T) (shape : list Z) : res (list T) :=
  let* b := read shape 0 in
  let* c := read shape 1 in
  let* h := read shape 2 in
  let* w := read shape 3 in
  let* w1 := int32 (w + 1) in
  let offset_x := s_half_of_int w1 in
  let* h1 := int32 (h + 1) in
  let offset_y := s_half_of_int h1 in
  let* hw := int32 (h * w) in
  let* h2 := int32 (h + 2) in
  let* w2 := int32 (w + 2) in
  let* h2w2 := int32 (h2 * w2) in
  let* ch := int32 (c * h) in
  let* chw := int32 (ch * w) in
  let* bc := int32 (b * c) in
  let* bch := int32 (bc * h) in
  let* bchw := int32 (bch * w) in
  for_range 0 bchw
    (fun i o =>
       let* pt := sample_point grid h w chw hw offset_x offset_y i in
       for_range 0 4 (sample_neighbour a i hw h2w2 w pt) o)
    out.

(** The sampling point of the output element [i], as the loop of
    [GridSample] computes it for the shape [[b, c, h, w]]. *)
Definition grid_point (grid : list T) (c h w i : Z) : res point :=
  sample_point grid h w (c * h * w) (h * w)
    (s_half_of_int (w + 1)) (s_half_of_int (h + 1)) i.

(** The pixel [(x, y)] of the padded plane that the output element [i]
    reads. *)
Definition neighbour (a : list T) (h w i x y : Z) : option T :=
  a !! Z.to_nat (Z.quot i (h * w) * ((h + 2) * (w + 2)) + y * (w + 2) + x).

(** The weight the loop gives to a neighbour along one axis. *)
Definition axis_weight (d : T) (bit : Z) : T :=
  s_sub (s_add (s_mul d (s_of_int (bit * 2 - 1))) (s_of_int 1)) (s_of_int bit).

(** The term the loop adds for one neighbour. *)
Definition contribution (v : T) (pt : point) (xk yk : Z) : T :=
  s_mul (s_mul v (axis_weight (dx pt) xk)) (axis_weight (dy pt) yk).

(** ** What grid sampling is expected to compute *)

(** The layouts, all row-major: the destination is [B x C x H x W], the
    grid is [B x H x W x 2] and the padded source is
    [B x C x (H+2) x (W+2)]. *)
Definition out_place (C H W b c h w : Z) : Z := ((b * C + c) * H + h) * W + w.
Definition grid_place (H W b h w t : Z) : Z := ((b * H + h) * W + w) * 2 + t.
Definition padded_place (C H W b c y x : Z) : Z :=
  ((b * C + c) * (H + 2) + y) * (W + 2) + x.

(** The coordinate of a sampling point in the padded plane:
    [x' = x * W / 2 + (W + 1) / 2]. *)
Definition pixel_coordinate (x : T) (W : Z) : T :=
  s_half_plus (s_mul x (s_of_int W)) (s_half_of_int (W + 1)).

(** [dx = x' - x0], for the pixel [x0] the coordinate falls into. *)
Definition fraction (x' : T) (x0 : Z) : T := s_sub x' (s_of_int x0).

(** The term of the neighbour [(x0 + xk, y0 + yk)]: its value times its
    weight along each axis, [d * (2k - 1) + 1 - k]. *)
Definition weighted (v d_x d_y : T) (xk yk : Z) : T :=
  s_mul (s_mul v (axis_weight d_x xk)) (axis_weight d_y yk).

(** A destination element after the four terms have been added to it, one
    after the other. *)
Definition accumulated (v0 d_x d_y a00 a10 a01 a11 : T) : T :=
  s_add
    (s_add
       (s_add (s_add v0 (weighted a00 d_x d_y 0 0)) (weighted a10 d_x d_y 1 0))
       (weighted a01 d_x d_y 0 1))
    (weighted a11 d_x d_y 1 1).

(** The bilinearly weighted sum of the four neighbours:
    [(1-dx)(1-dy) a00 + dx(1-dy) a10 + (1-dx)dy a01 + dx dy a11]. *)
Definition bilinear (d_x d_y a00 a10 a01 a11 : T) : T :=
  let one := s_of_int 1 in
  s_add
    (s_add
       (s_add (s_mul (s_mul (s_sub one d_x) (s_sub one d_y)) a00)
              (s_mul (s_mul d_x (s_sub one d_y)) a10))
       (s_mul (s_mul (s_sub one d_x) d_y) a01))
    (s_mul (s_mul d_x d_y) a11).

End GridSample.

(** ** Allocation *)

Definition ALIGNMENT : Z := 256.
Definition ELEM_SIZE : Z := 4.

Module AlignedArray.

Record t : Type := { ptr : Z; size : Z }.

(** [size * ELEM_SIZE], the number of bytes the constructor asks for: a
    product of two [size_t]. *)
Definition requested_bytes (sz : Z) : Z := wrap64 (sz * ELEM_SIZE).

Section Constructor.
(** [posix_memalign alignment size] is the value the call returns and the
    address it stores in [*memptr]. *)
Variable posix_memalign : Z -> Z -> Z * Z.

(** [AlignedArray(const size_t size)]. *)
Definition new (sz : Z) : res t :=
  let r := posix_memalign ALIGNMENT (requested_bytes sz) in
  if negb (r.1 =? 0) then Raise bad_alloc
  else Ret {| ptr := r.2; size := sz |}.

End Constructor.

(** What POSIX promises of [posix_memalign]: on success the address is a
    multiple of the alignment. *)
Definition posix_memalign_ok (posix_memalign : Z -> Z -> Z * Z) : Prop :=
  forall alignment sz : Z,
    0 < alignment ->
    (posix_memalign alignment sz).1 = 0 -> (posix_memalign alignment sz).2 mod alignment = 0.

(** An allocator with [capacity] bytes at address [base] that serves every
    request from there. *)
Definition bump (base capacity : Z) (alignment sz : Z) : Z * Z :=
  if sz <=? capacity then (0, (base + alignment - 1) / alignment * alignment) else (12, 0).

(** [ptr_as_int]. *)
Definition ptr_as_int (a : t) : Z := ptr a.

End AlignedArray.

(** ** Index arithmetic of the specification *)

(** An extent below one behaves like one: the counter leaves such a digit at
    zero. *)
Definition extent (s : Z) : Z := Z.max s 1.

Definition product (shape : list Z) : Z := foldr Z.mul 1 shape.

(** The number of multi-indices the counter runs through. *)
Fixpoint volume (shape : list Z) : Z :=
  match shape with
  | [] => 1
  | s :: shape' => extent s * volume shape'
  end.

(** The place of a multi-index in row-major order. *)
Fixpoint ravel (shape index : list Z) : Z :=
  match shape, index with
  | _ :: shape', i :: index' => i * volume shape' + ravel shape' index'
  | _, _ => 0
  end.

(** [Σ index[d] * strides[d]]. *)
Fixpoint lin (index strides : list Z) : Z :=
  match index, strides with
  | i :: index', st :: strides' => i * st + lin index' strides'
  | _, _ => 0
  end.

(** The position of a multi-index in the strided buffer. *)
Definition view_pos (offset : Z) (strides index : list Z) : Z := offset + lin index strides.

(** A multi-index of the view. *)
Definition in_view (shape index : list Z) : Prop :=
  Forall2 (fun s i => 0 <= i < extent s) shape index.

(** The counter step on the whole vector: the digits from the last one,
    with the carry out of the first. *)
Fixpoint incr (shape index : list Z) : list Z * bool :=
  match shape, index with
  | s :: shape', i :: index' =>
    let r := incr shape' index' in
    if r.2 then
      if i + 1 <? s then ((i + 1) :: r.1, false) else (0 :: r.1, true)
    else (i :: r.1, false)
  | _, _ => (index, true)
  end.

(** The strides fit the [int32_t] product of the position loop. *)
Definition strides_fit (shape strides : list Z) : Prop :=
  Forall2 (fun s st => INT_MIN <= (extent s - 1) * st <= INT_MAX) shape strides.

(** The left-to-right sum [((init + f 0) + f 1) + ... + f (n-1)]. *)
Fixpoint sum_lr {T : Type} `{Scalar T} (n : nat) (k : Z) (f : Z -> T) (init : T) : T :=
  match n with
  | O => init
  | S n' => sum_lr n' (k + 1) f (s_add init (f k))
  end.

(** The entry [(i, j)] of the product of the row-major matrices [a] (with [n]
    columns) and [b] (with [p] columns), accumulated from zero. *)
Definition mat_entry {T : Type} `{Scalar T} (a b : Z -> T) (n p i j : Z) : T :=
  sum_lr (Z.to_nat n) 0 (fun k => s_mul (a (i * n + k)) (b (k * p + j))) (s_of_int 0).

(** The place of entry [(r, c)] of a matrix with [cols] columns in the
    block-major layout [rows/TILE][cols/TILE][TILE][TILE]. *)
Definition tiled (cols r c : Z) : Z :=
  ((r / TILE) * (cols / TILE) + c / TILE) * (TILE * TILE) + (r mod TILE) * TILE + c mod TILE.

(** ** What the operators are expected to do *)

Section OperatorSpec.
Context {T : Type} `{Scalar T} `{Libm T}.

(** What a call leaves in the destination: [f i] in the first [n] places,
    the old contents after them. *)
Definition writes_prefix (n : nat) (f : nat -> option T) (out out' : list T) : Prop :=
  length out' = length out
  /\ (forall i : nat, (i < n)%nat -> out' !! i = f i)
  /\ (forall i : nat, (n <= i)%nat -> out' !! i = out !! i).

(** The array-array operators with the function each applies. *)
Definition ewise_operators : list ((list T -> list T -> list T -> res (list T)) * (T -> T -> T)) :=
  [ (EwiseAdd, s_add); (EwiseMul, s_mul); (EwiseDiv, s_div); (EwiseMaximum, s_max);
    (EwiseEq, fun x y => s_of_bool (s_eq x y)); (EwiseGe, fun x y => s_of_bool (s_ge x y)) ].

(** The array-scalar operators. *)
Definition scalar_operators : list ((list T -> T -> list T -> res (list T)) * (T -> T -> T)) :=
  [ (ScalarAdd, s_add); (ScalarMul, s_mul); (ScalarDiv, s_div); (ScalarPower, s_pow);
    (ScalarMaximum, s_max);
    (ScalarEq, fun x y => s_of_bool (s_eq x y)); (ScalarGe, fun x y => s_of_bool (s_ge x y)) ].

(** The unary operators. *)
Definition unary_operators : list ((list T -> list T -> res (list T)) * (T -> T)) :=
  [ (EwiseLog, s_log); (EwiseExp, s_exp); (EwiseTanh, s_tanh) ].

End OperatorSpec.

(** ** What the reductions are expected to do *)

(** The [i]-th block of [reduce_size] consecutive elements. *)
Definition block {T : Type} (a : list T) (reduce_size i : nat) : list T :=
  take reduce_size (drop (i * reduce_size) a).

(** The sum of a block from the left, starting from zero. *)
Definition sum_of {T : Type} `{Scalar T} (l : list T) : T := foldl s_add (s_of_int 0) l.

(** The maximum of a block from the left, starting from its first element. *)
Definition max_of {T : Type} `{Scalar T} (l : list T) : option T :=
  match l with
  | [] => None
  | x :: l' => Some (foldl s_max x l')
  end.

(** ** Views *)

(** What the traversals need of a view of the buffer [a]: at least one
    dimension, extents and index products within [int32_t], and every
    position inside the buffer. *)
Definition view_ok {T : Type} (a : list T) (shape strides : list Z) (offset : Z) : Prop :=
  1 <= size shape <= INT_MAX
  /\ Forall (fun s => s <= INT_MAX) shape
  /\ strides_fit shape strides
  /\ 0 <= offset
  /\ size a <= SIZE_MOD
  /\ forall index : list Z,
       in_view shape index -> 0 <= view_pos offset strides index < size a.

(** The place of a multi-index in the row-major order of a shape: the last
    dimension varies fastest. *)
Fixpoint row_major (shape index : list Z) : Z :=
  match shape, index with
  | _ :: shape', i :: index' => i * product shape' + row_major shape' index'
  | _, _ => 0
  end.

(** ** What the matrix products are expected to compute *)

(** The element at place [z] of a buffer as a total function. *)
Definition get {T : Type} `{Scalar T} (a : list T) (z : Z) : T :=
  default (s_of_int 0) (a !! Z.to_nat z).

(** The cell [(i, j)] as [Matmul] accumulates it, index arithmetic
    included. *)
Definition Matmul_cell {T : Type} `{Scalar T} (a b : list T) (n p i j : Z) : T :=
  sum_lr (Z.to_nat n) 0
    (fun k => s_mul (get a (wrap32 (wrap32 (i * n) + k))) (get b (wrap32 (wrap32 (k * p) + j))))
    (s_of_int 0).

(** The product a tile loop adds for the cell [(ii, jj)] of the output tile
    [(I, J)] at contraction index [k], in the block-major layout of
    [N] by [P] tiles. *)
Definition tile_term {T : Type} `{Scalar T} (a b : list T) (N P I J ii jj k : Z) : T :=
  s_mul (get a ((I * N + k / TILE) * (TILE * TILE) + ii * TILE + k mod TILE))
        (get b ((k / TILE * P + J) * (TILE * TILE) + k mod TILE * TILE + jj)).

(** [t] holds the [rows] by [cols] matrix [flat] in block-major layout. *)
Definition is_tiling {T : Type} (flat t : list T) (rows cols : Z) : Prop :=
  length t = length flat
  /\ forall r c, 0 <= r < rows -> 0 <= c < cols ->
       t !! Z.to_nat (tiled cols r c) = flat !! Z.to_nat (r * cols + c).

(** A 2 by [2^32 - 1] matrix whose only non-zero entry is [(1, 1)], at
    place [2^32]. *)
Definition wide_p : Z := 4294967295.

Definition wide_b : list Z :=
  replicate (Z.to_nat 4294967296) 0 ++ 1 :: replicate (Z.to_nat 4294967293) 0.


(** ** Compact strides *)

(** The strides of a compact array of the given shape: the last dimension
    has stride one, every other the product of the extents after it. *)
Fixpoint compact_strides (shape : list Z) : list Z :=
  match shape with
  | [] => []
  | _ :: shape' => product shape' :: compact_strides shape'
  end.

(** ** Conversion to numpy *)

(** The strides [to_numpy] passes to numpy: [std::transform] with
    [c * ELEM_SIZE], a product of two [size_t]. *)
Definition numpy_strides (strides : list Z) : list Z :=
  map (fun c => wrap64 (c * ELEM_SIZE)) strides.

(** ** Data for grid sampling on [float] *)

(** The quotient of two integers, as a [float]. *)
Definition float_ratio (n d : Z) : spec_float :=
  SFdiv 24 128 (float_of_int n) (float_of_int d).

(** A padded plane of 4 by 4 pixels. *)
Definition plane_4x4 : list spec_float :=
  map float_of_int
    [16; 32; 48; 64; 80; 96; 112; 128; 144; 160; 176; 192; 208; 224; 240; 256].

(** A grid for a destination of 2 by 2 elements.  Its four sampling
    points are [(x', y')] = (1.75, 1.25), (1.5, 1.5), (1, 2) and
    (2, 0.75): two between the pixels, one on a pixel, and one on a
    column of pixels. *)
Definition grid_2x2 : list spec_float :=
  [float_ratio 1 4; float_ratio (-1) 4;
   float_of_int 0; float_of_int 0;
   float_ratio (-1) 2; float_ratio 1 2;
   float_ratio 1 2; float_ratio (-3) 4].

(** A padded plane of 3 by 3 pixels with an infinite pixel to the right of
    the middle one. *)
Definition plane_3x3_inf : list spec_float :=
  [float_of_int 1; float_of_int 2; float_of_int 3;
   float_of_int 4; float_of_int 5; S754_infinity false;
   float_of_int 7; float_of_int 8; float_of_int 9].
(** * Properties *)

(** ** Outcomes, buffers and loops *)

Lemma bind_Ret {A B : Type} (m : res A) (k : A -> res B) (b : B) :
  bind m k = Ret b -> exists a, m = Ret a /\ k a = Ret b.
Proof. destruct m; simpl; intros E; try discriminate. eauto. Qed.

Lemma size_nonneg {A : Type} (a : list A) : 0 <= size a.
Proof. unfold size. lia. Qed.

Lemma size_replicate {A : Type} (n : Z) (x : A) : 0 <= n -> size (replicate (Z.to_nat n) x) = n.
Proof. intros Hn. unfold size. rewrite length_replicate. lia. Qed.

Lemma read_Some {A : Type} (a : list A) (i : Z) (v : A) :
  0 <= i -> a !! Z.to_nat i = Some v -> read a i = Ret v.
Proof.
  intros Hi Hv. unfold read, size.
  pose proof (lookup_lt_Some _ _ _ Hv) as Hlt.
  replace ((0 <=? i) && (i <? Z.of_nat (length a))) with true.
  - by rewrite Hv.
  - symmetry. apply andb_true_iff. split; [apply Z.leb_le | apply Z.ltb_lt]; lia.
Qed.

Lemma read_inv {A : Type} (a : list A) (i : Z) (v : A) :
  read a i = Ret v -> 0 <= i < size a /\ a !! Z.to_nat i = Some v.
Proof.
  unfold read. destruct ((0 <=? i) && (i <? size a)) eqn:E; [|discriminate].
  apply andb_true_iff in E as [E1 E2]. apply Z.leb_le in E1. apply Z.ltb_lt in E2.
  destruct (a !! Z.to_nat i) eqn:L; [|discriminate]. intros [= ->]. auto.
Qed.

Lemma read_in {A : Type} (a : list A) (i : Z) :
  0 <= i < size a -> exists v, read a i = Ret v /\ a !! Z.to_nat i = Some v.
Proof.
  intros Hi. unfold size in Hi.
  destruct (lookup_lt_is_Some_2 a (Z.to_nat i)) as [v Hv]; [lia|].
  exists v. split; [apply read_Some; [lia | done] | done].
Qed.

Lemma read_nat {A : Type} (a : list A) (i : nat) (v : A) :
  a !! i = Some v -> read a (Z.of_nat i) = Ret v.
Proof. intros Hv. apply read_Some; [lia | by rewrite Nat2Z.id]. Qed.

Lemma write_in {A : Type} (out : list A) (i : Z) (v : A) :
  0 <= i < size out -> write out i v = Ret (<[Z.to_nat i := v]> out).
Proof.
  intros Hi. unfold write.
  replace ((0 <=? i) && (i <? size out)) with true; [done|].
  symmetry. apply andb_true_iff. split; [apply Z.leb_le | apply Z.ltb_lt]; lia.
Qed.

Lemma write_inv {A : Type} (out out' : list A) (i : Z) (v : A) :
  write out i v = Ret out' -> 0 <= i < size out /\ out' = <[Z.to_nat i := v]> out.
Proof.
  unfold write. destruct ((0 <=? i) && (i <? size out)) eqn:E; [|discriminate].
  apply andb_true_iff in E as [E1 E2]. apply Z.leb_le in E1. apply Z.ltb_lt in E2.
  intros [= <-]. auto.
Qed.

Lemma int32_in (z : Z) : INT_MIN <= z <= INT_MAX -> int32 z = Ret z.
Proof.
  intros Hz. unfold int32.
  replace ((INT_MIN <=? z) && (z <=? INT_MAX)) with true; [done|].
  symmetry. apply andb_true_iff. split; apply Z.leb_le; lia.
Qed.

Lemma int32_inv (z r : Z) : int32 z = Ret r -> r = z /\ INT_MIN <= z <= INT_MAX.
Proof.
  unfold int32. destruct ((INT_MIN <=? z) && (z <=? INT_MAX)) eqn:E; [|discriminate].
  apply andb_true_iff in E as [E1 E2]. apply Z.leb_le in E1. apply Z.leb_le in E2.
  intros [= <-]. auto.
Qed.

Lemma int32_out (z : Z) : INT_MAX < z -> int32 z = UB.
Proof.
  intros Hz. unfold int32.
  replace (z <=? INT_MAX) with false; [by rewrite andb_false_r|].
  symmetry. apply Z.leb_gt. lia.
Qed.

(** A loop whose body keeps an invariant returns, and the invariant holds
    of what it returns. *)
Lemma for_loop_inv {St : Type} (Inv : Z -> St -> Prop) (body : Z -> St -> res St) (step : Z) :
  forall (n : nat) (i : Z) (s : St),
    Inv i s ->
    (forall (k : nat) (s0 : St),
        (k < n)%nat -> Inv (i + Z.of_nat k * step) s0 ->
        exists s1, body (i + Z.of_nat k * step) s0 = Ret s1
                   /\ Inv (i + (Z.of_nat k + 1) * step) s1) ->
    exists s', for_loop n i step body s = Ret s' /\ Inv (i + Z.of_nat n * step) s'.
Proof.
  induction n as [|n IH]; intros i s Hs Hbody.
  - exists s. split; [done|]. by replace (i + Z.of_nat 0 * step) with i by lia.
  - destruct (Hbody O s) as (s1 & E1 & H1); [lia | by replace (i + Z.of_nat 0 * step) with i by lia |].
    replace (i + Z.of_nat 0 * step) with i in E1 by lia.
    replace (i + (Z.of_nat 0 + 1) * step) with (i + step) in H1 by lia.
    destruct (IH (i + step) s1 H1) as (s' & E' & H').
    + intros k s0 Hk Hs0.
      destruct (Hbody (S k) s0) as (s2 & E2 & H2); [lia | |].
      * by replace (i + Z.of_nat (S k) * step) with (i + step + Z.of_nat k * step) by lia.
      * exists s2.
        replace (i + step + Z.of_nat k * step) with (i + Z.of_nat (S k) * step) by lia.
        split; [done|].
        by replace (i + step + (Z.of_nat k + 1) * step)
          with (i + (Z.of_nat (S k) + 1) * step) by lia.
    + exists s'. simpl. rewrite E1. simpl. split; [done|].
      by replace (i + Z.of_nat (S n) * step) with (i + step + Z.of_nat n * step) by lia.
Qed.

Lemma for_range_inv {St : Type} (Inv : Z -> St -> Prop) (body : Z -> St -> res St)
    (lo hi : Z) (s : St) :
  lo <= hi ->
  Inv lo s ->
  (forall (k : Z) (s0 : St),
      lo <= k < hi -> Inv k s0 -> exists s1, body k s0 = Ret s1 /\ Inv (k + 1) s1) ->
  exists s', for_range lo hi body s = Ret s' /\ Inv hi s'.
Proof.
  intros Hle Hs Hbody. unfold for_range.
  destruct (for_loop_inv Inv body 1 (Z.to_nat (hi - lo)) lo s Hs) as (s' & E & H').
  - intros k s0 Hk Hs0.
    destruct (Hbody (lo + Z.of_nat k * 1) s0) as (s1 & E1 & H1); [lia | done |].
    exists s1. split; [done|].
    by replace (lo + (Z.of_nat k + 1) * 1) with (lo + Z.of_nat k * 1 + 1) by lia.
  - exists s'. split; [done|].
    by replace (lo + Z.of_nat (Z.to_nat (hi - lo)) * 1) with hi in H' by lia.
Qed.

(** The same for a loop that is known to have returned. *)
Lemma for_loop_ret_inv {St : Type} (Inv : Z -> St -> Prop) (body : Z -> St -> res St) (step : Z) :
  forall (n : nat) (i : Z) (s s' : St),
    for_loop n i step body s = Ret s' ->
    Inv i s ->
    (forall (k : nat) (s0 s1 : St),
        (k < n)%nat -> Inv (i + Z.of_nat k * step) s0 ->
        body (i + Z.of_nat k * step) s0 = Ret s1 ->
        Inv (i + (Z.of_nat k + 1) * step) s1) ->
    Inv (i + Z.of_nat n * step) s'.
Proof.
  induction n as [|n IH]; intros i s s' E Hs Hbody.
  - simpl in E. injection E as <-. by replace (i + Z.of_nat 0 * step) with i by lia.
  - simpl in E. apply bind_Ret in E as (s1 & E1 & E).
    replace (i + Z.of_nat (S n) * step) with (i + step + Z.of_nat n * step) by lia.
    apply (IH _ _ _ E).
    + replace (i + step) with (i + (Z.of_nat 0 + 1) * step) by lia.
      apply (Hbody O s s1); [lia | by replace (i + Z.of_nat 0 * step) with i by lia |].
      by replace (i + Z.of_nat 0 * step) with i by lia.
    + intros k s0 s2 Hk Hs0 E2.
      replace (i + step + (Z.of_nat k + 1) * step)
        with (i + (Z.of_nat (S k) + 1) * step) by lia.
      apply (Hbody (S k) s0 s2); [lia | |].
      * by replace (i + Z.of_nat (S k) * step) with (i + step + Z.of_nat k * step) by lia.
      * by replace (i + Z.of_nat (S k) * step) with (i + step + Z.of_nat k * step) by lia.
Qed.

Lemma for_range_ret_inv {St : Type} (Inv : Z -> St -> Prop) (body : Z -> St -> res St)
    (lo hi : Z) (s s' : St) :
  lo <= hi ->
  for_range lo hi body s = Ret s' ->
  Inv lo s ->
  (forall (k : Z) (s0 s1 : St),
      lo <= k < hi -> Inv k s0 -> body k s0 = Ret s1 -> Inv (k + 1) s1) ->
  Inv hi s'.
Proof.
  intros Hle E Hs Hbody. unfold for_range in E.
  pose proof (for_loop_ret_inv Inv body 1 _ _ _ _ E Hs) as P.
  replace (lo + Z.of_nat (Z.to_nat (hi - lo)) * 1) with hi in P by lia.
  apply P.
  intros k s0 s1 Hk Hs0 E1.
  replace (lo + (Z.of_nat k + 1) * 1) with (lo + Z.of_nat k * 1 + 1) by lia.
  apply (Hbody _ s0 s1); [lia | done | done].
Qed.

(** A loop that stores one value per iteration at the place of its counter
    writes a prefix of the buffer and leaves the rest alone. *)
Lemma prefix_loop {T : Type} (P : Z -> T -> Prop) (n : Z)
    (body : Z -> list T -> res (list T)) (out : list T) :
  0 <= n <= size out ->
  (forall (i : Z) (o : list T),
      0 <= i < n -> length o = length out -> exists v, body i o = write o i v /\ P i v) ->
  exists out',
    for_range 0 n body out = Ret out'
    /\ length out' = length out
    /\ (forall i : Z, 0 <= i < n -> exists v, out' !! Z.to_nat i = Some v /\ P i v)
    /\ (forall k : nat, (Z.to_nat n <= k)%nat -> out' !! k = out !! k).
Proof.
  intros Hn Hbody.
  destruct (for_range_inv
    (fun k o => length o = length out
                /\ (forall i : Z, 0 <= i < k -> exists v, o !! Z.to_nat i = Some v /\ P i v)
                /\ (forall j : nat, (Z.to_nat k <= j)%nat -> o !! j = out !! j))
    body 0 n out) as (out' & E & HL & HP & HF).
  - lia.
  - split; [done|]. split; [intros; lia | done].
  - intros k o Hk (HL & HP & HF).
    destruct (Hbody k o Hk HL) as (v & Eb & Hv).
    exists (<[Z.to_nat k := v]> o). split.
    + rewrite Eb. apply write_in. unfold size in *. lia.
    + split; [by rewrite length_insert|]. split.
      * intros i Hi. destruct (decide (i = k)) as [->|Hne].
        -- exists v. split; [|done]. apply list_lookup_insert_eq. unfold size in *. lia.
        -- destruct (HP i) as (v' & Hv' & HPv); [lia|]. exists v'. split; [|done].
           rewrite list_lookup_insert_ne; [done | lia].
      * intros j Hj. rewrite list_lookup_insert_ne; [apply HF; lia | lia].
  - exists out'. auto.
Qed.

(** ** Elementwise, scalar and unary operators *)

Section OperatorProperties.
Context {T : Type} `{Scalar T} `{Libm T}.

Lemma ewise_prefix (opr : T -> T -> T) (a b out : list T) :
  size a <= size b -> size a <= size out ->
  exists out',
    DEFINE_EWISE_FUNC opr a b out = Ret out'
    /\ writes_prefix (length a)
         (fun i => match a !! i, b !! i with
                   | Some x, Some y => Some (opr x y)
                   | _, _ => None
                   end) out out'.
Proof.
  intros Hb Ho. unfold DEFINE_EWISE_FUNC.
  destruct (prefix_loop
    (fun i v => exists x y, a !! Z.to_nat i = Some x /\ b !! Z.to_nat i = Some y /\ v = opr x y)
    (size a)
    (fun i o => let* x := read a i in let* y := read b i in write o i (opr x y)) out)
    as (out' & E & HL & HP & HF).
  - pose proof (size_nonneg a). lia.
  - intros i o Hi _.
    destruct (read_in a i) as (x & Ex & Lx); [lia|].
    destruct (read_in b i) as (y & Ey & Ly); [lia|].
    exists (opr x y). rewrite Ex, Ey. simpl. eauto 6.
  - exists out'. split; [done|]. split; [done|]. split.
    + intros i Hi. destruct (HP (Z.of_nat i)) as (v & Hv & x & y & Lx & Ly & ->).
      * unfold size. lia.
      * rewrite Nat2Z.id in *. by rewrite Hv, Lx, Ly.
    + intros i Hi. apply HF. unfold size. lia.
Qed.

Lemma scalar_prefix (opr : T -> T -> T) (a : list T) (val : T) (out : list T) :
  size a <= size out ->
  exists out',
    DEFINE_SCALAR_FUNC opr a val out = Ret out'
    /\ writes_prefix (length a) (fun i => (fun x => opr x val) <$> a !! i) out out'.
Proof.
  intros Ho. unfold DEFINE_SCALAR_FUNC.
  destruct (prefix_loop
    (fun i v => exists x, a !! Z.to_nat i = Some x /\ v = opr x val)
    (size a)
    (fun i o => let* x := read a i in write o i (opr x val)) out)
    as (out' & E & HL & HP & HF).
  - pose proof (size_nonneg a). lia.
  - intros i o Hi _.
    destruct (read_in a i) as (x & Ex & Lx); [lia|].
    exists (opr x val). rewrite Ex. simpl. eauto.
  - exists out'. split; [done|]. split; [done|]. split.
    + intros i Hi. destruct (HP (Z.of_nat i)) as (v & Hv & x & Lx & ->).
      * unfold size. lia.
      * rewrite Nat2Z.id in *. by rewrite Hv, Lx.
    + intros i Hi. apply HF. unfold size. lia.
Qed.

Lemma unary_prefix (opr : T -> T) (a out : list T) :
  size a <= size out ->
  exists out',
    DEFINE_UNARY_FUNC opr a out = Ret out'
    /\ writes_prefix (length a) (fun i => opr <$> a !! i) out out'.
Proof.
  intros Ho. unfold DEFINE_UNARY_FUNC.
  destruct (prefix_loop
    (fun i v => exists x, a !! Z.to_nat i = Some x /\ v = opr x)
    (size a)
    (fun i o => let* x := read a i in write o i (opr x)) out)
    as (out' & E & HL & HP & HF).
  - pose proof (size_nonneg a). lia.
  - intros i o Hi _.
    destruct (read_in a i) as (x & Ex & Lx); [lia|].
    exists (opr x). rewrite Ex. simpl. eauto.
  - exists out'. split; [done|]. split; [done|]. split.
    + intros i Hi. destruct (HP (Z.of_nat i)) as (v & Hv & x & Lx & ->).
      * unfold size. lia.
      * rewrite Nat2Z.id in *. by rewrite Hv, Lx.
    + intros i Hi. apply HF. unfold size. lia.
Qed.

(** C10.  Every elementwise, array-scalar and unary operator writes the
    first [a.size] elements of the destination, each with the operator
    applied to the inputs at that place, and leaves every element from
    [a.size] on as it was, however long the destination is. *)
Theorem operators_write_first_a_size (a b out : list T) (val : T) :
  size a <= size out ->
  (size a <= size b ->
   Forall (fun fo => exists out',
             fo.1 a b out = Ret out'
             /\ writes_prefix (length a)
                  (fun i => match a !! i, b !! i with
                            | Some x, Some y => Some (fo.2 x y)
                            | _, _ => None
                            end) out out')
          ewise_operators)
  /\ Forall (fun fo => exists out',
               fo.1 a val out = Ret out'
               /\ writes_prefix (length a) (fun i => (fun x => fo.2 x val) <$> a !! i) out out')
            scalar_operators
  /\ Forall (fun fo => exists out',
               fo.1 a out = Ret out'
               /\ writes_prefix (length a) (fun i => fo.2 <$> a !! i) out out')
            unary_operators.
Proof.
  intros Ho. split; [intros Hb | split].
  - repeat constructor; simpl; apply ewise_prefix; done.
  - repeat constructor; simpl; apply scalar_prefix; done.
  - repeat constructor; simpl; apply unary_prefix; done.
Qed.

End OperatorProperties.

(** The destination of [EwiseAdd] may be longer than its inputs. *)
Lemma operators_write_first_a_size_witness :
  size [1; 2; 3] <= size [7; 7; 7; 7; 7]
  /\ EwiseAdd [1; 2; 3] [4; 5; 6] [7; 7; 7; 7; 7] = Ret [5; 7; 9; 7; 7]
  /\ ScalarMul [1; 2; 3] 2 [7; 7; 7; 7; 7] = Ret [2; 4; 6; 7; 7]
  /\ Forall (fun fo => exists out',
               fo.1 [1; 2; 3] [7; 7; 7; 7; 7] = Ret out'
               /\ writes_prefix 3 (fun i => fo.2 <$> [1; 2; 3] !! i) [7; 7; 7; 7; 7] out')
            unary_operators.
Proof.
  split; [vm_compute; discriminate|].
  split; [reflexivity|]. split; [reflexivity|].
  apply (operators_write_first_a_size [1; 2; 3] [4; 5; 6] [7; 7; 7; 7; 7] 2).
  vm_compute; discriminate.
Defined.

(** ** Reductions *)

Lemma wrap64_small (z : Z) : 0 <= z < SIZE_MOD -> wrap64 z = z.
Proof. intros Hz. unfold wrap64. by apply Z.mod_small. Qed.

Lemma wrap32_small (z : Z) : 0 <= z < UINT32_MOD -> wrap32 z = z.
Proof. intros Hz. unfold wrap32. by apply Z.mod_small. Qed.

(** A loop that folds the elements [a[base + lo .. base + lo + n - 1]] into
    an accumulator. *)
Lemma fold_slice {T : Type} (f : T -> T -> T) (a : list T) (base : Z)
    (body : Z -> T -> res T) :
  forall (n : nat) (lo : Z) (init : T),
    0 <= base + lo ->
    base + lo + Z.of_nat n <= size a ->
    (forall (j : Z) (acc : T),
        lo <= j < lo + Z.of_nat n ->
        body j acc = let* x := read a (base + j) in Ret (f acc x)) ->
    for_loop n lo 1 body init
    = Ret (foldl f init (take n (drop (Z.to_nat (base + lo)) a))).
Proof.
  induction n as [|n IH]; intros lo init H0 Hn Hbody.
  - by rewrite take_0.
  - simpl for_loop. rewrite Hbody by lia.
    destruct (read_in a (base + lo)) as (x & Ex & Lx); [lia|].
    rewrite Ex. simpl bind.
    rewrite (drop_S _ _ _ Lx). simpl.
    rewrite IH; try lia.
    + by replace (Z.to_nat (base + (lo + 1))) with (S (Z.to_nat (base + lo))) by lia.
    + intros j acc Hj. apply Hbody. lia.
Qed.

Section ReductionProperties.
Context {T : Type} `{Scalar T}.

Lemma ReduceSum_blocks (a out : list T) (reduce_size : Z) :
  1 <= reduce_size ->
  size a = size out * reduce_size ->
  size a < SIZE_MOD ->
  exists out',
    ReduceSum a out reduce_size = Ret out'
    /\ length out' = length out
    /\ forall i : nat, (i < length out)%nat ->
         out' !! i = Some (sum_of (block a (Z.to_nat reduce_size) i)).
Proof.
  intros Hr Ha Hsz. unfold ReduceSum.
  match goal with
  | |- exists _, for_range 0 _ ?body _ = _ /\ _ =>
    destruct (prefix_loop
      (fun i v => v = sum_of (block a (Z.to_nat reduce_size) (Z.to_nat i)))
      (size out) body out (conj (size_nonneg out) (Z.le_refl _))) as (out' & E & HL & HP & _)
  end.
  - intros i o Hi _.
    assert (Hb : 0 <= i * reduce_size /\ i * reduce_size + reduce_size <= size a) by nia.
    exists (sum_of (block a (Z.to_nat reduce_size) (Z.to_nat i))). split; [|done].
    unfold for_range. rewrite Z.sub_0_r.
    rewrite (fold_slice s_add a (i * reduce_size)).
    + simpl. unfold sum_of, block. do 4 f_equal. lia.
    + lia.
    + lia.
    + intros j acc Hj. rewrite (wrap64_small (i * reduce_size)) by lia.
      rewrite wrap64_small by lia. done.
  - exists out'. split; [exact E|]. split; [done|].
    intros i Hi. destruct (HP (Z.of_nat i)) as (v & Hv & ->); [unfold size; lia|].
    by rewrite Nat2Z.id in *.
Qed.

Lemma ReduceMax_blocks (a out : list T) (reduce_size : Z) :
  1 <= reduce_size ->
  size a = size out * reduce_size ->
  size a < SIZE_MOD ->
  exists out',
    ReduceMax a out reduce_size = Ret out'
    /\ length out' = length out
    /\ forall i : nat, (i < length out)%nat ->
         out' !! i = max_of (block a (Z.to_nat reduce_size) i).
Proof.
  intros Hr Ha Hsz. unfold ReduceMax.
  match goal with
  | |- exists _, for_range 0 _ ?body _ = _ /\ _ =>
    destruct (prefix_loop
      (fun i v => Some v = max_of (block a (Z.to_nat reduce_size) (Z.to_nat i)))
      (size out) body out (conj (size_nonneg out) (Z.le_refl _))) as (out' & E & HL & HP & _)
  end.
  - intros i o Hi _.
    assert (Hb : 0 <= i * reduce_size /\ i * reduce_size + reduce_size <= size a) by nia.
    rewrite (wrap64_small (i * reduce_size)) by lia.
    destruct (read_in a (i * reduce_size)) as (x & Ex & Lx); [lia|].
    rewrite Ex. simpl bind.
    unfold for_range.
    rewrite (fold_slice s_max a (i * reduce_size)).
    + simpl bind. eexists. split; [reflexivity|].
      unfold block.
      replace (Z.to_nat i * Z.to_nat reduce_size)%nat with (Z.to_nat (i * reduce_size)) by lia.
      rewrite (drop_S _ _ _ Lx).
      replace (Z.to_nat reduce_size) with (S (Z.to_nat (reduce_size - 1))) by lia.
      simpl. do 4 f_equal. lia.
    + lia.
    + lia.
    + intros j acc Hj. rewrite wrap64_small by lia. done.
  - exists out'. split; [exact E|]. split; [done|].
    intros i Hi. destruct (HP (Z.of_nat i)) as (v & Hv & Hm); [unfold size; lia|].
    rewrite Nat2Z.id in *. by rewrite Hv.
Qed.

End ReductionProperties.



(** ** The mixed-radix counter *)

Lemma extent_pos (s : Z) : 1 <= extent s.
Proof. unfold extent. lia. Qed.

Lemma volume_pos (shape : list Z) : 1 <= volume shape.
Proof.
  induction shape as [|s shape IH]; simpl; [lia|].
  pose proof (extent_pos s). nia.
Qed.

Lemma in_view_length (shape index : list Z) :
  in_view shape index -> length index = length shape.
Proof. intros Hv. symmetry. by eapply Forall2_length. Qed.

Lemma ravel_bounds (shape index : list Z) :
  in_view shape index -> 0 <= ravel shape index < volume shape.
Proof.
  induction 1 as [|s i shape index Hi Hv IH]; simpl; [lia|].
  pose proof (volume_pos shape). nia.
Qed.

Lemma ravel_inj (shape index1 index2 : list Z) :
  in_view shape index1 -> in_view shape index2 ->
  ravel shape index1 = ravel shape index2 -> index1 = index2.
Proof.
  intros H1. revert index2.
  induction H1 as [|s i shape index1 Hi Hv IH]; intros index2 H2 E.
  - by inversion H2.
  - inversion H2 as [|s' j shape' index2' Hj Hv2]; subst. simpl in E.
    pose proof (ravel_bounds _ _ Hv). pose proof (ravel_bounds _ _ Hv2).
    assert (i = j) by nia. subst j.
    f_equal. apply IH; [done | lia].
Qed.

Lemma in_view_zeros (shape : list Z) : in_view shape (replicate (length shape) 0).
Proof.
  induction shape as [|s shape IH]; simpl; constructor; [|done].
  pose proof (extent_pos s). lia.
Qed.

Lemma ravel_zeros (shape : list Z) : ravel shape (replicate (length shape) 0) = 0.
Proof. induction shape as [|s shape IH]; simpl; lia. Qed.

(** With extents of at least one, the volume is the product of the shape. *)
Lemma volume_product (shape : list Z) :
  Forall (fun s => 1 <= s) shape -> volume shape = product shape.
Proof.
  induction 1 as [|s shape Hs _ IH]; simpl; [done|].
  unfold product in IH. rewrite IH. unfold extent. f_equal. lia.
Qed.

(** A step of the counter moves to the next multi-index in row-major order,
    and carries out of the first digit after the last one. *)
Lemma incr_next (shape index : list Z) :
  in_view shape index ->
  in_view shape (incr shape index).1
  /\ ravel shape (incr shape index).1
     + (if (incr shape index).2 then volume shape else 0)
     = ravel shape index + 1.
Proof.
  induction 1 as [|s i shape index Hi Hv [IH1 IH2]]; simpl.
  - split; [constructor | lia].
  - pose proof (volume_pos shape) as HV. unfold extent in Hi.
    destruct (incr shape index) as [index' c]; simpl in *.
    destruct c.
    + destruct (Z.ltb_spec (i + 1) s); simpl.
      * split; [constructor; [unfold extent; lia | done] | lia].
      * split; [constructor; [unfold extent; lia | done]|].
        assert (i = extent s - 1) as -> by (unfold extent; lia). lia.
    + simpl. split; [constructor; [unfold extent; lia | done] | lia].
Qed.

Lemma incr_snoc (ps pi : list Z) (s i : Z) :
  length ps = length pi ->
  incr (ps ++ [s]) (pi ++ [i])
  = if i + 1 <? s then (pi ++ [i + 1], false)
    else ((incr ps pi).1 ++ [0], (incr ps pi).2).
Proof.
  revert pi. induction ps as [|s0 ps IH]; intros [|i0 pi] HL; simpl in HL; try discriminate.
  - simpl. by destruct (i + 1 <? s).
  - simpl. rewrite IH by lia.
    destruct (i + 1 <? s); simpl; [done|].
    destruct (incr ps pi) as [r c]; simpl.
    destruct c; [|done]. by destruct (i0 + 1 <? s0).
Qed.

(** ** The loops of the traversal *)

Lemma read_app_middle {A : Type} (l1 l2 : list A) (x : A) :
  read (l1 ++ x :: l2) (Z.of_nat (length l1)) = Ret x.
Proof. apply read_nat. by rewrite list_lookup_middle. Qed.

Lemma write_app_middle {A : Type} (l1 l2 : list A) (x y : A) :
  write (l1 ++ x :: l2) (Z.of_nat (length l1)) y = Ret (l1 ++ y :: l2).
Proof.
  rewrite write_in.
  - rewrite Nat2Z.id. by rewrite insert_app_r_alt, Nat.sub_diag by lia.
  - unfold size. rewrite length_app. simpl. lia.
Qed.

(** The carry loop started at the last digit of a prefix of the index
    vector is a counter step on that prefix. *)
Lemma carry_incr (ps : list Z) :
  forall (pi : list Z) (s i : Z) (ls li : list Z),
    length ps = length pi ->
    in_view (ps ++ [s]) (pi ++ [i]) ->
    Forall (fun s => s <= INT_MAX) (ps ++ [s]) ->
    carry (S (length ps)) (Z.of_nat (length ps)) (ps ++ s :: ls) (pi ++ i :: li)
    = Ret ((incr (ps ++ [s]) (pi ++ [i])).1 ++ li, (incr (ps ++ [s]) (pi ++ [i])).2).
Proof.
  induction ps as [|s' ps IH] using rev_ind; intros pi s i ls li HL Hv Hmax.
  - destruct pi; [|discriminate]. simpl in Hv.
    inversion Hv as [|? ? ? ? Hi _]; subst. unfold extent in Hi.
    inversion Hmax as [|? ? Hs _]; subst.
    simpl.
    rewrite int32_in by (unfold INT_MIN, INT_MAX in *; lia). simpl.
    by destruct (i + 1 <? s).
  - destruct pi as [|i' pi _] using rev_ind.
    { rewrite length_app in HL. simpl in HL. lia. }
    rewrite !length_app in HL. simpl in HL.
    assert (HL' : length ps = length pi) by lia.
    apply Forall2_app_inv in Hv as [Hv Hsi]; [|rewrite !length_app; simpl; lia].
    inversion Hsi as [|? ? ? ? Hi _]; subst. unfold extent in Hi.
    apply Forall_app in Hmax as [Hmax Hs]. inversion Hs as [|? ? Hs' _]; subst.
    rewrite incr_snoc by (rewrite !length_app; simpl; lia).
    cbn [carry].
    replace (Z.of_nat (length (ps ++ [s']))) with (Z.of_nat (length (pi ++ [i']))) at 1
      by (rewrite !length_app; simpl; lia).
    rewrite read_app_middle. cbn [bind].
    rewrite int32_in by (unfold INT_MIN, INT_MAX in *; lia). cbn [bind].
    replace (Z.of_nat (length (ps ++ [s']))) with (Z.of_nat (length (pi ++ [i']))) at 1
      by (rewrite !length_app; simpl; lia).
    rewrite write_app_middle. cbn [bind].
    rewrite read_app_middle. cbn [bind].
    destruct (i + 1 <? s).
    + simpl. by rewrite <- !app_assoc.
    + replace (Z.of_nat (length (ps ++ [s']))) with (Z.of_nat (length (pi ++ [i']))) at 1
        by (rewrite !length_app; simpl; lia).
      rewrite write_app_middle. cbn [bind].
      replace (Z.of_nat (length (ps ++ [s'])) =? 0) with false
        by (symmetry; apply Z.eqb_neq; rewrite length_app; simpl; lia).
      replace (Z.of_nat (length (ps ++ [s'])) - 1) with (Z.of_nat (length ps))
        by (rewrite length_app; simpl; lia).
      replace (length (ps ++ [s'])) with (S (length ps)) by (rewrite length_app; simpl; lia).
      rewrite <- !app_assoc. cbn [app].
      rewrite (IH pi s' i' (s :: ls) (0 :: li) HL' Hv Hmax).
      simpl. by rewrite <- !app_assoc.
Qed.

Lemma first_dim_rank (n_dim : Z) :
  1 <= n_dim <= INT_MAX -> first_dim n_dim = n_dim - 1.
Proof.
  intros Hn. unfold first_dim, int_of_size_t, INT_MAX in *.
  rewrite wrap64_small by (unfold SIZE_MOD; lia).
  rewrite wrap32_small by (unfold UINT32_MOD; lia).
  destruct (Z.ltb_spec (n_dim - 1) 2147483648); lia.
Qed.

Lemma first_dim_rank0 : first_dim 0 = -1.
Proof. reflexivity. Qed.

Lemma carry_whole (shape index : list Z) :
  1 <= size shape <= INT_MAX ->
  Forall (fun s => s <= INT_MAX) shape ->
  in_view shape index ->
  carry (Z.to_nat (first_dim (size shape) + 1)) (first_dim (size shape)) shape index
  = Ret (incr shape index).
Proof.
  intros Hn Hmax Hv. rewrite first_dim_rank by done.
  pose proof (in_view_length _ _ Hv) as HL.
  destruct shape as [|s ps _] using rev_ind; [unfold size in Hn; simpl in Hn; lia|].
  destruct index as [|i pi _] using rev_ind; [rewrite length_app in HL; simpl in HL; lia|].
  rewrite !length_app in HL. simpl in HL.
  unfold size. rewrite length_app. simpl.
  replace (Z.to_nat (Z.of_nat (length ps + 1) - 1 + 1)) with (S (length ps)) by lia.
  replace (Z.of_nat (length ps + 1) - 1) with (Z.of_nat (length ps)) by lia.
  rewrite (carry_incr ps pi s i [] []); [|lia|done|done].
  rewrite app_nil_r. by destruct (incr (ps ++ [s]) (pi ++ [i])).
Qed.

Lemma carry_noreturn_carry (n : nat) :
  forall (dim : Z) (shape index : list Z) (r : list Z * bool),
    Z.of_nat n = dim + 1 ->
    carry n dim shape index = Ret r ->
    carry_noreturn n dim shape index = Ret r.1.
Proof.
  induction n as [|n IH]; intros dim shape index r Hn E.
  - simpl in *. by injection E as <-.
  - simpl in *.
    destruct (read index dim) as [ix| | |]; simpl in *; try discriminate.
    destruct (int32 (ix + 1)) as [ix1| | |]; simpl in *; try discriminate.
    destruct (write index dim ix1) as [index1| | |]; simpl in *; try discriminate.
    destruct (read shape dim) as [sh| | |]; simpl in *; try discriminate.
    destruct (ix1 <? sh); [by injection E as <-|].
    destruct (write index1 dim 0) as [index2| | |]; simpl in *; try discriminate.
    destruct (Z.eqb_spec dim 0) as [->|Hd].
    + injection E as <-. assert (n = 0%nat) as -> by lia. done.
    + apply IH; [lia | done].
Qed.

(** The position loop computes [offset + Σ index[d] * strides[d]] modulo
    2^64. *)
Lemma position_loop (pre_i pre_s : list Z) :
  forall (suf_i suf_s : list Z) (acc : Z),
    length pre_i = length pre_s ->
    Forall2 (fun i st => INT_MIN <= i * st <= INT_MAX) suf_i suf_s ->
    0 <= acc < SIZE_MOD ->
    for_loop (length suf_i) (Z.of_nat (length pre_i)) 1
      (fun i pos =>
         let* ix := read (pre_i ++ suf_i) i in
         let* st := read (pre_s ++ suf_s) i in
         let* prod := int32 (ix * st) in
         Ret (wrap64 (pos + prod)))
      acc
    = Ret (wrap64 (acc + lin suf_i suf_s)).
Proof.
  intros suf_i suf_s acc HL Hfit. revert pre_i pre_s acc HL.
  induction Hfit as [|i st suf_i suf_s Hp Hfit IH]; intros pre_i pre_s acc HL Hacc.
  - simpl. by rewrite Z.add_0_r, wrap64_small.
  - cbn [for_loop length lin].
    rewrite read_app_middle. cbn [bind].
    rewrite HL. rewrite read_app_middle. cbn [bind].
    rewrite int32_in by done. cbn [bind].
    specialize (IH (pre_i ++ [i]) (pre_s ++ [st]) (wrap64 (acc + i * st))).
    rewrite !length_app in IH. simpl in IH. rewrite <- !app_assoc in IH. simpl in IH.
    replace (Z.of_nat (length pre_s) + 1) with (Z.of_nat (length pre_i + 1)) by lia.
    rewrite IH.
    + f_equal. unfold wrap64. rewrite Zplus_mod_idemp_l. f_equal. lia.
    + lia.
    + unfold wrap64. apply Z.mod_pos_bound. unfold SIZE_MOD. lia.
Qed.

Lemma in_view_fit (shape strides index : list Z) :
  strides_fit shape strides -> in_view shape index ->
  Forall2 (fun i st => INT_MIN <= i * st <= INT_MAX) index strides.
Proof.
  intros Hf. revert index.
  induction Hf as [|s st shape strides Hs Hf IH]; intros index Hv.
  - inversion Hv. constructor.
  - inversion Hv as [|? i ? index' Hi Hv']; subst. constructor; [|by apply IH].
    remember (extent s - 1) as e eqn:He.
    assert (0 <= i <= e) as Hie by lia.
    unfold INT_MIN, INT_MAX in *.
    destruct (Z.le_gt_cases 0 st).
    + assert (0 <= i * st) by nia. assert (i * st <= e * st) by nia. lia.
    + assert (i * st <= 0) by nia. assert (e * st <= i * st) by nia. lia.
Qed.

Lemma position_lin (shape strides index : list Z) (offset : Z) :
  strides_fit shape strides -> in_view shape index ->
  0 <= offset < SIZE_MOD ->
  position (size shape) index strides offset = Ret (wrap64 (view_pos offset strides index)).
Proof.
  intros Hf Hv Ho. unfold position, for_range, size, view_pos.
  rewrite Z.sub_0_r, Nat2Z.id. rewrite <- (in_view_length _ _ Hv).
  apply (position_loop [] [] index strides offset); [done | | done].
  by eapply in_view_fit.
Qed.

(** The outer loop keeps an invariant that every visit keeps, and returns
    when the counter has run through the whole view. *)
Lemma strided_loop_inv {St : Type} (visit : Z -> Z -> St -> res St) (Inv : Z -> St -> Prop)
    (shape strides : list Z) (offset : Z) :
  1 <= size shape <= INT_MAX ->
  Forall (fun s => s <= INT_MAX) shape ->
  strides_fit shape strides ->
  0 <= offset < SIZE_MOD ->
  volume shape <= SIZE_MOD ->
  (forall (index : list Z) (s : St),
      in_view shape index -> Inv (ravel shape index) s ->
      exists s', visit (ravel shape index) (wrap64 (view_pos offset strides index)) s = Ret s'
                 /\ Inv (ravel shape index + 1) s') ->
  forall (k : nat) (fuel : nat) (index : list Z) (s : St),
    in_view shape index ->
    Z.of_nat k = volume shape - ravel shape index ->
    (k <= fuel)%nat ->
    Inv (ravel shape index) s ->
    exists s',
      strided_loop visit fuel shape strides offset (ravel shape index) index s = Ret s'
      /\ Inv (volume shape) s'.
Proof.
  intros Hn Hmax Hfit Ho HV Hvisit.
  induction k as [|k IH]; intros fuel index s Hv Hk Hfuel Hs.
  - pose proof (ravel_bounds _ _ Hv). lia.
  - destruct fuel as [|fuel]; [lia|].
    cbn [strided_loop].
    rewrite position_lin by done. cbn [bind].
    destruct (Hvisit index s Hv Hs) as (s1 & E1 & H1). rewrite E1. cbn [bind].
    rewrite carry_whole by done. cbn [bind].
    destruct (incr_next _ _ Hv) as [Hv' Hr].
    destruct (incr shape index) as [index' c]; simpl in *.
    pose proof (ravel_bounds _ _ Hv). pose proof (ravel_bounds _ _ Hv').
    destruct c.
    + exists s1. split; [done|]. by replace (volume shape) with (ravel shape index + 1) by lia.
    +
      rewrite wrap64_small by lia.
      assert (Heq : ravel shape index + 1 = ravel shape index') by lia.
      rewrite Heq in H1 |- *.
      apply IH; [done | lia | lia | done].
Qed.

(** A traversal of a view without a dimension never reaches [return]. *)
Lemma strided_loop_rank0 {St : Type} (visit : Z -> Z -> St -> res St)
    (strides : list Z) (offset : Z) :
  forall (fuel : nat) (cnt : Z) (s s' : St),
    strided_loop visit fuel [] strides offset cnt [] s <> Ret s'.
Proof.
  induction fuel as [|fuel IH]; intros cnt s s'; [discriminate|].
  cbn [strided_loop]. change (position (size []) [] strides offset) with (Ret (A:=Z) offset).
  cbn [bind]. destruct (visit cnt offset s) as [s1| | |]; cbn [bind]; try discriminate.
  change (carry _ _ [] []) with (Ret (A:=list Z * bool) ([], false)).
  cbn [bind snd fst]. apply IH.
Qed.

(** ** [Compact], [EwiseSetitem] and [ScalarSetitem] *)

Lemma lin_zeros (n : nat) (strides : list Z) : lin (replicate n 0) strides = 0.
Proof.
  revert strides. induction n as [|n IH]; intros [|st strides]; simpl; try done.
  rewrite IH. lia.
Qed.

Lemma view_ok_offset {T : Type} (a : list T) (shape strides : list Z) (offset : Z) :
  view_ok a shape strides offset -> 0 <= offset < SIZE_MOD.
Proof.
  intros (_ & _ & _ & Ho & Ha & Hin).
  specialize (Hin _ (in_view_zeros shape)). unfold view_pos in Hin.
  rewrite lin_zeros in Hin. lia.
Qed.

Lemma view_ok_wrap {T : Type} (a : list T) (shape strides index : list Z) (offset : Z) :
  view_ok a shape strides offset -> in_view shape index ->
  wrap64 (view_pos offset strides index) = view_pos offset strides index.
Proof.
  intros (_ & _ & _ & _ & Ha & Hin) Hv. specialize (Hin _ Hv).
  apply wrap64_small. lia.
Qed.

(** [Compact] stores the element of every multi-index at the place of that
    multi-index in row-major order. *)
Lemma Compact_row_major {T : Type} (a out : list T) (shape strides : list Z) (offset : Z) :
  view_ok a shape strides offset ->
  volume shape <= size out ->
  size out <= SIZE_MOD ->
  forall fuel : nat,
    volume shape <= Z.of_nat fuel ->
    exists out',
      Compact fuel a out shape strides offset = Ret out'
      /\ length out' = length out
      /\ (forall index : list Z,
             in_view shape index ->
             out' !! Z.to_nat (ravel shape index)
             = a !! Z.to_nat (view_pos offset strides index))
      /\ (forall j : nat, volume shape <= Z.of_nat j -> out' !! j = out !! j).
Proof.
  intros Hok Hout Hsz fuel Hfuel.
  pose proof (view_ok_offset _ _ _ _ Hok) as Ho.
  pose proof Hok as (Hn & Hmax & Hfit & _ & Ha & Hin).
  pose proof (volume_pos shape) as HV.
  unfold Compact.
  destruct (strided_loop_inv
    (fun cnt pos o => let* v := read a pos in write o cnt v)
    (fun c o =>
       length o = length out
       /\ (forall index, in_view shape index -> ravel shape index < c ->
             o !! Z.to_nat (ravel shape index) = a !! Z.to_nat (view_pos offset strides index))
       /\ (forall j : nat, c <= Z.of_nat j -> o !! j = out !! j))
    shape strides offset Hn Hmax Hfit Ho ltac:(lia))
    with (k := Z.to_nat (volume shape)) (fuel := fuel)
         (index := replicate (length shape) 0) (s := out)
    as (out' & E & HL & HP & HF); [| | | | |rewrite ravel_zeros in E].
  - intros index o Hv (HL & HP & HF).
    rewrite (view_ok_wrap _ _ _ _ _ Hok Hv).
    pose proof (ravel_bounds _ _ Hv) as Hb. specialize (Hin _ Hv) as Hp.
    destruct (read_in a _ Hp) as (v & Ev & Lv). rewrite Ev. cbn [bind].
    rewrite write_in by (unfold size in *; lia).
    eexists. split; [reflexivity|].
    split; [by rewrite length_insert|]. split.
    + intros index2 Hv2 Hlt. pose proof (ravel_bounds _ _ Hv2) as Hb2.
      destruct (decide (ravel shape index2 = ravel shape index)) as [Heq|Hne].
      * rewrite (ravel_inj _ _ _ Hv2 Hv Heq).
        rewrite list_lookup_insert_eq by (unfold size in *; lia). done.
      * rewrite list_lookup_insert_ne by lia. apply HP; [done | lia].
    + intros j Hj. rewrite list_lookup_insert_ne by lia. apply HF. lia.
  - apply in_view_zeros.
  - rewrite ravel_zeros. lia.
  - lia.
  - rewrite ravel_zeros. split; [done|]. split; [|done].
    intros index Hv. pose proof (ravel_bounds _ _ Hv). lia.
  - exists out'. split; [done|]. split; [done|]. split; [|done].
    intros index Hv. apply HP; [done|]. pose proof (ravel_bounds _ _ Hv). lia.
Qed.

(** Scattering a compacted view back puts every element of the view where
    it came from and touches nothing else. *)
Lemma EwiseSetitem_of_compact {T : Type} (src c dst : list T)
    (shape strides : list Z) (offset : Z) :
  view_ok src shape strides offset ->
  size dst = size src ->
  volume shape <= size c ->
  size c <= SIZE_MOD ->
  (forall index : list Z,
      in_view shape index ->
      c !! Z.to_nat (ravel shape index) = src !! Z.to_nat (view_pos offset strides index)) ->
  forall fuel : nat,
    volume shape <= Z.of_nat fuel ->
    exists r,
      EwiseSetitem fuel c dst shape strides offset = Ret r
      /\ length r = length dst
      /\ (forall index : list Z,
             in_view shape index ->
             r !! Z.to_nat (view_pos offset strides index)
             = src !! Z.to_nat (view_pos offset strides index))
      /\ (forall q : nat,
             (forall index : list Z,
                 in_view shape index -> Z.to_nat (view_pos offset strides index) <> q) ->
             r !! q = dst !! q).
Proof.
  intros Hok Hdst Hcv Hcs Hc fuel Hfuel.
  pose proof (view_ok_offset _ _ _ _ Hok) as Ho.
  pose proof Hok as (Hn & Hmax & Hfit & _ & Ha & Hin).
  pose proof (volume_pos shape) as HV.
  unfold EwiseSetitem.
  destruct (strided_loop_inv
    (fun cnt pos o => let* v := read c cnt in write o pos v)
    (fun n o =>
       length o = length dst
       /\ (forall index, in_view shape index -> ravel shape index < n ->
             o !! Z.to_nat (view_pos offset strides index)
             = src !! Z.to_nat (view_pos offset strides index))
       /\ (forall q : nat,
             (forall index, in_view shape index ->
                            Z.to_nat (view_pos offset strides index) <> q) ->
             o !! q = dst !! q))
    shape strides offset Hn Hmax Hfit Ho ltac:(lia))
    with (k := Z.to_nat (volume shape)) (fuel := fuel)
         (index := replicate (length shape) 0) (s := dst)
    as (r & E & HL & HP & HF); [| | | | |rewrite ravel_zeros in E].
  - intros index o Hv (HL & HP & HF).
    rewrite (view_ok_wrap _ _ _ _ _ Hok Hv).
    pose proof (ravel_bounds _ _ Hv) as Hb. specialize (Hin _ Hv) as Hp.
    destruct (read_in c (ravel shape index)) as (v & Ev & Lv); [lia|].
    rewrite Ev. cbn [bind].
    rewrite write_in by (unfold size in *; lia).
    eexists. split; [reflexivity|].
    rewrite (Hc _ Hv) in Lv.
    split; [by rewrite length_insert|]. split.
    + intros index2 Hv2 Hlt. specialize (Hin _ Hv2) as Hp2.
      destruct (decide (view_pos offset strides index2 = view_pos offset strides index))
        as [Heq|Hne].
      * rewrite Heq. rewrite list_lookup_insert_eq by (unfold size in *; lia). done.
      * rewrite list_lookup_insert_ne by lia. apply HP; [done|].
        destruct (decide (ravel shape index2 = ravel shape index)) as [Hr|Hr]; [|lia].
        by rewrite (ravel_inj _ _ _ Hv2 Hv Hr) in Hne.
    + intros q Hq. rewrite list_lookup_insert_ne by (apply Hq; done). by apply HF.
  - apply in_view_zeros.
  - rewrite ravel_zeros. lia.
  - lia.
  - rewrite ravel_zeros. split; [done|]. split; [|done].
    intros index Hv. pose proof (ravel_bounds _ _ Hv). lia.
  - exists r. split; [done|]. split; [done|]. split; [|done].
    intros index Hv. apply HP; [done|]. pose proof (ravel_bounds _ _ Hv). lia.
Qed.

(** The round trip on a view with at least one dimension. *)
Lemma roundtrip_restores {T : Type} (src c0 dst : list T)
    (shape strides : list Z) (offset : Z) :
  view_ok src shape strides offset ->
  volume shape <= size c0 ->
  size c0 <= SIZE_MOD ->
  size dst = size src ->
  forall fuel : nat,
    volume shape <= Z.of_nat fuel ->
    exists c r,
      Compact fuel src c0 shape strides offset = Ret c
      /\ EwiseSetitem fuel c dst shape strides offset = Ret r
      /\ length r = length dst
      /\ (forall index : list Z,
             in_view shape index ->
             r !! Z.to_nat (view_pos offset strides index)
             = src !! Z.to_nat (view_pos offset strides index))
      /\ (forall q : nat,
             (forall index : list Z,
                 in_view shape index -> Z.to_nat (view_pos offset strides index) <> q) ->
             r !! q = dst !! q).
Proof.
  intros Hok Hc0 Hc0s Hdst fuel Hfuel.
  destruct (Compact_row_major src c0 shape strides offset Hok Hc0 Hc0s fuel Hfuel)
    as (c & Ec & HLc & HPc & _).
  destruct (EwiseSetitem_of_compact src c dst shape strides offset Hok Hdst) with (fuel := fuel)
    as (r & Er & Hr); try done.
  - unfold size in *. rewrite HLc. lia.
  - unfold size in *. rewrite HLc. lia.
  - exists c, r. auto.
Qed.

(** The traversal of a view with at least one dimension visits as many
    positions as the view has multi-indices. *)
Lemma visit_count_volume (shape strides : list Z) (offset : Z) :
  1 <= size shape <= INT_MAX ->
  Forall (fun s => s <= INT_MAX) shape ->
  strides_fit shape strides ->
  0 <= offset < SIZE_MOD ->
  volume shape <= SIZE_MOD ->
  forall fuel : nat,
    volume shape <= Z.of_nat fuel ->
    visit_count fuel shape strides offset = Ret (volume shape).
Proof.
  intros Hn Hmax Hfit Ho HV fuel Hfuel.
  pose proof (volume_pos shape).
  unfold visit_count.
  destruct (strided_loop_inv (fun _ _ n => Ret (n + 1)) (fun c n => n = c)
    shape strides offset Hn Hmax Hfit Ho HV)
    with (k := Z.to_nat (volume shape)) (fuel := fuel)
         (index := replicate (length shape) 0) (s := 0)
    as (r & E & ->); [| | | | |rewrite ravel_zeros in E; done].
  - intros index s Hv ->. eauto.
  - apply in_view_zeros.
  - rewrite ravel_zeros. lia.
  - lia.
  - by rewrite ravel_zeros.
Qed.

(** [ScalarSetitem], called with the number of multi-indices of the view,
    stores the value at every position of the view and nowhere else. *)
Lemma ScalarSetitem_fills {T : Type} (val : T) (out : list T)
    (shape strides : list Z) (offset : Z) :
  view_ok out shape strides offset ->
  exists out',
    ScalarSetitem (volume shape) val out shape strides offset = Ret out'
    /\ length out' = length out
    /\ (forall index : list Z,
           in_view shape index ->
           out' !! Z.to_nat (view_pos offset strides index) = Some val)
    /\ (forall q : nat,
           (forall index : list Z,
               in_view shape index -> Z.to_nat (view_pos offset strides index) <> q) ->
           out' !! q = out !! q).
Proof.
  intros Hok.
  pose proof (view_ok_offset _ _ _ _ Hok) as Ho.
  pose proof Hok as (Hn & Hmax & Hfit & _ & Ha & Hin).
  pose proof (volume_pos shape) as HV.
  unfold ScalarSetitem.
  match goal with
  | |- exists _, bind (for_range 0 _ ?body ?s0) _ = _ /\ _ =>
    destruct (for_range_inv
      (fun k (st : list Z * list T) =>
         in_view shape st.1
         /\ (k < volume shape -> ravel shape st.1 = k)
         /\ length st.2 = length out
         /\ (forall index, in_view shape index -> ravel shape index < k ->
               st.2 !! Z.to_nat (view_pos offset strides index) = Some val)
         /\ (forall q : nat,
               (forall index, in_view shape index ->
                              Z.to_nat (view_pos offset strides index) <> q) ->
               st.2 !! q = out !! q))
      body 0 (volume shape) s0 ltac:(lia)) as (st & E & Hv & _ & HL & HP & HF)
  end.
  - simpl. split; [apply in_view_zeros|]. split; [intros _; apply ravel_zeros|].
    split; [done|]. split; [|done].
    intros index Hv. pose proof (ravel_bounds _ _ Hv). lia.
  - intros k [index o] Hk (Hv & Hr & HL & HP & HF). simpl in *.
    specialize (Hr ltac:(lia)).
    rewrite position_lin by done. cbn [bind].
    rewrite (view_ok_wrap _ _ _ _ _ Hok Hv).
    specialize (Hin _ Hv) as Hp.
    rewrite write_in by (unfold size in *; lia). cbn [bind].
    rewrite (carry_noreturn_carry _ _ _ _ (incr shape index)).
    + cbn [bind]. eexists. split; [reflexivity|]. simpl.
      destruct (incr_next _ _ Hv) as [Hv' Hr'].
      pose proof (ravel_bounds _ _ Hv') as Hb'.
      split; [done|]. split.
      { intros Hlt. destruct (incr shape index) as [index' c]; simpl in *.
        destruct c; lia. }
      split; [by rewrite length_insert|]. split.
      * intros index2 Hv2 Hlt. specialize (Hin _ Hv2) as Hp2.
        destruct (decide (view_pos offset strides index2 = view_pos offset strides index))
          as [Heq|Hne].
        -- rewrite Heq. apply list_lookup_insert_eq. unfold size in *. lia.
        -- rewrite list_lookup_insert_ne by lia. apply HP; [done|].
           destruct (decide (ravel shape index2 = ravel shape index)) as [Hr2|Hr2]; [|lia].
           by rewrite (ravel_inj _ _ _ Hv2 Hv Hr2) in Hne.
      * intros q Hq. rewrite list_lookup_insert_ne by (apply Hq; done). by apply HF.
    + rewrite first_dim_rank by done. lia.
    + by apply carry_whole.
  - rewrite E. cbn [bind]. exists st.2. split; [done|]. split; [done|]. split; [|done].
    intros index Hv'. apply HP; [done|]. pose proof (ravel_bounds _ _ Hv'). lia.
Qed.

Lemma ravel_row_major (shape index : list Z) :
  Forall (fun s => 1 <= s) shape -> ravel shape index = row_major shape index.
Proof.
  intros Hpos. revert index.
  induction Hpos as [|s shape Hs Hpos IH]; intros [|i index]; simpl; try done.
  by rewrite IH, volume_product.
Qed.

Lemma in_view_positive (shape index : list Z) :
  Forall (fun s => 1 <= s) shape ->
  Forall2 (fun s i => 0 <= i < s) shape index -> in_view shape index.
Proof.
  intros Hpos Hv. induction Hv as [|s i shape index Hi Hv IH]; [constructor|].
  inversion Hpos; subst. constructor; [unfold extent; lia | by apply IH].
Qed.

(** C8.  Compacting the view with shape [[2,3]], strides [[3,1]] and offset
    [0] of the buffer [[0,1,2,3,4,5]] gives [[0,1,2,3,4,5]], and with the
    strides [[1,2]] of the transposed view it gives [[0,2,4,1,3,5]].
    Generally [Compact] stores the element of the multi-index [index] at
    the place of [index] in row-major order, the last dimension varying
    fastest. *)
Theorem Compact_row_major_order :
  (forall x0 x1 x2 x3 x4 x5 : Z,
      Compact 6 [0; 1; 2; 3; 4; 5] [x0; x1; x2; x3; x4; x5] [2; 3] [3; 1] 0
      = Ret [0; 1; 2; 3; 4; 5])
  /\ (forall x0 x1 x2 x3 x4 x5 : Z,
      Compact 6 [0; 1; 2; 3; 4; 5] [x0; x1; x2; x3; x4; x5] [2; 3] [1; 2] 0
      = Ret [0; 2; 4; 1; 3; 5])
  /\ (forall (T : Type) (a out : list T) (shape strides : list Z) (offset : Z),
      Forall (fun s => 1 <= s) shape ->
      view_ok a shape strides offset ->
      product shape <= size out ->
      size out <= SIZE_MOD ->
      exists out',
        Compact (Z.to_nat (product shape)) a out shape strides offset = Ret out'
        /\ length out' = length out
        /\ (forall index : list Z,
               Forall2 (fun s i => 0 <= i < s) shape index ->
               out' !! Z.to_nat (row_major shape index)
               = a !! Z.to_nat (offset + lin index strides))
        /\ (forall j : nat, product shape <= Z.of_nat j -> out' !! j = out !! j)).
Proof.
  split; [|split].
  - intros. reflexivity.
  - intros. reflexivity.
  - intros T a out shape strides offset Hpos Hok Hout Hsz.
    rewrite <- (volume_product shape Hpos) in *.
    pose proof (volume_pos shape).
    destruct (Compact_row_major a out shape strides offset Hok Hout Hsz
                (Z.to_nat (volume shape))) as (out' & E & HL & HP & HF); [lia|].
    exists out'. split; [done|]. split; [done|]. split; [|done].
    intros index Hv. rewrite <- (ravel_row_major shape index Hpos).
    by apply HP, in_view_positive.
Qed.

(** The transposed view of the example is a view of the kind the general
    statement is about. *)
Lemma Compact_row_major_order_witness :
  exists out',
    Compact (Z.to_nat (product [2; 3])) [0; 1; 2; 3; 4; 5] [9; 9; 9; 9; 9; 9; 9]
      [2; 3] [1; 2] 0 = Ret out'
    /\ length out' = 7%nat
    /\ (forall index : list Z,
           Forall2 (fun s i => 0 <= i < s) [2; 3] index ->
           out' !! Z.to_nat (row_major [2; 3] index)
           = [0; 1; 2; 3; 4; 5] !! Z.to_nat (0 + lin index [1; 2]))
    /\ (forall j : nat, product [2; 3] <= Z.of_nat j
                        -> out' !! j = [9; 9; 9; 9; 9; 9; 9] !! j).
Proof.
  apply (proj2 (proj2 Compact_row_major_order) Z [0; 1; 2; 3; 4; 5] [9; 9; 9; 9; 9; 9; 9]
           [2; 3] [1; 2] 0).
  - repeat constructor; lia.
  - unfold view_ok. split; [vm_compute; split; discriminate|].
    split; [repeat constructor; vm_compute; discriminate|].
    split; [repeat constructor; vm_compute; discriminate|].
    split; [lia|]. split; [vm_compute; discriminate|].
    intros index Hv.
    inversion Hv as [|? i ? ? Hi Hv1]; subst.
    inversion Hv1 as [|? j ? ? Hj Hv2]; subst. inversion Hv2; subst.
    unfold view_pos, extent, size in *. simpl in *. lia.
  - vm_compute. discriminate.
  - vm_compute. discriminate.
Defined.

(** C2.  A shape without a dimension is not run through at all: the carry
    loop, the only place with a [return], is not entered, so [Compact] and
    [EwiseSetitem] never return, whatever the fuel, where the view has
    exactly one element.  A dimension of extent zero is counted as one: the
    view of shape [[0]] has no element and one position is visited.
    [ScalarSetitem], whose loop is bounded by [size], does visit the one
    element of a view without a dimension and returns. *)
Theorem traversal_rank0_never_returns :
  product [] = 1
  /\ (forall (fuel : nat) (strides : list Z) (offset n : Z),
        visit_count fuel [] strides offset <> Ret n)
  /\ (forall (T : Type) (fuel : nat) (a out : list T) (strides : list Z) (offset : Z)
             (r : list T),
        Compact fuel a out [] strides offset <> Ret r
        /\ EwiseSetitem fuel a out [] strides offset <> Ret r)
  /\ (product [0] = 0 /\ forall fuel : nat, visit_count (S fuel) [0] [1] 0 = Ret 1)
  /\ (forall v x : Z, ScalarSetitem (product []) v [x] [] [] 0 = Ret [v]).
Proof.
  split; [reflexivity|]. split; [|split; [|split]].
  - intros fuel strides offset n. apply strided_loop_rank0.
  - intros T fuel a out strides offset r. split; apply strided_loop_rank0.
  - split; [reflexivity|]. intros fuel. reflexivity.
  - intros v x. reflexivity.
Qed.

(** A view without a dimension over a one-element buffer: the first pass
    of the loop of [Compact] copies the element, no [return] is reached,
    and the second pass writes behind the one-element destination.  On the
    empty view of shape [[0]] over an empty buffer [Compact] reads
    [a.ptr[0]]. *)
Lemma roundtrip_rank0_fails :
  (forall (fuel : nat) (x y : Z), Compact (S (S fuel)) [x] [y] [] [] 0 = UB)
  /\ (forall (fuel : nat) (x y : Z) (c : list Z), Compact fuel [x] [y] [] [] 0 <> Ret c)
  /\ (forall fuel : nat, Compact (S fuel) (@nil Z) [] [0] [1] 0 = UB).
Proof.
  split; [|split].
  - intros fuel x y. reflexivity.
  - intros fuel x y c. apply strided_loop_rank0.
  - intros fuel. reflexivity.
Qed.

(** C1 (amended by the views the traversal can run through).  For a view
    with at least one dimension, positive extents, positions inside the
    buffer and index products within [int32_t], compacting the view and
    scattering the result back with the same shape, strides and offset
    into a buffer of the same size puts every element of the view back at
    its position, and leaves every other element of that buffer alone. *)
Theorem roundtrip_reproduces_view {T : Type} (src c0 dst : list T)
    (shape strides : list Z) (offset : Z) :
  Forall (fun s => 1 <= s) shape ->
  view_ok src shape strides offset ->
  product shape <= size c0 ->
  size c0 <= SIZE_MOD ->
  size dst = size src ->
  exists c r,
    Compact (Z.to_nat (product shape)) src c0 shape strides offset = Ret c
    /\ EwiseSetitem (Z.to_nat (product shape)) c dst shape strides offset = Ret r
    /\ length r = length dst
    /\ (forall index : list Z,
           Forall2 (fun s i => 0 <= i < s) shape index ->
           r !! Z.to_nat (offset + lin index strides)
           = src !! Z.to_nat (offset + lin index strides))
    /\ (forall q : nat,
           (forall index : list Z,
               Forall2 (fun s i => 0 <= i < s) shape index ->
               Z.to_nat (offset + lin index strides) <> q) ->
           r !! q = dst !! q).
Proof.
  intros Hpos Hok Hc0 Hc0s Hdst.
  rewrite <- (volume_product shape Hpos) in *.
  pose proof (volume_pos shape).
  destruct (roundtrip_restores src c0 dst shape strides offset Hok Hc0 Hc0s Hdst
              (Z.to_nat (volume shape))) as (c & r & Ec & Er & HL & HP & HF); [lia|].
  exists c, r. split; [done|]. split; [done|]. split; [done|]. split.
  - intros index Hv. by apply HP, in_view_positive.
  - intros q Hq. apply HF. intros index Hv. apply Hq.
    clear - Hpos Hv. revert index Hv.
    induction Hpos as [|s shape Hs Hpos IH]; intros index Hv.
    + inversion Hv. constructor.
    + inversion Hv as [|? i ? index' Hi Hv']; subst.
      constructor; [unfold extent in Hi; lia | by apply IH].
Qed.

Lemma view_ok_transposed (a : list Z) :
  size a = 6 -> view_ok a [2; 3] [1; 2] 0.
Proof.
  intros Ha. unfold view_ok. split; [vm_compute; split; discriminate|].
  split; [repeat constructor; vm_compute; discriminate|].
  split; [repeat constructor; vm_compute; discriminate|].
  split; [lia|]. split; [rewrite Ha; vm_compute; discriminate|].
  intros index Hv.
  inversion Hv as [|? i ? ? Hi Hv1]; subst.
  inversion Hv1 as [|? j ? ? Hj Hv2]; subst. inversion Hv2; subst.
  rewrite Ha. unfold view_pos, extent in *. simpl in *. lia.
Qed.

(** The transposed view of a 2 by 3 matrix, compacted and scattered back
    into a zeroed buffer. *)
Lemma roundtrip_reproduces_view_witness :
  Compact 6 [0; 1; 2; 3; 4; 5] [0; 0; 0; 0; 0; 0] [2; 3] [1; 2] 0 = Ret [0; 2; 4; 1; 3; 5]
  /\ EwiseSetitem 6 [0; 2; 4; 1; 3; 5] [0; 0; 0; 0; 0; 0] [2; 3] [1; 2] 0
     = Ret [0; 1; 2; 3; 4; 5]
  /\ exists c r,
       Compact (Z.to_nat (product [2; 3])) [0; 1; 2; 3; 4; 5] [0; 0; 0; 0; 0; 0]
         [2; 3] [1; 2] 0 = Ret c
       /\ EwiseSetitem (Z.to_nat (product [2; 3])) c [0; 0; 0; 0; 0; 0] [2; 3] [1; 2] 0
          = Ret r
       /\ length r = 6%nat.
Proof.
  split; [reflexivity|]. split; [reflexivity|].
  destruct (roundtrip_reproduces_view [0; 1; 2; 3; 4; 5] [0; 0; 0; 0; 0; 0]
              [0; 0; 0; 0; 0; 0] [2; 3] [1; 2] 0) as (c & r & Ec & Er & HL & _).
  - repeat constructor; lia.
  - apply view_ok_transposed. reflexivity.
  - vm_compute. discriminate.
  - vm_compute. discriminate.
  - reflexivity.
  - exists c, r. auto.
Defined.

(** Three elements at a stride of 2^30: the third product leaves
    [int32_t]. *)
Lemma Compact_stride_overflow {T : Type} (a : list T) (v0 v1 w0 w1 w2 : T) :
  read a 0 = Ret v0 -> read a 1073741824 = Ret v1 ->
  Compact 3 a [w0; w1; w2] [3] [1073741824] 0 = UB.
Proof.
  intros E0 E1. unfold Compact. cbn [strided_loop].
  change (position (size [3]) (replicate (length [3]) 0) [1073741824] 0) with (Ret (A:=Z) 0).
  cbn [bind]. rewrite E0. cbn [bind].
  change (write [w0; w1; w2] 0 v0) with (Ret [v0; w1; w2]). cbn [bind].
  change (carry (Z.to_nat (first_dim (size [3]) + 1)) (first_dim (size [3])) [3]
            (replicate (length [3]) 0)) with (Ret (A:=list Z * bool) ([1], false)).
  cbn [bind fst snd].
  change (position (size [3]) [1] [1073741824] 0) with (Ret (A:=Z) 1073741824).
  change (wrap64 (0 + 1)) with 1.
  cbn [bind]. rewrite E1. cbn [bind].
  change (write [v0; w1; w2] 1 v1) with (Ret [v0; v1; w2]). cbn [bind].
  change (carry (Z.to_nat (first_dim (size [3]) + 1)) (first_dim (size [3])) [3] [1])
    with (Ret (A:=list Z * bool) ([2], false)).
  cbn [bind fst snd].
  change (position (size [3]) [2] [1073741824] 0) with (@UB Z).
  reflexivity.
Qed.

(** C1, as stated, at two views: three elements at a stride of 2^30 in a
    buffer of 2^31 + 1 elements, where the index product overflows, and a
    view without a dimension, where [Compact] does not return. *)
Lemma roundtrip_fails_on_wide_stride_and_rank0 :
  (forall index : list Z,
      Forall2 (fun s i => 0 <= i < s) [3] index ->
      0 <= 0 + lin index [1073741824] < size (replicate (Z.to_nat 2147483649) 7))
  /\ Compact 3 (replicate (Z.to_nat 2147483649) 7) [0; 0; 0] [3] [1073741824] 0 = UB
  /\ ~ (exists (fuel : nat) (c : list Z), Compact fuel [7] [0] [] [] 0 = Ret c).
Proof.
  split; [|split].
  - intros index Hv. rewrite size_replicate by lia.
    inversion Hv as [|? i ? ? Hi Hv1]; subst. inversion Hv1; subst. simpl. lia.
  - apply (Compact_stride_overflow _ 7 7); apply read_Some; try lia;
      apply lookup_replicate_2; lia.
  - intros (fuel & c & E). by apply (proj1 (proj2 roundtrip_rank0_fails) fuel 7 0 c).
Qed.

(** ** Matrix multiplication *)

Section MatmulProperties.
Context {T : Type} `{Scalar T}.

Lemma read_get (a : list T) (z : Z) : 0 <= z < size a -> read a z = Ret (get a z).
Proof.
  intros Hz. destruct (read_in a z Hz) as (v & E & L).
  unfold get. by rewrite L.
Qed.

Lemma get_lookup (a : list T) (z : Z) (v : T) : a !! Z.to_nat z = Some v -> get a z = v.
Proof. intros L. unfold get. by rewrite L. Qed.

(** The loop over [k] adds the products to the cell from the left. *)
Lemma accumulate_loop (a b : list T) (ia ib : Z -> Z) (idx : Z) :
  forall (n : nat) (lo : Z) (o : list T) (v0 : T),
    0 <= idx < size o ->
    o !! Z.to_nat idx = Some v0 ->
    (forall k, lo <= k < lo + Z.of_nat n ->
               0 <= ia k < size a /\ 0 <= ib k < size b) ->
    for_loop n lo 1
      (fun k o =>
         let* x := read a (ia k) in
         let* y := read b (ib k) in
         accumulate o idx x y)
      o
    = Ret (<[Z.to_nat idx :=
              sum_lr n lo (fun k => s_mul (get a (ia k)) (get b (ib k))) v0]> o).
Proof.
  induction n as [|n IH]; intros lo o v0 Hidx Lv Hin.
  - simpl. by rewrite list_insert_id.
  - cbn [for_loop sum_lr].
    destruct (Hin lo) as [Ha Hb]; [lia|].
    rewrite (read_get a _ Ha), (read_get b _ Hb). cbn [bind]. unfold accumulate.
    rewrite (read_Some o idx v0) by (done || lia). cbn [bind].
    rewrite write_in by done. cbn [bind].
    rewrite (IH (lo + 1) _ (s_add v0 (s_mul (get a (ia lo)) (get b (ib lo))))).
    + by rewrite list_insert_insert_eq.
    + unfold size in *. rewrite length_insert. lia.
    + apply list_lookup_insert_eq. unfold size in *. lia.
    + intros k Hk. apply Hin. lia.
Qed.

(** [Matmul] stores in every cell the sum it accumulates for that cell,
    when the places of the cells do not wrap. *)
Lemma Matmul_cells (a b out : list T) (m n p : Z) :
  0 <= m -> 0 <= n -> 0 <= p ->
  m * p <= UINT32_MOD ->
  m * p <= size out ->
  (forall i k, 0 <= i < m -> 0 <= k < n -> wrap32 (wrap32 (i * n) + k) < size a) ->
  (forall k j, 0 <= k < n -> 0 <= j < p -> wrap32 (wrap32 (k * p) + j) < size b) ->
  exists out',
    Matmul a b out m n p = Ret out'
    /\ length out' = length out
    /\ (forall i j, 0 <= i < m -> 0 <= j < p ->
          out' !! Z.to_nat (i * p + j) = Some (Matmul_cell a b n p i j))
    /\ (forall q : nat, m * p <= Z.of_nat q -> out' !! q = out !! q).
Proof.
  intros Hm Hn Hp Hmp Hout Ha Hb.
  set (Inv := fun (q : Z) (o : list T) =>
    length o = length out
    /\ (forall i j, 0 <= i -> 0 <= j < p -> i * p + j < q ->
          o !! Z.to_nat (i * p + j) = Some (Matmul_cell a b n p i j))
    /\ (forall q' : nat, q <= Z.of_nat q' -> o !! q' = out !! q')).
  unfold Matmul.
  match goal with
  | |- exists _, for_range 0 m ?body out = _ /\ _ =>
    destruct (for_range_inv (fun i o => Inv (i * p) o) body 0 m out Hm)
      as (out' & E & HL & HP & HF)
  end.
  - split; [done|]. split; [intros; nia | done].
  - intros i o Hi HI.
    match goal with
    | |- exists _, for_range 0 p ?body o = _ /\ _ =>
      destruct (for_range_inv (fun j o => Inv (i * p + j) o) body 0 p o Hp)
        as (o' & E & HI')
    end.
    + by rewrite Z.add_0_r.
    + intros j o1 Hj (HL & HP & HF).
      assert (Hidx : 0 <= i * p + j < m * p) by nia.
      rewrite (wrap32_small (i * p)) by nia.
      rewrite (wrap32_small (i * p + j)) by lia.
      rewrite write_in by (unfold size in *; lia). cbn [bind].
      unfold for_range. rewrite Z.sub_0_r.
      rewrite (accumulate_loop a b
                 (fun k => wrap32 (wrap32 (i * n) + k))
                 (fun k => wrap32 (wrap32 (k * p) + j))
                 (i * p + j) (Z.to_nat n) 0 _ (s_of_int 0)).
      * eexists. split; [reflexivity|].
        rewrite list_insert_insert_eq.
        split; [by rewrite length_insert|]. split.
        -- intros i' j' Hi' Hj' Hlt.
           destruct (decide (i' * p + j' = i * p + j)) as [Heq|Hne].
           ++ assert (i' = i) by nia. subst i'. assert (j' = j) by lia. subst j'.
              apply list_lookup_insert_eq. unfold size in *. lia.
           ++ rewrite list_lookup_insert_ne by nia. apply HP; [done | done | lia].
        -- intros q' Hq'. rewrite list_lookup_insert_ne by lia. apply HF. lia.
      * unfold size in *. rewrite length_insert. lia.
      * apply list_lookup_insert_eq. unfold size in *. lia.
      * intros k Hk. split.
        -- split; [apply Z.mod_pos_bound; unfold UINT32_MOD; lia | apply Ha; lia].
        -- split; [apply Z.mod_pos_bound; unfold UINT32_MOD; lia | apply Hb; lia].
    + exists o'. split; [done|].
      by replace ((i + 1) * p) with (i * p + p) by lia.
  - exists out'. split; [done|]. split; [done|]. split; [|done].
    intros i j Hi Hj. apply HP; [lia | lia | nia].
Qed.

End MatmulProperties.

Section SumProperties.
Context {T : Type} `{Scalar T}.

Lemma sum_lr_ext (f g : Z -> T) :
  forall (n : nat) (lo : Z) (v : T),
    (forall k, lo <= k < lo + Z.of_nat n -> f k = g k) ->
    sum_lr n lo f v = sum_lr n lo g v.
Proof.
  induction n as [|n IH]; intros lo v Hfg; [done|].
  simpl. rewrite (Hfg lo) by lia. apply IH. intros k Hk. apply Hfg. lia.
Qed.

Lemma sum_lr_split (f : Z -> T) :
  forall (n1 n2 : nat) (lo : Z) (v : T),
    sum_lr (n1 + n2) lo f v = sum_lr n2 (lo + Z.of_nat n1) f (sum_lr n1 lo f v).
Proof.
  induction n1 as [|n1 IH]; intros n2 lo v.
  - simpl. by rewrite Z.add_0_r.
  - simpl Nat.add. cbn [sum_lr]. rewrite IH. f_equal. lia.
Qed.

Lemma sum_lr_shift (f : Z -> T) (d : Z) :
  forall (n : nat) (lo : Z) (v : T),
    sum_lr n lo (fun k => f (d + k)) v = sum_lr n (d + lo) f v.
Proof.
  induction n as [|n IH]; intros lo v; [done|].
  cbn [sum_lr]. rewrite IH. f_equal. lia.
Qed.

(** [Fill] on a buffer that an [int] counter can run through. *)
Lemma Fill_all (out : list T) (val : T) :
  size out <= INT_MAX ->
  exists out',
    Fill out val = Ret out'
    /\ length out' = length out
    /\ forall q : nat, (q < length out)%nat -> out' !! q = Some val.
Proof.
  intros Hsz. unfold Fill.
  match goal with
  | |- exists _, for_range 0 _ ?body _ = _ /\ _ =>
    destruct (prefix_loop (fun _ v => v = val) (size out) body out
                (conj (size_nonneg out) (Z.le_refl _))) as (out' & E & HL & HP & _)
  end.
  - intros i o Hi HLo. exists val. split; [|done].
    rewrite !write_in by (unfold size in *; lia). cbn [bind].
    rewrite int32_in by (unfold INT_MIN, INT_MAX in *; lia). done.
  - exists out'. split; [done|]. split; [done|].
    intros q Hq. destruct (HP (Z.of_nat q)) as (v & Hv & ->); [unfold size; lia|].
    by rewrite Nat2Z.id in Hv.
Qed.

(** [Fill] on a longer buffer: the counter overflows. *)
Lemma Fill_overflow (out : list T) (val : T) :
  INT_MAX < size out -> Fill out val = UB.
Proof.
  intros Hsz. unfold Fill, for_range. rewrite Z.sub_0_r.
  assert (Hgen : forall (n : nat) (i : Z) (o : list T),
             0 <= i <= INT_MAX -> i + Z.of_nat n = size o -> INT_MAX < size o ->
             for_loop n i 1
               (fun i o => let* o' := write o i val in let* _ := int32 (i + 1) in Ret o') o
             = UB).
  { induction n as [|n IH]; intros i o Hi Hn Ho; [lia|].
    cbn [for_loop]. rewrite write_in by lia. cbn [bind].
    destruct (Z.eq_dec i INT_MAX) as [->|Hne].
    - by rewrite int32_out by lia.
    - rewrite int32_in by (unfold INT_MIN, INT_MAX in *; lia). cbn [bind].
      apply IH; [lia | | ]; unfold size in *; rewrite length_insert; lia. }
  apply Hgen; [unfold INT_MAX; lia | unfold size; lia | done].
Qed.

(** [AlignedDot] adds to every cell of the destination tile the products of
    its row of the first tile and its column of the second, from the left,
    and touches nothing outside the destination tile. *)
Lemma AlignedDot_tile (a : list T) (a_tile : Z) (b : list T) (b_tile : Z)
    (o : list T) (out_tile : Z) :
  0 <= a_tile -> a_tile + TILE * TILE <= size a ->
  0 <= b_tile -> b_tile + TILE * TILE <= size b ->
  0 <= out_tile -> out_tile + TILE * TILE <= size o ->
  exists o',
    AlignedDot a a_tile b b_tile o out_tile = Ret o'
    /\ length o' = length o
    /\ (forall ii jj, 0 <= ii < TILE -> 0 <= jj < TILE ->
          o' !! Z.to_nat (out_tile + (ii * TILE + jj))
          = Some (sum_lr (Z.to_nat TILE) 0
                    (fun kk => s_mul (get a (a_tile + (ii * TILE + kk)))
                                     (get b (b_tile + (kk * TILE + jj))))
                    (get o (out_tile + (ii * TILE + jj)))))
    /\ (forall q : nat,
          Z.of_nat q < out_tile \/ out_tile + TILE * TILE <= Z.of_nat q ->
          o' !! q = o !! q).
Proof.
  intros Ha0 Ha1 Hb0 Hb1 Ho0 Ho1. unfold TILE in *.
  set (cell := fun ii jj =>
    sum_lr (Z.to_nat 8) 0
      (fun kk => s_mul (get a (a_tile + (ii * 8 + kk))) (get b (b_tile + (kk * 8 + jj))))
      (get o (out_tile + (ii * 8 + jj)))).
  set (Inv := fun (t : Z) (o1 : list T) =>
    length o1 = length o
    /\ (forall ii jj, 0 <= ii -> 0 <= jj < 8 -> ii * 8 + jj < t ->
          o1 !! Z.to_nat (out_tile + (ii * 8 + jj)) = Some (cell ii jj))
    /\ (forall q : nat, Z.of_nat q < out_tile \/ out_tile + t <= Z.of_nat q ->
          o1 !! q = o !! q)).
  unfold AlignedDot, TILE.
  match goal with
  | |- exists _, for_range 0 8 ?body o = _ /\ _ =>
    destruct (for_range_inv (fun ii o1 => Inv (ii * 8) o1) body 0 8 o ltac:(lia))
      as (o' & E & HL & HP & HF)
  end.
  - split; [done|]. split; [intros; lia | done].
  - intros ii o1 Hii HI.
    match goal with
    | |- exists _, for_range 0 8 ?body o1 = _ /\ _ =>
      destruct (for_range_inv (fun jj o2 => Inv (ii * 8 + jj) o2) body 0 8 o1 ltac:(lia))
        as (o2 & E & HI')
    end.
    + by rewrite Z.add_0_r.
    + intros jj o2 Hjj (HL & HP & HF).
      unfold for_range. rewrite Z.sub_0_r.
      rewrite (accumulate_loop a b
                 (fun kk => a_tile + (ii * 8 + kk))
                 (fun kk => b_tile + (kk * 8 + jj))
                 (out_tile + (ii * 8 + jj)) (Z.to_nat 8) 0 _
                 (get o (out_tile + (ii * 8 + jj)))).
      * eexists. split; [reflexivity|].
        split; [by rewrite length_insert|]. split.
        -- intros ii' jj' Hii' Hjj' Hlt.
           destruct (decide (ii' * 8 + jj' = ii * 8 + jj)) as [Heq|Hne].
           ++ assert (ii' = ii) by lia. subst ii'. assert (jj' = jj) by lia. subst jj'.
              apply list_lookup_insert_eq. unfold size in *. lia.
           ++ rewrite list_lookup_insert_ne by lia. apply HP; [done | done | lia].
        -- intros q Hq. rewrite list_lookup_insert_ne by lia. apply HF. lia.
      * unfold size in *. lia.
      * rewrite HF by lia. unfold get.
        destruct (lookup_lt_is_Some_2 o (Z.to_nat (out_tile + (ii * 8 + jj)))) as [v Hv];
          [unfold size in *; lia|].
        by rewrite Hv.
      * intros kk Hkk. lia.
    + exists o2. split; [done|].
      by replace ((ii + 1) * 8) with (ii * 8 + 8) by lia.
  - exists o'. split; [done|]. split; [done|]. split.
    + intros ii jj Hii Hjj. apply HP; lia.
    + intros q Hq. apply HF. lia.
Qed.

End SumProperties.

(** A loop with a step, by the number of the iteration. *)
Lemma for_loop_iter_inv {St : Type} (Inv : Z -> St -> Prop) (body : Z -> St -> res St)
    (step : Z) :
  forall (n : nat) (i : Z) (s : St) (j : Z),
    Inv j s ->
    (forall (k : Z) (s0 : St),
        0 <= k < Z.of_nat n -> Inv (j + k) s0 ->
        exists s1, body (i + k * step) s0 = Ret s1 /\ Inv (j + k + 1) s1) ->
    exists s', for_loop n i step body s = Ret s' /\ Inv (j + Z.of_nat n) s'.
Proof.
  induction n as [|n IH]; intros i s j Hs Hbody.
  - exists s. split; [done|]. by rewrite Z.add_0_r.
  - destruct (Hbody 0 s) as (s1 & E1 & H1); [lia | by rewrite Z.add_0_r |].
    rewrite Z.add_0_r in H1. replace (i + 0 * step) with i in E1 by lia.
    destruct (IH (i + step) s1 (j + 1) H1) as (s' & E' & H').
    + intros k s0 Hk Hs0.
      destruct (Hbody (k + 1) s0) as (s2 & E2 & H2);
        [lia | by replace (j + (k + 1)) with (j + 1 + k) by lia |].
      exists s2. replace (i + step + k * step) with (i + (k + 1) * step) by lia.
      split; [done|]. by replace (j + 1 + k + 1) with (j + (k + 1) + 1) by lia.
    + exists s'. cbn [for_loop]. rewrite E1. cbn [bind]. split; [done|].
      by replace (j + Z.of_nat (S n)) with (j + 1 + Z.of_nat n) by lia.
Qed.

Lemma tile_steps_multiple (M : Z) : 0 <= M -> tile_steps (TILE * M) = Z.to_nat M.
Proof.
  intros HM. unfold tile_steps, TILE. f_equal.
  replace (8 * M + (8 - 1)) with (M * 8 + 7) by lia.
  rewrite Z.div_add_l by lia. change (7 / 8) with 0. lia.
Qed.

Lemma tile_div (K kk : Z) : 0 <= kk < TILE -> (TILE * K + kk) / TILE = K.
Proof. unfold TILE. intros. symmetry. apply (Z.div_unique _ _ K kk); lia. Qed.

Lemma tile_mod (K kk : Z) : 0 <= kk < TILE -> (TILE * K + kk) mod TILE = kk.
Proof. unfold TILE. intros. symmetry. apply (Z.mod_unique _ _ K kk); lia. Qed.

Section TiledProperties.
Context {T : Type} `{Scalar T}.

(** [MatmulTiled] on buffers of [M] by [N], [N] by [P] and [M] by [P] tiles:
    every cell of every output tile holds the products of its row and its
    column, over the whole contraction dimension, added from the left to
    zero. *)
Lemma MatmulTiled_tiles (a b out : list T) (M N P : Z) :
  0 <= M -> 0 <= N -> 0 <= P ->
  TILE * TILE * (M * N) <= size a -> size a <= SIZE_MOD ->
  TILE * TILE * (N * P) <= size b -> size b <= SIZE_MOD ->
  TILE * TILE * (M * P) <= size out -> size out <= INT_MAX ->
  exists out',
    MatmulTiled a b out (TILE * M) (TILE * N) (TILE * P) = Ret out'
    /\ length out' = length out
    /\ (forall I J ii jj,
          0 <= I < M -> 0 <= J < P -> 0 <= ii < TILE -> 0 <= jj < TILE ->
          out' !! Z.to_nat ((I * P + J) * (TILE * TILE) + (ii * TILE + jj))
          = Some (sum_lr (Z.to_nat (TILE * N)) 0 (tile_term a b N P I J ii jj) (s_of_int 0)))
    /\ (forall q : nat,
          TILE * TILE * (M * P) <= Z.of_nat q -> (q < length out)%nat ->
          out' !! q = Some (s_of_int 0)).
Proof.
  intros HM HN HP Ha Has Hb Hbs Hout Houts.
  unfold MatmulTiled.
  destruct (Fill_all out (s_of_int 0) Houts) as (out0 & E0 & HL0 & HZ0).
  rewrite E0. cbn [bind].
  rewrite !tile_steps_multiple by done.
  set (final := fun I J ii jj =>
    sum_lr (Z.to_nat (TILE * N)) 0 (tile_term a b N P I J ii jj) (s_of_int 0)).
  set (Inv := fun (t : Z) (o : list T) =>
    length o = length out
    /\ (forall I J ii jj, 0 <= I -> 0 <= J < P -> 0 <= ii < TILE -> 0 <= jj < TILE ->
          I * P + J < t ->
          o !! Z.to_nat ((I * P + J) * (TILE * TILE) + (ii * TILE + jj))
          = Some (final I J ii jj))
    /\ (forall q : nat, TILE * TILE * t <= Z.of_nat q -> (q < length out)%nat ->
          o !! q = Some (s_of_int 0))).
  match goal with
  | |- exists _, for_loop _ 0 TILE ?body out0 = _ /\ _ =>
    destruct (for_loop_iter_inv (fun I o => Inv (I * P) o) body TILE (Z.to_nat M) 0 out0 0)
      as (out' & E & HL & HP' & HZ)
  end.
  - split; [lia|]. split; [intros; nia|]. intros q _ Hq. by apply HZ0.
  - intros I o HI HInv. rewrite Z.add_0_l in HInv |- *.
    match goal with
    | |- exists _, for_loop _ 0 TILE ?body o = _ /\ _ =>
      destruct (for_loop_iter_inv (fun J o1 => Inv (I * P + J) o1) body TILE
                  (Z.to_nat P) 0 o 0) as (o' & E & HInv')
    end.
    + by rewrite Z.add_0_r.
    + intros J o1 HJ (HL & HF & HZ). rewrite Z.add_0_l in *.
      (* the loop over the contraction tiles *)
      set (base := (I * P + J) * (TILE * TILE)).
      assert (Hbase : 0 <= base /\ base + TILE * TILE <= size out).
      { unfold base, TILE in *. nia. }
      match goal with
      | |- exists _, for_loop _ 0 TILE ?body o1 = _ /\ _ =>
        destruct (for_loop_iter_inv
          (fun K o2 =>
             length o2 = length out
             /\ (forall ii jj, 0 <= ii < TILE -> 0 <= jj < TILE ->
                   o2 !! Z.to_nat (base + (ii * TILE + jj))
                   = Some (sum_lr (Z.to_nat (TILE * K)) 0 (tile_term a b N P I J ii jj)
                             (s_of_int 0)))
             /\ (forall q : nat, Z.of_nat q < base \/ base + TILE * TILE <= Z.of_nat q ->
                   o2 !! q = o1 !! q))
          body TILE (Z.to_nat N) 0 o1 0) as (o2 & E & HL2 & HC2 & HO2)
      end.
      * split; [done|]. split; [|done].
        intros ii jj Hii Hjj. rewrite Z.mul_0_r. simpl sum_lr.
        apply HZ; unfold base, size, TILE in *; nia.
      * intros K o2 HK (HL2 & HC2 & HO2). rewrite !Z.add_0_l in *.
        assert (E1 : wrap64 (wrap64 ((I * TILE) * (TILE * N)) + wrap64 ((K * TILE) * TILE))
                     = (I * N + K) * (TILE * TILE)).
        { unfold TILE in *.
          rewrite (wrap64_small ((I * 8) * (8 * N))) by nia.
          rewrite (wrap64_small ((K * 8) * 8)) by nia.
          rewrite wrap64_small by nia. lia. }
        assert (E2 : wrap64 (wrap64 ((K * TILE) * (TILE * P)) + wrap64 ((J * TILE) * TILE))
                     = (K * P + J) * (TILE * TILE)).
        { unfold TILE in *.
          rewrite (wrap64_small ((K * 8) * (8 * P))) by nia.
          rewrite (wrap64_small ((J * 8) * 8)) by nia.
          rewrite wrap64_small by nia. lia. }
        assert (E3 : wrap64 (wrap64 ((I * TILE) * (TILE * P)) + wrap64 ((J * TILE) * TILE))
                     = base).
        { unfold base, TILE, INT_MAX in *.
          rewrite (wrap64_small ((I * 8) * (8 * P))) by (unfold SIZE_MOD; nia).
          rewrite (wrap64_small ((J * 8) * 8)) by (unfold SIZE_MOD; nia).
          rewrite wrap64_small by (unfold SIZE_MOD; nia). lia. }
        rewrite E1, E2, E3.
        destruct (AlignedDot_tile a ((I * N + K) * (TILE * TILE))
                    b ((K * P + J) * (TILE * TILE)) o2 base)
          as (o3 & E & HL3 & HC3 & HO3);
          try (unfold TILE, size in *; nia).
        exists o3. split; [done|]. split; [lia|]. split.
        -- intros ii jj Hii Hjj. rewrite (HC3 ii jj Hii Hjj).
           f_equal.
           rewrite (get_lookup o2 _ _ (HC2 ii jj Hii Hjj)).
           replace (Z.to_nat (TILE * (K + 1))) with (Z.to_nat (TILE * K) + Z.to_nat TILE)%nat
             by (unfold TILE; lia).
           rewrite sum_lr_split. rewrite Z.add_0_l.
           replace (Z.of_nat (Z.to_nat (TILE * K))) with (TILE * K + 0) by (unfold TILE; lia).
           rewrite <- (sum_lr_shift (tile_term a b N P I J ii jj) (TILE * K)).
           apply sum_lr_ext. intros kk Hkk.
           unfold tile_term. rewrite tile_div, tile_mod by (unfold TILE in *; lia).
           f_equal; f_equal; unfold TILE; lia.
        -- intros q Hq. rewrite HO3 by done. by apply HO2.
      * exists o2. split; [done|]. split; [done|]. split.
        -- intros I' J' ii jj HI' HJ' Hii Hjj Hlt.
           destruct (decide (I' * P + J' = I * P + J)) as [Heq|Hne].
           ++ assert (I' = I) by nia. subst I'. assert (J' = J) by lia. subst J'.
              rewrite Z.add_0_l in HC2. rewrite Z2Nat.id in HC2 by lia.
              by apply HC2.
           ++ rewrite HO2 by (unfold base, TILE in *; nia).
              apply HF; try done. lia.
        -- intros q Hq Hlen. rewrite HO2 by (unfold base, TILE in *; nia).
           apply HZ; [unfold TILE in *; lia | done].
    + exists o'. split; [done|]. rewrite Z.add_0_l, Z2Nat.id in HInv' by lia.
      by replace ((0 + I + 1) * P) with (I * P + P) by lia.
  - rewrite Z.add_0_l, Z2Nat.id in HP', HZ by lia.
    exists out'. split; [done|]. split; [done|]. split.
    + intros I J ii jj HI HJ Hii Hjj. apply HP'; try lia. nia.
    + intros q Hq Hlen. apply HZ; [lia | done].
Qed.

End TiledProperties.

Section ProductProperties.
Context {T : Type} `{Scalar T}.

Lemma Matmul_cell_entry (a b : list T) (m n p i j : Z) :
  0 <= i < m -> 0 <= j < p -> 0 <= n ->
  m * n <= UINT32_MOD -> n * p <= UINT32_MOD ->
  Matmul_cell a b n p i j = mat_entry (get a) (get b) n p i j.
Proof.
  intros Hi Hj Hn Hmn Hnp. unfold Matmul_cell, mat_entry.
  apply sum_lr_ext. intros k Hk.
  rewrite (wrap32_small (i * n)) by nia.
  rewrite (wrap32_small (i * n + k)) by nia.
  rewrite (wrap32_small (k * p)) by nia.
  rewrite (wrap32_small (k * p + j)) by nia.
  done.
Qed.

(** The naive product on matrices whose places fit the 32-bit index
    arithmetic. *)
Lemma Matmul_entries (a b out : list T) (m n p : Z) :
  0 <= m -> 0 <= n -> 0 <= p ->
  size a = m * n -> size b = n * p -> m * p <= size out ->
  m * n <= UINT32_MOD -> n * p <= UINT32_MOD -> m * p <= UINT32_MOD ->
  exists out',
    Matmul a b out m n p = Ret out'
    /\ length out' = length out
    /\ (forall i j, 0 <= i < m -> 0 <= j < p ->
          out' !! Z.to_nat (i * p + j) = Some (mat_entry (get a) (get b) n p i j))
    /\ (forall q : nat, m * p <= Z.of_nat q -> out' !! q = out !! q).
Proof.
  intros Hm Hn Hp Ha Hb Hout Hmn Hnp Hmp.
  destruct (Matmul_cells a b out m n p Hm Hn Hp Hmp Hout) as (out' & E & HL & HC & HF).
  - intros i k Hi Hk. rewrite (wrap32_small (i * n)) by nia.
    rewrite wrap32_small by nia. nia.
  - intros k j Hk Hj. rewrite (wrap32_small (k * p)) by nia.
    rewrite wrap32_small by nia. nia.
  - exists out'. split; [done|]. split; [done|]. split; [|done].
    intros i j Hi Hj. rewrite (HC i j Hi Hj). f_equal.
    by apply (Matmul_cell_entry a b m).
Qed.

Lemma place_split (q p m : Z) :
  0 <= q < m * p -> 0 < p ->
  q = q / p * p + q mod p /\ 0 <= q / p < m /\ 0 <= q mod p < p.
Proof.
  intros Hq Hp. pose proof (Z.div_mod q p ltac:(lia)) as E.
  pose proof (Z.mod_pos_bound q p Hp). split; [lia|]. split; [|done].
  split; [apply Z.div_pos; lia | apply Z.div_lt_upper_bound; lia].
Qed.

(** C4 (amended by the range of the index arithmetic).  For matrices of at
    most 2^32 elements, [Matmul] stores in every cell [(i, j)] the sum of
    the products [a[i,k] * b[k,j]], added from the left to a zero the cell
    is first set to; the returned buffer does not depend on what the
    destination held. *)
Theorem Matmul_naive_product (a b out : list T) (m n p : Z) :
  0 <= m -> 0 <= n -> 0 <= p ->
  size a = m * n -> size b = n * p -> size out = m * p ->
  m * n <= UINT32_MOD -> n * p <= UINT32_MOD -> m * p <= UINT32_MOD ->
  exists out',
    Matmul a b out m n p = Ret out'
    /\ length out' = length out
    /\ (forall i j, 0 <= i < m -> 0 <= j < p ->
          out' !! Z.to_nat (i * p + j)
          = Some (sum_lr (Z.to_nat n) 0
                    (fun k => s_mul (get a (i * n + k)) (get b (k * p + j)))
                    (s_of_int 0)))
    /\ (forall out2 : list T, size out2 = m * p -> Matmul a b out2 m n p = Ret out').
Proof.
  intros Hm Hn Hp Ha Hb Hout Hmn Hnp Hmp.
  destruct (Matmul_entries a b out m n p) as (out' & E & HL & HC & _); try done; [lia|].
  exists out'. split; [done|]. split; [done|]. split; [exact HC|].
  intros out2 Hout2.
  destruct (Matmul_entries a b out2 m n p) as (out2' & E2 & HL2 & HC2 & _); try done; [lia|].
  rewrite E2. f_equal. apply list_eq. intros q.
  destruct (Z.lt_ge_cases (Z.of_nat q) (m * p)) as [Hq|Hq].
  - assert (0 < p) by nia.
    destruct (place_split (Z.of_nat q) p m) as (Eq & Hi & Hj); [lia | done |].
    rewrite <- (Nat2Z.id q). rewrite Eq.
    by rewrite (HC _ _ Hi Hj), (HC2 _ _ Hi Hj).
  - rewrite !(proj2 (lookup_ge_None _ _)); [done | |]; unfold size in *; lia.
Qed.

End ProductProperties.

(** A product of a 2 by 2 and a 2 by 3 matrix. *)
Lemma Matmul_naive_product_witness :
  exists out',
    Matmul [1; 2; 3; 4] [1; 0; 2; 0; 1; 3] [9; 9; 9; 9; 9; 9] 2 2 3 = Ret out'
    /\ length out' = 6%nat
    /\ (forall i j, 0 <= i < 2 -> 0 <= j < 3 ->
          out' !! Z.to_nat (i * 3 + j)
          = Some (sum_lr (Z.to_nat 2) 0
                    (fun k => s_mul (get [1; 2; 3; 4] (i * 2 + k))
                                    (get [1; 0; 2; 0; 1; 3] (k * 3 + j)))
                    (s_of_int 0)))
    /\ (forall out2 : list Z,
          size out2 = 2 * 3
          -> Matmul [1; 2; 3; 4] [1; 0; 2; 0; 1; 3] out2 2 2 3 = Ret out').
Proof.
  apply (Matmul_naive_product [1; 2; 3; 4] [1; 0; 2; 0; 1; 3] [9; 9; 9; 9; 9; 9] 2 2 3);
    try reflexivity; try lia; vm_compute; discriminate.
Defined.

Lemma length_cons_S {A : Type} (x : A) (l : list A) : length (x :: l) = S (length l).
Proof. reflexivity. Qed.

Lemma size_wide_b : size wide_b = 2 * wide_p.
Proof.
  unfold size, wide_b, wide_p. rewrite length_app, length_replicate.
  rewrite length_cons_S.
  rewrite length_replicate. lia.
Qed.

Lemma get_wide_b_low (z : Z) : 0 <= z < 4294967296 -> get wide_b z = 0.
Proof.
  intros Hz. unfold get, wide_b.
  rewrite lookup_app_l by (rewrite length_replicate; lia).
  rewrite lookup_replicate_2 by lia. reflexivity.
Qed.

Lemma get_wide_b_one : get wide_b 4294967296 = 1.
Proof.
  unfold get, wide_b.
  rewrite lookup_app_r by (rewrite length_replicate; lia).
  rewrite length_replicate, Nat.sub_diag. reflexivity.
Qed.

(** C4, as stated, at a matrix of more than 2^32 elements: the place
    [1 * p + 1] of the entry [b[1,1]] wraps to [0], and the cell [(0, 1)]
    of the product, which is [1], is computed as [0]. *)
Lemma Matmul_wraps_on_wide_matrix :
  size [0; 1] = 1 * 2
  /\ size wide_b = 2 * wide_p
  /\ size (replicate (Z.to_nat wide_p) 0) = 1 * wide_p
  /\ (exists out',
        Matmul [0; 1] wide_b (replicate (Z.to_nat wide_p) 0) 1 2 wide_p = Ret out'
        /\ out' !! Z.to_nat (0 * wide_p + 1) = Some 0)
  /\ sum_lr (Z.to_nat 2) 0
       (fun k => s_mul (get [0; 1] (0 * 2 + k)) (get wide_b (k * wide_p + 1)))
       (s_of_int 0) = 1.
Proof.
  split; [reflexivity|]. split; [apply size_wide_b|].
  split; [rewrite size_replicate; unfold wide_p; lia|]. split.
  - destruct (Matmul_cells [0; 1] wide_b (replicate (Z.to_nat wide_p) 0) 1 2 wide_p)
      as (out' & E & _ & HC & _).
    + lia.
    + lia.
    + unfold wide_p. lia.
    + unfold wide_p, UINT32_MOD. lia.
    + rewrite size_replicate; unfold wide_p; lia.
    + intros i k Hi Hk. assert (i = 0) as -> by lia.
      assert (k = 0 \/ k = 1) as [-> | ->] by lia; vm_compute; reflexivity.
    + intros k j Hk Hj. rewrite size_wide_b.
      pose proof (Z.mod_pos_bound (wrap32 (k * wide_p) + j) UINT32_MOD) as Hw.
      unfold wrap32 at 1. unfold wide_p, UINT32_MOD in *. lia.
    + exists out'. split; [exact E|].
      assert (Hcell : Matmul_cell [0; 1] wide_b 2 wide_p 0 1 = 0).
      { unfold Matmul_cell.
        change (Z.to_nat 2) with 2%nat. cbn [sum_lr].
        change (wrap32 (wrap32 (0 * 2) + 0)) with 0.
        change (wrap32 (wrap32 (0 * wide_p) + 1)) with 1.
        change (wrap32 (wrap32 (0 * 2) + (0 + 1))) with 1.
        change (wrap32 (wrap32 ((0 + 1) * wide_p) + 1)) with 0.
        rewrite !get_wide_b_low by lia. reflexivity. }
      rewrite (HC 0 1) by (unfold wide_p; lia).
      by rewrite Hcell.
  - change (Z.to_nat 2) with 2%nat. cbn [sum_lr].
    change (0 * wide_p + 1) with 1.
    change ((0 + 1) * wide_p + 1) with 4294967296.
    rewrite get_wide_b_low by lia. rewrite get_wide_b_one. reflexivity.
Qed.

Lemma tiled_place (P r c : Z) :
  tiled (TILE * P) r c
  = (r / TILE * P + c / TILE) * (TILE * TILE) + (r mod TILE * TILE + c mod TILE).
Proof.
  unfold tiled. rewrite (Z.mul_comm TILE P), Z.div_mul by (unfold TILE; lia). lia.
Qed.

Lemma tile_coordinates (M r : Z) :
  0 <= r < TILE * M -> 0 <= r / TILE < M /\ 0 <= r mod TILE < TILE.
Proof.
  intros Hr. unfold TILE in *. split.
  - split; [apply Z.div_pos; lia | apply Z.div_lt_upper_bound; lia].
  - apply Z.mod_pos_bound. lia.
Qed.

Lemma multiple_of_tile (m : Z) : m mod TILE = 0 -> m = TILE * (m / TILE).
Proof. intros Hm. unfold TILE in *. pose proof (Z.div_mod m 8 ltac:(lia)). lia. Qed.

Section TiledProduct.
Context {T : Type} `{Scalar T}.

Lemma get_tiling (flat t : list T) (rows cols r c : Z) :
  is_tiling flat t rows cols -> 0 <= r < rows -> 0 <= c < cols ->
  get t (tiled cols r c) = get flat (r * cols + c).
Proof. intros [_ Ht] Hr Hc. unfold get. by rewrite Ht. Qed.

(** Below the range of the counter of [Fill]: for [m], [n] and [p]
    multiples of the tile width and an output of at most [INT_MAX]
    elements, [MatmulTiled] on the block-major tilings of [a] and [b]
    returns the block-major tiling of the matrix whose entry [(r, c)] is
    the sum of the products [a[r,k] * b[k,c]], added to zero from left to
    right with the operations of the scalar type. *)
Lemma MatmulTiled_tiles_of_product (a b ta tb out : list T) (m n p : Z) :
  0 <= m -> 0 <= n -> 0 <= p ->
  m mod TILE = 0 -> n mod TILE = 0 -> p mod TILE = 0 ->
  size a = m * n -> size b = n * p -> size out = m * p ->
  is_tiling a ta m n -> is_tiling b tb n p ->
  size a <= SIZE_MOD -> size b <= SIZE_MOD ->
  m * p <= INT_MAX ->
  exists out',
    MatmulTiled ta tb out m n p = Ret out'
    /\ length out' = length out
    /\ (forall r c, 0 <= r < m -> 0 <= c < p ->
          out' !! Z.to_nat (tiled p r c)
          = Some (sum_lr (Z.to_nat n) 0
                    (fun k => s_mul (get a (r * n + k)) (get b (k * p + c)))
                    (s_of_int 0)))
    /\ (m * n <= UINT32_MOD -> n * p <= UINT32_MOD ->
        forall out2 : list T,
          size out2 = m * p ->
          exists flat, Matmul a b out2 m n p = Ret flat /\ is_tiling flat out' m p).
Proof.
  intros Hm Hn Hp Hm8 Hn8 Hp8 Ha Hb Hout Hta Htb Has Hbs Hmp.
  pose proof (multiple_of_tile m Hm8) as Em.
  pose proof (multiple_of_tile n Hn8) as En.
  pose proof (multiple_of_tile p Hp8) as Ep.
  assert (HM : 0 <= m / TILE) by (apply Z.div_pos; unfold TILE; lia).
  assert (HN : 0 <= n / TILE) by (apply Z.div_pos; unfold TILE; lia).
  assert (HP : 0 <= p / TILE) by (apply Z.div_pos; unfold TILE; lia).
  destruct (MatmulTiled_tiles ta tb out (m / TILE) (n / TILE) (p / TILE) HM HN HP)
    as (out' & E & HL & HC & _).
  - destruct Hta as [HLa _]. unfold size in *. rewrite HLa. unfold TILE in *. nia.
  - destruct Hta as [HLa _]. unfold size in *. rewrite HLa. lia.
  - destruct Htb as [HLb _]. unfold size in *. rewrite HLb. unfold TILE in *. nia.
  - destruct Htb as [HLb _]. unfold size in *. rewrite HLb. lia.
  - unfold TILE in *. nia.
  - lia.
  - rewrite <- Em, <- En, <- Ep in E.
    assert (Hcells : forall r c, 0 <= r < m -> 0 <= c < p ->
              out' !! Z.to_nat (tiled p r c)
              = Some (sum_lr (Z.to_nat n) 0
                        (fun k => s_mul (get a (r * n + k)) (get b (k * p + c)))
                        (s_of_int 0))).
    { intros r c Hr Hc.
      destruct (tile_coordinates (m / TILE) r) as [HI Hii]; [lia|].
      destruct (tile_coordinates (p / TILE) c) as [HJ Hjj]; [lia|].
      replace (tiled p r c)
        with ((r / TILE * (p / TILE) + c / TILE) * (TILE * TILE)
              + (r mod TILE * TILE + c mod TILE)) by (unfold tiled; lia).
      rewrite (HC (r / TILE) (c / TILE) (r mod TILE) (c mod TILE)) by done.
      f_equal. rewrite <- En.
      apply sum_lr_ext. intros k Hk.
      rewrite Z.add_0_l, Z2Nat.id in Hk by lia.
      unfold tile_term.
      rewrite <- (get_tiling a ta m n r k Hta) by lia.
      rewrite <- (get_tiling b tb n p k c Htb) by lia.
      unfold tiled. f_equal; f_equal; lia. }
    exists out'. split; [done|]. split; [done|]. split; [exact Hcells|].
    intros Hmn Hnp out2 Hout2.
    destruct (Matmul_entries a b out2 m n p) as (flat & Ef & HLf & HCf & _);
      try done; try lia; [unfold INT_MAX, UINT32_MOD in *; lia|].
    exists flat. split; [done|]. split.
    + unfold size in *. lia.
    + intros r c Hr Hc. rewrite (Hcells r c Hr Hc), (HCf r c Hr Hc). done.
Qed.

End TiledProduct.

(** C3.  With [m], [n] and [p] multiples of the tile width, [MatmulTiled]
    does not produce the tiling of the product when the output has more
    than [INT_MAX] elements, here 65536 by 32776: it starts with [Fill],
    whose counter is an [int] where every other loop over a buffer counts
    in [size_t], and the counter runs past [INT_MAX] before a tile is
    multiplied. *)
Lemma MatmulTiled_overflows_on_large_output :
  65536 mod TILE = 0 /\ 8 mod TILE = 0 /\ 32776 mod TILE = 0
  /\ size (replicate (Z.to_nat (65536 * 32776)) 1) = 65536 * 32776
  /\ MatmulTiled (replicate (Z.to_nat (65536 * 8)) 0) (replicate (Z.to_nat (8 * 32776)) 0)
       (replicate (Z.to_nat (65536 * 32776)) 1) 65536 8 32776 = UB.
Proof.
  split; [reflexivity|]. split; [reflexivity|]. split; [reflexivity|].
  split; [apply size_replicate; lia|].
  unfold MatmulTiled. rewrite Fill_overflow; [reflexivity|].
  rewrite size_replicate by lia. unfold INT_MAX. lia.
Qed.

(** ** Grid sampling *)

Section GridSampleSteps.
Context {T : Type} `{Scalar T} `{Sampling T}.

Lemma weight_bit (d : T) (bit : Z) :
  bit = 0 \/ bit = 1 -> weight d bit = Ret (axis_weight d bit).
Proof. intros [-> | ->]; reflexivity. Qed.

Lemma div32_inv (x y r : Z) : div32 x y = Ret r -> r = Z.quot x y.
Proof.
  unfold div32. destruct (y =? 0); [discriminate|].
  intros E. by apply int32_inv in E as [-> _].
Qed.

Lemma a_index_inv (i hw h2w2 w y x yk xk ptr : Z) :
  a_index i hw h2w2 w y x yk xk = Ret ptr ->
  ptr = Z.quot i hw * h2w2 + (y + yk) * (w + 2) + (x + xk).
Proof.
  unfold a_index. intros E.
  apply bind_Ret in E as (q & Eq & E). apply div32_inv in Eq as ->.
  apply bind_Ret in E as (t1 & E1 & E). apply int32_inv in E1 as [-> _].
  apply bind_Ret in E as (yi & E1 & E). apply int32_inv in E1 as [-> _].
  apply bind_Ret in E as (w2 & E1 & E). apply int32_inv in E1 as [-> _].
  apply bind_Ret in E as (t2 & E1 & E). apply int32_inv in E1 as [-> _].
  apply bind_Ret in E as (t12 & E1 & E). apply int32_inv in E1 as [-> _].
  apply bind_Ret in E as (xi & E1 & E). apply int32_inv in E1 as [-> _].
  by apply int32_inv in E as [-> _].
Qed.

(** One pass of the loop over the neighbours. *)
Lemma sample_neighbour_inv (a : list T) (i hw h2w2 w : Z) (pt : point)
    (k xk yk : Z) (o o' : list T) :
  read xx k = Ret xk -> read yy k = Ret yk ->
  xk = 0 \/ xk = 1 -> yk = 0 \/ yk = 1 ->
  sample_neighbour a i hw h2w2 w pt k o = Ret o' ->
  exists v cur,
    a !! Z.to_nat (Z.quot i hw * h2w2 + (y_ind pt + yk) * (w + 2) + (x_ind pt + xk)) = Some v
    /\ 0 <= Z.quot i hw * h2w2 + (y_ind pt + yk) * (w + 2) + (x_ind pt + xk)
    /\ 0 <= i < size o
    /\ o !! Z.to_nat i = Some cur
    /\ o' = <[Z.to_nat i := s_add cur (contribution v pt xk yk)]> o.
Proof.
  intros Ex Ey Hx Hy E. unfold sample_neighbour in E.
  rewrite Ex, Ey in E. cbn [bind] in E.
  apply bind_Ret in E as (ptr & Ep & E). apply a_index_inv in Ep as ->.
  apply bind_Ret in E as (v & Ev & E). apply read_inv in Ev as [[Hv _] Lv].
  rewrite (weight_bit _ _ Hx), (weight_bit _ _ Hy) in E. cbn [bind] in E.
  apply bind_Ret in E as (cur & Ec & E). apply read_inv in Ec as [Hi Lc].
  apply write_inv in E as [_ ->].
  exists v, cur. done.
Qed.

(** The four passes add the four contributions to [out[i]], one after the
    other. *)
Lemma four_neighbours (a : list T) (i hw h2w2 w : Z) (pt : point) (o o' : list T) :
  for_range 0 4 (sample_neighbour a i hw h2w2 w pt) o = Ret o' ->
  exists a00 a10 a01 a11 cur,
    a !! Z.to_nat (Z.quot i hw * h2w2 + (y_ind pt + 0) * (w + 2) + (x_ind pt + 0)) = Some a00
    /\ a !! Z.to_nat (Z.quot i hw * h2w2 + (y_ind pt + 0) * (w + 2) + (x_ind pt + 1)) = Some a10
    /\ a !! Z.to_nat (Z.quot i hw * h2w2 + (y_ind pt + 1) * (w + 2) + (x_ind pt + 0)) = Some a01
    /\ a !! Z.to_nat (Z.quot i hw * h2w2 + (y_ind pt + 1) * (w + 2) + (x_ind pt + 1)) = Some a11
    /\ 0 <= Z.quot i hw * h2w2 + (y_ind pt + 0) * (w + 2) + (x_ind pt + 0)
    /\ 0 <= i < size o
    /\ o !! Z.to_nat i = Some cur
    /\ o' = <[Z.to_nat i :=
               s_add (s_add (s_add (s_add cur (contribution a00 pt 0 0))
                                   (contribution a10 pt 1 0))
                            (contribution a01 pt 0 1))
                     (contribution a11 pt 1 1)]> o.
Proof.
  unfold for_range. change (Z.to_nat (4 - 0)) with 4%nat. cbn [for_loop]. intros E.
  apply bind_Ret in E as (o1 & E1 & E).
  apply bind_Ret in E as (o2 & E2 & E).
  apply bind_Ret in E as (o3 & E3 & E).
  apply bind_Ret in E as (o4 & E4 & E). injection E as <-.
  apply (sample_neighbour_inv a i hw h2w2 w pt 0 0 0) in E1
    as (a00 & cur & La00 & Hp & Hi & Lc & ->); [|reflexivity|reflexivity|lia|lia].
  assert (HiN : (Z.to_nat i < length o)%nat) by (unfold size in Hi; lia).
  apply (sample_neighbour_inv a i hw h2w2 w pt (0 + 1) 1 0) in E2
    as (a10 & cur1 & La10 & _ & _ & Lc1 & ->); [|reflexivity|reflexivity|lia|lia].
  rewrite list_lookup_insert_eq in Lc1 by done. injection Lc1 as <-.
  apply (sample_neighbour_inv a i hw h2w2 w pt (0 + 1 + 1) 0 1) in E3
    as (a01 & cur2 & La01 & _ & _ & Lc2 & ->); [|reflexivity|reflexivity|lia|lia].
  rewrite list_lookup_insert_eq in Lc2 by (by rewrite length_insert). injection Lc2 as <-.
  apply (sample_neighbour_inv a i hw h2w2 w pt (0 + 1 + 1 + 1) 1 1) in E4
    as (a11 & cur3 & La11 & _ & _ & Lc3 & ->); [|reflexivity|reflexivity|lia|lia].
  rewrite list_lookup_insert_eq in Lc3 by (by rewrite !length_insert). injection Lc3 as <-.
  exists a00, a10, a01, a11, cur.
  rewrite !list_insert_insert_eq. done.
Qed.

(** [GridSample], as far as it returns: every output element below
    [b*c*h*w] has the four contributions of its sampling point added to it,
    in the order of the loop, the four neighbours being read at places of
    [a] that are not negative, and the other elements are left alone. *)
Lemma GridSample_steps (a grid out out' : list T) (b c h w : Z) :
  GridSample a grid out [b; c; h; w] = Ret out' ->
  length out' = length out
  /\ (forall q : nat, b * c * h * w <= Z.of_nat q -> out' !! q = out !! q)
  /\ forall i, 0 <= i < b * c * h * w ->
       exists pt a00 a10 a01 a11 v0,
         grid_point grid c h w i = Ret pt
         /\ 0 <= Z.quot i (h * w) * ((h + 2) * (w + 2)) + y_ind pt * (w + 2) + x_ind pt
         /\ neighbour a h w i (x_ind pt) (y_ind pt) = Some a00
         /\ neighbour a h w i (x_ind pt + 1) (y_ind pt) = Some a10
         /\ neighbour a h w i (x_ind pt) (y_ind pt + 1) = Some a01
         /\ neighbour a h w i (x_ind pt + 1) (y_ind pt + 1) = Some a11
         /\ out !! Z.to_nat i = Some v0
         /\ out' !! Z.to_nat i
            = Some (s_add (s_add (s_add (s_add v0 (contribution a00 pt 0 0))
                                        (contribution a10 pt 1 0))
                                 (contribution a01 pt 0 1))
                          (contribution a11 pt 1 1)).
Proof.
  unfold GridSample. intros E.
  change (read [b; c; h; w] 0) with (Ret b) in E.
  change (read [b; c; h; w] 1) with (Ret c) in E.
  change (read [b; c; h; w] 2) with (Ret h) in E.
  change (read [b; c; h; w] 3) with (Ret w) in E.
  cbn [bind] in E.
  apply bind_Ret in E as (w1 & E1 & E). apply int32_inv in E1 as [-> _].
  apply bind_Ret in E as (h1 & E1 & E). apply int32_inv in E1 as [-> _].
  apply bind_Ret in E as (hw & E1 & E). apply int32_inv in E1 as [-> _].
  apply bind_Ret in E as (h2 & E1 & E). apply int32_inv in E1 as [-> _].
  apply bind_Ret in E as (w2 & E1 & E). apply int32_inv in E1 as [-> _].
  apply bind_Ret in E as (h2w2 & E1 & E). apply int32_inv in E1 as [-> _].
  apply bind_Ret in E as (ch & E1 & E). apply int32_inv in E1 as [-> _].
  apply bind_Ret in E as (chw & E1 & E). apply int32_inv in E1 as [-> _].
  apply bind_Ret in E as (bc & E1 & E). apply int32_inv in E1 as [-> _].
  apply bind_Ret in E as (bch & E1 & E). apply int32_inv in E1 as [-> _].
  apply bind_Ret in E as (bchw & E1 & E). apply int32_inv in E1 as [-> _].
  destruct (Z.le_gt_cases 0 (b * c * h * w)) as [Hpos|Hneg].
  - revert E.
    match goal with
    | |- for_range 0 _ ?body out = _ -> _ => intros E;
      pose proof (for_range_ret_inv
        (fun k o =>
           length o = length out
           /\ (forall q : nat, k <= Z.of_nat q -> o !! q = out !! q)
           /\ forall i, 0 <= i < k ->
                exists pt a00 a10 a01 a11 v0,
                  grid_point grid c h w i = Ret pt
                  /\ 0 <= Z.quot i (h * w) * ((h + 2) * (w + 2))
                          + y_ind pt * (w + 2) + x_ind pt
                  /\ neighbour a h w i (x_ind pt) (y_ind pt) = Some a00
                  /\ neighbour a h w i (x_ind pt + 1) (y_ind pt) = Some a10
                  /\ neighbour a h w i (x_ind pt) (y_ind pt + 1) = Some a01
                  /\ neighbour a h w i (x_ind pt + 1) (y_ind pt + 1) = Some a11
                  /\ out !! Z.to_nat i = Some v0
                  /\ o !! Z.to_nat i
                     = Some (s_add (s_add (s_add (s_add v0 (contribution a00 pt 0 0))
                                                 (contribution a10 pt 1 0))
                                          (contribution a01 pt 0 1))
                                   (contribution a11 pt 1 1)))
        body 0 (b * c * h * w) out out' Hpos E) as Hinv
    end.
    apply Hinv; clear Hinv.
    + split; [done|]. split; [done|]. intros i Hi. lia.
    + intros i o o1 Hi (HL & HF & HP) Eb.
      apply bind_Ret in Eb as (pt & Ept & Eb).
      apply four_neighbours in Eb
        as (a00 & a10 & a01 & a11 & cur & L00 & L10 & L01 & L11 & Hp & Hio & Lc & ->).
      split; [by rewrite length_insert|]. split.
      * intros q Hq. rewrite list_lookup_insert_ne by lia. apply HF. lia.
      * intros i' Hi'. destruct (decide (i' = i)) as [->|Hne].
        -- exists pt, a00, a10, a01, a11, cur.
           split; [exact Ept|].
           unfold neighbour.
           rewrite !Z.add_0_r in L00. rewrite !Z.add_0_r in L10.
           rewrite !Z.add_0_r in L01. rewrite !Z.add_0_r in Hp.
           split; [exact Hp|]. split; [exact L00|]. split; [exact L10|]. split; [exact L01|].
           split; [exact L11|].
           split; [rewrite <- HF by lia; exact Lc|].
           apply list_lookup_insert_eq. unfold size in Hio. lia.
        -- destruct (HP i') as (pt' & b00 & b10 & b01 & b11 & v0 & Hpt & Hp' & H00 & H10
                               & H01 & H11 & Hv0 & Ho); [lia|].
           exists pt', b00, b10, b01, b11, v0.
           rewrite list_lookup_insert_ne by lia. done.
  - unfold for_range in E. replace (Z.to_nat (b * c * h * w - 0)) with 0%nat in E by lia.
    injection E as <-. split; [done|]. split; [done|]. intros i Hi. lia.
Qed.

End GridSampleSteps.


(** *** From flat indices to the places of the layouts *)

Lemma quot_of_place (q r d : Z) : 0 <= q -> 0 <= r < d -> Z.quot (q * d + r) d = q.
Proof.
  intros Hq Hr. rewrite Z.quot_div_nonneg by nia.
  symmetry. apply (Z.div_unique_pos _ _ q r); lia.
Qed.

Lemma rem_of_place (q r d : Z) : 0 <= q -> 0 <= r < d -> Z.rem (q * d + r) d = r.
Proof.
  intros Hq Hr. rewrite Z.rem_mod_nonneg by nia.
  symmetry. apply (Z.mod_unique_pos _ _ q r); lia.
Qed.

(** The flat index of the output element [(b, c, h, w)], as the loop of
    [GridSample] takes it apart. *)
Lemma out_place_parts (B C H W b c h w : Z) :
  0 <= b < B -> 0 <= c < C -> 0 <= h < H -> 0 <= w < W ->
  0 <= out_place C H W b c h w < B * C * H * W
  /\ Z.quot (out_place C H W b c h w) (C * H * W) = b
  /\ Z.quot (out_place C H W b c h w) (H * W) = b * C + c
  /\ Z.rem (out_place C H W b c h w) (H * W) = h * W + w.
Proof.
  intros Hb Hc Hh Hw. unfold out_place.
  assert (H1 : 0 <= h * W + w < H * W) by nia.
  assert (H2 : 0 <= c * (H * W) + (h * W + w) < C * (H * W)) by nia.
  assert (H3 : 0 <= b * (C * (H * W)) + (c * (H * W) + (h * W + w)) < B * (C * (H * W)))
    by nia.
  replace (((b * C + c) * H + h) * W + w)
    with (b * (C * (H * W)) + (c * (H * W) + (h * W + w))) by lia.
  split; [lia|]. split.
  - replace (C * H * W) with (C * (H * W)) by lia. apply quot_of_place; lia.
  - replace (b * (C * (H * W)) + (c * (H * W) + (h * W + w)))
      with ((b * C + c) * (H * W) + (h * W + w)) by lia.
    split; [apply quot_of_place | apply rem_of_place]; nia.
Qed.

Section GridSamplePlaces.
Context {T : Type} {ops : Scalar T} {conv : Sampling T}.

Lemma rem32_inv (x y r : Z) : rem32 x y = Ret r -> r = Z.rem x y.
Proof.
  unfold rem32. destruct (y =? 0); [discriminate|].
  intros E. by apply int32_inv in E as [-> _].
Qed.

Lemma grid_index_inv (i chw hw g : Z) :
  grid_index i chw hw = Ret g -> g = (Z.quot i chw * hw + Z.rem i hw) * 2.
Proof.
  unfold grid_index. intros E.
  apply bind_Ret in E as (q & Eq & E). apply div32_inv in Eq as ->.
  apply bind_Ret in E as (t & E1 & E). apply int32_inv in E1 as [-> _].
  apply bind_Ret in E as (r & Er & E). apply rem32_inv in Er as ->.
  apply bind_Ret in E as (s & E1 & E). apply int32_inv in E1 as [-> _].
  by apply int32_inv in E as [-> _].
Qed.

(** What the loop reads and computes for one sampling point. *)
Lemma sample_point_inv (grid : list T) (h w chw hw : Z) (offset_x offset_y : T) (i : Z)
    (pt : point) :
  sample_point grid h w chw hw offset_x offset_y i = Ret pt ->
  exists x y,
    grid !! Z.to_nat ((Z.quot i chw * hw + Z.rem i hw) * 2) = Some x
    /\ grid !! Z.to_nat ((Z.quot i chw * hw + Z.rem i hw) * 2 + 1) = Some y
    /\ 0 <= (Z.quot i chw * hw + Z.rem i hw) * 2
    /\ s_to_int (transform x w offset_x) = Some (x_ind pt)
    /\ s_to_int (transform y h offset_y) = Some (y_ind pt)
    /\ dx pt = s_sub (transform x w offset_x) (s_of_int (x_ind pt))
    /\ dy pt = s_sub (transform y h offset_y) (s_of_int (y_ind pt)).
Proof.
  unfold sample_point. intros E.
  apply bind_Ret in E as (g & Eg & E). apply grid_index_inv in Eg as ->.
  apply bind_Ret in E as (x & Ex & E). apply read_inv in Ex as [[Hg _] Lx].
  apply bind_Ret in E as (g1 & E1 & E). apply int32_inv in E1 as [-> _].
  apply bind_Ret in E as (y & Ey & E). apply read_inv in Ey as [_ Ly].
  apply bind_Ret in E as (xi & Exi & E).
  apply bind_Ret in E as (yi & Eyi & E).
  injection E as <-. cbn [x_ind y_ind dx dy].
  unfold static_cast_int in Exi, Eyi.
  destruct (s_to_int (transform x w offset_x)) as [xi'|] eqn:Sx; [|discriminate].
  destruct (s_to_int (transform y h offset_y)) as [yi'|] eqn:Sy; [|discriminate].
  injection Exi as ->. injection Eyi as ->.
  exists x, y. done.
Qed.

(** One output element, by its place in the layouts: the coordinates read
    from the grid, the pixel they fall into, the four neighbours read from
    the padded source, and the value stored. *)
Lemma GridSample_element (a grid out out' : list T) (B C H W b c h w : Z) :
  GridSample a grid out [B; C; H; W] = Ret out' ->
  0 <= b < B -> 0 <= c < C -> 0 <= h < H -> 0 <= w < W ->
  exists x y x0 y0 a00 a10 a01 a11 v0,
    grid !! Z.to_nat (grid_place H W b h w 0) = Some x
    /\ grid !! Z.to_nat (grid_place H W b h w 1) = Some y
    /\ s_to_int (pixel_coordinate x W) = Some x0
    /\ s_to_int (pixel_coordinate y H) = Some y0
    /\ 0 <= padded_place C H W b c y0 x0
    /\ a !! Z.to_nat (padded_place C H W b c y0 x0) = Some a00
    /\ a !! Z.to_nat (padded_place C H W b c y0 (x0 + 1)) = Some a10
    /\ a !! Z.to_nat (padded_place C H W b c (y0 + 1) x0) = Some a01
    /\ a !! Z.to_nat (padded_place C H W b c (y0 + 1) (x0 + 1)) = Some a11
    /\ out !! Z.to_nat (out_place C H W b c h w) = Some v0
    /\ out' !! Z.to_nat (out_place C H W b c h w)
       = Some (accumulated v0 (fraction (pixel_coordinate x W) x0)
                 (fraction (pixel_coordinate y H) y0) a00 a10 a01 a11).
Proof.
  intros E Hb Hc Hh Hw.
  destruct (GridSample_steps _ _ _ _ _ _ _ _ E) as (_ & _ & HP).
  destruct (out_place_parts B C H W b c h w Hb Hc Hh Hw) as (Hi & Qb & Qc & Rw).
  destruct (HP _ Hi) as (pt & a00 & a10 & a01 & a11 & v0 & Hpt & Hp & L00 & L10 & L01 & L11
                         & Lv & Lo).
  unfold grid_point in Hpt.
  apply sample_point_inv in Hpt as (x & y & Lx & Ly & _ & Sx & Sy & Edx & Edy).
  rewrite Qb, Rw in Lx, Ly.
  unfold neighbour in L00, L10, L01, L11. rewrite Qc in Hp, L00, L10, L01, L11.
  exists x, y, (x_ind pt), (y_ind pt), a00, a10, a01, a11, v0.
  unfold grid_place, padded_place, pixel_coordinate, fraction.
  unfold transform in Sx, Sy, Edx, Edy.
  replace (((b * H + h) * W + w) * 2 + 0) with ((b * (H * W) + (h * W + w)) * 2) by lia.
  replace (((b * H + h) * W + w) * 2 + 1) with ((b * (H * W) + (h * W + w)) * 2 + 1) by lia.
  replace (((b * C + c) * (H + 2) + y_ind pt) * (W + 2) + x_ind pt)
    with ((b * C + c) * ((H + 2) * (W + 2)) + y_ind pt * (W + 2) + x_ind pt) by lia.
  replace (((b * C + c) * (H + 2) + y_ind pt) * (W + 2) + (x_ind pt + 1))
    with ((b * C + c) * ((H + 2) * (W + 2)) + y_ind pt * (W + 2) + (x_ind pt + 1)) by lia.
  replace (((b * C + c) * (H + 2) + (y_ind pt + 1)) * (W + 2) + x_ind pt)
    with ((b * C + c) * ((H + 2) * (W + 2)) + (y_ind pt + 1) * (W + 2) + x_ind pt) by lia.
  replace (((b * C + c) * (H + 2) + (y_ind pt + 1)) * (W + 2) + (x_ind pt + 1))
    with ((b * C + c) * ((H + 2) * (W + 2)) + (y_ind pt + 1) * (W + 2) + (x_ind pt + 1))
    by lia.
  rewrite <- Edx, <- Edy.
  repeat (split; [assumption|]). exact Lo.
Qed.

End GridSamplePlaces.

Section GridSampleAccumulates.
Context {T : Type} {ops : Scalar T} {conv : Sampling T}.

(** C7 (amended by the rounding of every operation and by the calls that
    are defined).  [GridSample] does not set its destination to zero:
    whenever the call returns, the destination keeps its length, its
    elements from [B*C*H*W] on are unchanged, and the element
    [(b, c, h, w)] is its value before the call with the four terms
    [a(x0+xk, y0+yk) * (dx*(2xk-1) + 1 - xk) * (dy*(2yk-1) + 1 - yk)] added
    to it one after the other, for [(xk, yk)] = (0,0), (1,0), (0,1), (1,1),
    every operation being one of the scalar type.  Here [(x, y)] is the
    grid entry of [(b, h, w)], [x' = x*W/2 + (W+1)/2] and
    [y' = y*H/2 + (H+1)/2], [(x0, y0)] their integer parts, [dx = x' - x0],
    [dy = y' - y0], and [a(x, y)] the pixel of the padded plane [(b, c)]. *)
Theorem GridSample_adds_four_terms (a grid out out' : list T) (B C H W : Z) :
  GridSample a grid out [B; C; H; W] = Ret out' ->
  length out' = length out
  /\ (forall q : nat, B * C * H * W <= Z.of_nat q -> out' !! q = out !! q)
  /\ forall b c h w,
       0 <= b < B -> 0 <= c < C -> 0 <= h < H -> 0 <= w < W ->
       exists x y x0 y0 a00 a10 a01 a11 v0,
         grid !! Z.to_nat (grid_place H W b h w 0) = Some x
         /\ grid !! Z.to_nat (grid_place H W b h w 1) = Some y
         /\ s_to_int (pixel_coordinate x W) = Some x0
         /\ s_to_int (pixel_coordinate y H) = Some y0
         /\ 0 <= padded_place C H W b c y0 x0
         /\ a !! Z.to_nat (padded_place C H W b c y0 x0) = Some a00
         /\ a !! Z.to_nat (padded_place C H W b c y0 (x0 + 1)) = Some a10
         /\ a !! Z.to_nat (padded_place C H W b c (y0 + 1) x0) = Some a01
         /\ a !! Z.to_nat (padded_place C H W b c (y0 + 1) (x0 + 1)) = Some a11
         /\ out !! Z.to_nat (out_place C H W b c h w) = Some v0
         /\ out' !! Z.to_nat (out_place C H W b c h w)
            = Some (accumulated v0 (fraction (pixel_coordinate x W) x0)
                      (fraction (pixel_coordinate y H) y0) a00 a10 a01 a11).
Proof.
  intros E.
  destruct (GridSample_steps _ _ _ _ _ _ _ _ E) as (HL & HF & _).
  split; [exact HL|]. split; [exact HF|].
  intros b c h w Hb Hc Hh Hw.
  exact (GridSample_element a grid out out' B C H W b c h w E Hb Hc Hh Hw).
Qed.

End GridSampleAccumulates.


(** A 2 by 2 destination of [float]s sampled in a 4 by 4 padded plane, two
    of its elements between the pixels. *)
Lemma GridSample_adds_four_terms_witness :
  GridSample plane_4x4 grid_2x2 (map float_of_int [1; 2; 3; 4]) [1; 1; 2; 2]
  = Ret (map float_of_int [125; 138; 163; 100])
  /\ length (map float_of_int [125; 138; 163; 100]) = length (map float_of_int [1; 2; 3; 4])
  /\ (forall q : nat,
        1 * 1 * 2 * 2 <= Z.of_nat q ->
        map float_of_int [125; 138; 163; 100] !! q = map float_of_int [1; 2; 3; 4] !! q)
  /\ forall b c h w,
       0 <= b < 1 -> 0 <= c < 1 -> 0 <= h < 2 -> 0 <= w < 2 ->
       exists x y x0 y0 a00 a10 a01 a11 v0,
         grid_2x2 !! Z.to_nat (grid_place 2 2 b h w 0) = Some x
         /\ grid_2x2 !! Z.to_nat (grid_place 2 2 b h w 1) = Some y
         /\ s_to_int (pixel_coordinate x 2) = Some x0
         /\ s_to_int (pixel_coordinate y 2) = Some y0
         /\ 0 <= padded_place 1 2 2 b c y0 x0
         /\ plane_4x4 !! Z.to_nat (padded_place 1 2 2 b c y0 x0) = Some a00
         /\ plane_4x4 !! Z.to_nat (padded_place 1 2 2 b c y0 (x0 + 1)) = Some a10
         /\ plane_4x4 !! Z.to_nat (padded_place 1 2 2 b c (y0 + 1) x0) = Some a01
         /\ plane_4x4 !! Z.to_nat (padded_place 1 2 2 b c (y0 + 1) (x0 + 1)) = Some a11
         /\ map float_of_int [1; 2; 3; 4] !! Z.to_nat (out_place 1 2 2 b c h w) = Some v0
         /\ map float_of_int [125; 138; 163; 100] !! Z.to_nat (out_place 1 2 2 b c h w)
            = Some (accumulated v0 (fraction (pixel_coordinate x 2) x0)
                      (fraction (pixel_coordinate y 2) y0) a00 a10 a01 a11).
Proof.
  assert (E : GridSample plane_4x4 grid_2x2 (map float_of_int [1; 2; 3; 4]) [1; 1; 2; 2]
              = Ret (map float_of_int [125; 138; 163; 100])) by (vm_compute; reflexivity).
  split; [exact E|].
  exact (GridSample_adds_four_terms _ _ _ _ 1 1 2 2 E).
Defined.

(** C7, as stated, at a destination element of 2^24 sampled in the middle
    of four pixels of value 2: each of the four terms is 0.5 and is lost
    when it is added to 2^24, so the element stays 2^24, where its value
    before the call plus the bilinearly weighted sum, 2, is 2^24 + 2.  And
    at a shape of 2^31 output elements the product [b * c] leaves
    [int32_t] before the loop starts. *)
Lemma GridSample_rounds_and_overflows :
  (GridSample (replicate 16 (float_of_int 2)) (replicate 8 (float_of_int 0))
     (map float_of_int [16777216; 0; 0; 0]) [1; 1; 2; 2]
   = Ret (map float_of_int [16777216; 2; 2; 2])
   /\ s_to_int (pixel_coordinate (float_of_int 0) 2) = Some 1
   /\ fraction (pixel_coordinate (float_of_int 0) 2) 1 = float_ratio 1 2
   /\ bilinear (float_ratio 1 2) (float_ratio 1 2)
        (float_of_int 2) (float_of_int 2) (float_of_int 2) (float_of_int 2)
      = float_of_int 2
   /\ s_add (float_of_int 16777216) (float_of_int 2) = float_of_int 16777218
   /\ s_eq (float_of_int 16777216) (float_of_int 16777218) = false)
  /\ size (replicate (Z.to_nat (32768 * 65536 * 3 * 3)) (float_of_int 1))
     = 32768 * 65536 * (1 + 2) * (1 + 2)
  /\ size (replicate (Z.to_nat (32768 * 2)) (float_of_int 0)) = 32768 * 1 * 1 * 2
  /\ size (replicate (Z.to_nat (32768 * 65536)) (float_of_int 0)) = 32768 * 65536 * 1 * 1
  /\ GridSample (replicate (Z.to_nat (32768 * 65536 * 3 * 3)) (float_of_int 1))
       (replicate (Z.to_nat (32768 * 2)) (float_of_int 0))
       (replicate (Z.to_nat (32768 * 65536)) (float_of_int 0)) [32768; 65536; 1; 1] = UB.
Proof.
  split; [repeat split; vm_compute; reflexivity|].
  split; [rewrite size_replicate; lia|].
  split; [rewrite size_replicate; lia|].
  split; [rewrite size_replicate; lia|].
  generalize (replicate (Z.to_nat (32768 * 65536 * 3 * 3)) (float_of_int 1)).
  generalize (replicate (Z.to_nat (32768 * 2)) (float_of_int 0)).
  generalize (replicate (Z.to_nat (32768 * 65536)) (float_of_int 0)).
  intros out grid a. reflexivity.
Qed.

(** *** Arithmetic of [float] at a pixel *)

(** Twenty-three halvings undo the multiplication of a mantissa by 2^23. *)
Lemma shr_of_shifted_mantissa (m : positive) :
  SpecFloat.iter_pos shr_1 23
    {| shr_m := Z.pos m~0~0~0~0~0~0~0~0~0~0~0~0~0~0~0~0~0~0~0~0~0~0~0;
       shr_r := false; shr_s := false |}
  = {| shr_m := Z.pos m; shr_r := false; shr_s := false |}.
Proof. reflexivity. Qed.

(** The product of a finite number and one is the number. *)
Lemma SFmul_one_r (s : bool) (m : positive) (e : Z) :
  bounded 24 128 m e = true ->
  SFmul 24 128 (S754_finite s m e) (float_of_int 1) = S754_finite s m e.
Proof.
  intros Hb. unfold bounded, canonical_mantissa in Hb.
  apply andb_prop in Hb as [Hc He].
  apply Z.eqb_eq in Hc.
  change (float_of_int 1) with (S754_finite false 8388608 (-23)).
  unfold SFmul. rewrite xorb_false_r, Pos.mul_comm.
  change (8388608 * m)%positive
    with (m~0~0~0~0~0~0~0~0~0~0~0~0~0~0~0~0~0~0~0~0~0~0~0)%positive.
  unfold binary_round_aux, shr_fexp.
  cbn [Zdigits2 digits2_pos].
  rewrite !Pos2Z.inj_succ.
  replace (Z.succ (Z.succ (Z.succ (Z.succ (Z.succ (Z.succ (Z.succ (Z.succ (Z.succ (Z.succ
            (Z.succ (Z.succ (Z.succ (Z.succ (Z.succ (Z.succ (Z.succ (Z.succ (Z.succ (Z.succ
            (Z.succ (Z.succ (Z.succ (Z.pos (digits2_pos m))))))))))))))))))))))))
           + (e + -23))
    with (Z.pos (digits2_pos m) + e) by lia.
  rewrite Hc.
  replace (e - (e + -23)) with 23 by lia.
  cbn [shr_record_of_loc shr].
  rewrite shr_of_shifted_mantissa.
  cbn [shr_m loc_of_shr_record round_nearest_even Zdigits2 shr_record_of_loc].
  replace (e + -23 + 23) with e by lia.
  rewrite Hc, Z.sub_diag. cbn [shr shr_m]. rewrite He. reflexivity.
Qed.

(** The weights of the four neighbours along an axis on which the sampling
    point falls on a pixel: one for the pixel, zero for the next one. *)
Lemma axis_weight_at_pixel (d : spec_float) :
  is_zero d = true ->
  axis_weight d 0 = float_of_int 1 /\ axis_weight d 1 = S754_zero false.
Proof. destruct d as [[|]| | |]; try discriminate; intros _; split; reflexivity. Qed.

Lemma SFmul_finite_one (v : spec_float) :
  finite_float v = true -> SFmul 24 128 v (float_of_int 1) = v.
Proof.
  destruct v as [[|]| | |s m e]; try discriminate; try reflexivity.
  apply SFmul_one_r.
Qed.

Lemma SFmul_finite_zero (v : spec_float) (s : bool) :
  finite_float v = true -> is_zero (SFmul 24 128 v (S754_zero s)) = true.
Proof. destruct v; try discriminate; reflexivity. Qed.

Lemma SFmul_zero_finite (v w : spec_float) :
  is_zero v = true -> finite_float w = true -> is_zero (SFmul 24 128 v w) = true.
Proof. destruct v; try discriminate. destruct w; try discriminate; reflexivity. Qed.

Lemma finite_one : finite_float (float_of_int 1) = true.
Proof. reflexivity. Qed.

(** The terms of the four neighbours of a sampling point that falls on a
    pixel. *)
Lemma weighted_at_pixel (d_x d_y a00 a10 a01 a11 : spec_float) :
  is_zero d_x = true -> is_zero d_y = true ->
  finite_float a00 = true -> finite_float a10 = true ->
  finite_float a01 = true -> finite_float a11 = true ->
  weighted a00 d_x d_y 0 0 = a00
  /\ is_zero (weighted a10 d_x d_y 1 0) = true
  /\ is_zero (weighted a01 d_x d_y 0 1) = true
  /\ is_zero (weighted a11 d_x d_y 1 1) = true.
Proof.
  intros Hx Hy F00 F10 F01 F11. unfold weighted.
  destruct (axis_weight_at_pixel d_x Hx) as [-> ->].
  destruct (axis_weight_at_pixel d_y Hy) as [-> ->].
  change (@s_mul spec_float float_Scalar) with (SFmul 24 128).
  rewrite !(SFmul_finite_one a00 F00), (SFmul_finite_one a01 F01).
  split; [done|]. split.
  - apply SFmul_zero_finite; [by apply SFmul_finite_zero | apply finite_one].
  - split; [by apply SFmul_finite_zero|].
    apply SFmul_zero_finite; [by apply SFmul_finite_zero | reflexivity].
Qed.

(** Adding four such terms to [+0]: the pixel, and [+0] for a pixel that is
    a zero of either sign. *)
Lemma accumulated_at_pixel (a00 t10 t01 t11 : spec_float) :
  finite_float a00 = true ->
  is_zero t10 = true -> is_zero t01 = true -> is_zero t11 = true ->
  SFadd 24 128 (SFadd 24 128 (SFadd 24 128 (SFadd 24 128 (float_of_int 0) a00) t10) t01) t11
  = if is_zero a00 then S754_zero false else a00.
Proof.
  intros F00 Z10 Z01 Z11.
  destruct t10 as [s10| | |]; try discriminate.
  destruct t01 as [s01| | |]; try discriminate.
  destruct t11 as [s11| | |]; try discriminate.
  destruct a00 as [[|]| | |s m e]; try discriminate;
    destruct s10, s01, s11; reflexivity.
Qed.

(** C6 (amended by the finite neighbours and by the calls that are
    defined).  On [float], whenever the call returns: if the element
    [(b, c, h, w)] of the destination was [+0] before the call, the
    coordinates [x' = x*W/2 + (W+1)/2] and [y' = y*H/2 + (H+1)/2] of its
    grid entry [(x, y)], computed as the code computes them, fall on the
    pixel [(x0, y0)] of the padded plane ([dx = x' - x0] and
    [dy = y' - y0] are zero), and the four neighbours are finite, then the
    term of the pixel [(x0, y0)] is the pixel, the terms of the other three
    neighbours are zero, and the element is the pixel after the call ([+0]
    for a pixel that is a zero of either sign). *)
Theorem GridSample_at_lattice_point (a grid out out' : list spec_float)
    (B C H W b c h w : Z) (x y : spec_float) (x0 y0 : Z)
    (a00 a10 a01 a11 : spec_float) :
  GridSample a grid out [B; C; H; W] = Ret out' ->
  0 <= b < B -> 0 <= c < C -> 0 <= h < H -> 0 <= w < W ->
  out !! Z.to_nat (out_place C H W b c h w) = Some (float_of_int 0) ->
  grid !! Z.to_nat (grid_place H W b h w 0) = Some x ->
  grid !! Z.to_nat (grid_place H W b h w 1) = Some y ->
  s_to_int (pixel_coordinate x W) = Some x0 ->
  s_to_int (pixel_coordinate y H) = Some y0 ->
  is_zero (fraction (pixel_coordinate x W) x0) = true ->
  is_zero (fraction (pixel_coordinate y H) y0) = true ->
  a !! Z.to_nat (padded_place C H W b c y0 x0) = Some a00 ->
  a !! Z.to_nat (padded_place C H W b c y0 (x0 + 1)) = Some a10 ->
  a !! Z.to_nat (padded_place C H W b c (y0 + 1) x0) = Some a01 ->
  a !! Z.to_nat (padded_place C H W b c (y0 + 1) (x0 + 1)) = Some a11 ->
  finite_float a00 = true -> finite_float a10 = true ->
  finite_float a01 = true -> finite_float a11 = true ->
  out' !! Z.to_nat (out_place C H W b c h w)
  = Some (if is_zero a00 then S754_zero false else a00)
  /\ weighted a00 (fraction (pixel_coordinate x W) x0) (fraction (pixel_coordinate y H) y0)
       0 0 = a00
  /\ is_zero (weighted a10 (fraction (pixel_coordinate x W) x0)
                (fraction (pixel_coordinate y H) y0) 1 0) = true
  /\ is_zero (weighted a01 (fraction (pixel_coordinate x W) x0)
                (fraction (pixel_coordinate y H) y0) 0 1) = true
  /\ is_zero (weighted a11 (fraction (pixel_coordinate x W) x0)
                (fraction (pixel_coordinate y H) y0) 1 1) = true.
Proof.
  intros E Hb Hc Hh Hw Lzero Lx Ly Sx Sy Zx Zy L00 L10 L01 L11 F00 F10 F01 F11.
  destruct (GridSample_element a grid out out' B C H W b c h w E Hb Hc Hh Hw)
    as (x' & y' & x0' & y0' & b00 & b10 & b01 & b11 & v0 & Lx' & Ly' & Sx' & Sy' & _
        & M00 & M10 & M01 & M11 & Lv & Lo).
  rewrite Lx in Lx'. injection Lx' as <-.
  rewrite Ly in Ly'. injection Ly' as <-.
  rewrite Sx in Sx'. injection Sx' as <-.
  rewrite Sy in Sy'. injection Sy' as <-.
  rewrite L00 in M00. injection M00 as <-.
  rewrite L10 in M10. injection M10 as <-.
  rewrite L01 in M01. injection M01 as <-.
  rewrite L11 in M11. injection M11 as <-.
  rewrite Lzero in Lv. injection Lv as <-.
  destruct (weighted_at_pixel _ _ a00 a10 a01 a11 Zx Zy F00 F10 F01 F11)
    as (W00 & W10 & W01 & W11).
  split; [|done].
  rewrite Lo. f_equal. unfold accumulated. rewrite W00.
  by apply accumulated_at_pixel.
Qed.

(** The element [(0, 0, 1, 0)] of a 2 by 2 destination of zeros: its
    sampling point is the pixel [(1, 2)] of the padded plane, of value
    160. *)
Lemma GridSample_at_lattice_point_witness :
  GridSample plane_4x4 grid_2x2 (map float_of_int [0; 0; 0; 0]) [1; 1; 2; 2]
  = Ret (map float_of_int [124; 136; 160; 96])
  /\ s_to_int (pixel_coordinate (float_ratio (-1) 2) 2) = Some 1
  /\ s_to_int (pixel_coordinate (float_ratio 1 2) 2) = Some 2
  /\ map float_of_int [124; 136; 160; 96] !! Z.to_nat (out_place 1 2 2 0 0 1 0)
     = Some (if is_zero (float_of_int 160) then S754_zero false else float_of_int 160)
  /\ weighted (float_of_int 160)
       (fraction (pixel_coordinate (float_ratio (-1) 2) 2) 1)
       (fraction (pixel_coordinate (float_ratio 1 2) 2) 2) 0 0 = float_of_int 160
  /\ is_zero (weighted (float_of_int 176)
                (fraction (pixel_coordinate (float_ratio (-1) 2) 2) 1)
                (fraction (pixel_coordinate (float_ratio 1 2) 2) 2) 1 0) = true
  /\ is_zero (weighted (float_of_int 224)
                (fraction (pixel_coordinate (float_ratio (-1) 2) 2) 1)
                (fraction (pixel_coordinate (float_ratio 1 2) 2) 2) 0 1) = true
  /\ is_zero (weighted (float_of_int 240)
                (fraction (pixel_coordinate (float_ratio (-1) 2) 2) 1)
                (fraction (pixel_coordinate (float_ratio 1 2) 2) 2) 1 1) = true.
Proof.
  assert (E : GridSample plane_4x4 grid_2x2 (map float_of_int [0; 0; 0; 0]) [1; 1; 2; 2]
              = Ret (map float_of_int [124; 136; 160; 96])) by (vm_compute; reflexivity).
  split; [exact E|].
  split; [vm_compute; reflexivity|]. split; [vm_compute; reflexivity|].
  apply (GridSample_at_lattice_point plane_4x4 grid_2x2 (map float_of_int [0; 0; 0; 0])
           (map float_of_int [124; 136; 160; 96]) 1 1 2 2 0 0 1 0
           (float_ratio (-1) 2) (float_ratio 1 2) 1 2
           (float_of_int 160) (float_of_int 176) (float_of_int 224) (float_of_int 240) E);
    try lia; vm_compute; reflexivity.
Defined.

(** C6, as stated, at a destination of one zero whose sampling point falls
    on the middle pixel, 5, of a 3 by 3 padded plane with an infinite pixel
    to its right: the weight of that neighbour is zero, its term is a NaN,
    and so is the element after the call.  And at a zero-initialized
    destination of 2^31 elements whose sampling points all fall on a pixel
    the product [b * c] leaves [int32_t] before the loop starts. *)
Lemma GridSample_lattice_point_not_reproduced :
  (GridSample plane_3x3_inf [float_of_int 0; float_of_int 0] [float_of_int 0] [1; 1; 1; 1]
   = Ret [S754_nan]
   /\ s_to_int (pixel_coordinate (float_of_int 0) 1) = Some 1
   /\ fraction (pixel_coordinate (float_of_int 0) 1) 1 = S754_zero false
   /\ plane_3x3_inf !! Z.to_nat (padded_place 1 1 1 0 0 1 1) = Some (float_of_int 5)
   /\ plane_3x3_inf !! Z.to_nat (padded_place 1 1 1 0 0 1 (1 + 1)) = Some (S754_infinity false)
   /\ weighted (S754_infinity false) (S754_zero false) (S754_zero false) 1 0 = S754_nan)
  /\ size (replicate (Z.to_nat (65536 * 32768 * 3 * 3)) (float_of_int 1))
     = 65536 * 32768 * (1 + 2) * (1 + 2)
  /\ size (replicate (Z.to_nat (65536 * 2)) (float_of_int 0)) = 65536 * 1 * 1 * 2
  /\ size (replicate (Z.to_nat (65536 * 32768)) (float_of_int 0)) = 65536 * 32768 * 1 * 1
  /\ GridSample (replicate (Z.to_nat (65536 * 32768 * 3 * 3)) (float_of_int 1))
       (replicate (Z.to_nat (65536 * 2)) (float_of_int 0))
       (replicate (Z.to_nat (65536 * 32768)) (float_of_int 0)) [65536; 32768; 1; 1] = UB.
Proof.
  split; [repeat split; vm_compute; reflexivity|].
  split; [rewrite size_replicate; lia|].
  split; [rewrite size_replicate; lia|].
  split; [rewrite size_replicate; lia|].
  generalize (replicate (Z.to_nat (65536 * 32768 * 3 * 3)) (float_of_int 1)).
  generalize (replicate (Z.to_nat (65536 * 2)) (float_of_int 0)).
  generalize (replicate (Z.to_nat (65536 * 32768)) (float_of_int 0)).
  intros out grid a. reflexivity.
Qed.

(** ** Allocation *)

Lemma bump_ok (base capacity : Z) :
  AlignedArray.posix_memalign_ok (AlignedArray.bump base capacity).
Proof.
  intros alignment sz Hal. unfold AlignedArray.bump.
  destruct (sz <=? capacity); simpl; [|discriminate].
  intros _. apply Z.mod_mul. lia.
Qed.

(** Below the wrap of the byte count: for an element count whose byte
    count [count * ELEM_SIZE] fits [size_t], the constructor of
    [AlignedArray] throws [bad_alloc] exactly when [posix_memalign] fails,
    and otherwise returns an array that records [count] elements, at an
    address that is a multiple of [ALIGNMENT = 256], of a block asked for
    with [count * ELEM_SIZE] bytes. *)
Lemma AlignedArray_new_in_range (posix_memalign : Z -> Z -> Z * Z) (count : Z) :
  AlignedArray.posix_memalign_ok posix_memalign ->
  0 <= count -> count * ELEM_SIZE < SIZE_MOD ->
  ALIGNMENT = 256
  /\ AlignedArray.requested_bytes count = count * ELEM_SIZE
  /\ ((AlignedArray.new posix_memalign count = Raise bad_alloc
       /\ (posix_memalign ALIGNMENT (count * ELEM_SIZE)).1 <> 0)
      \/ (exists arr,
            AlignedArray.new posix_memalign count = Ret arr
            /\ (posix_memalign ALIGNMENT (count * ELEM_SIZE)).1 = 0
            /\ AlignedArray.size arr = count
            /\ AlignedArray.ptr_as_int arr mod ALIGNMENT = 0)).
Proof.
  intros Hposix Hc0 Hc1. split; [reflexivity|].
  assert (Eb : AlignedArray.requested_bytes count = count * ELEM_SIZE).
  { unfold AlignedArray.requested_bytes. apply wrap64_small. unfold ELEM_SIZE in *. lia. }
  split; [exact Eb|].
  unfold AlignedArray.new. rewrite Eb.
  destruct (Z.eqb_spec (posix_memalign ALIGNMENT (count * ELEM_SIZE)).1 0)
    as [E0|Hne]; simpl.
  - right. eexists. split; [reflexivity|]. split; [exact E0|]. split; [reflexivity|].
    unfold AlignedArray.ptr_as_int. simpl. apply Hposix; [reflexivity | done].
  - left. done.
Qed.

(** C9.  The constructor of [AlignedArray] does not check the product
    [size * ELEM_SIZE], which is one of two [size_t]: at a count of
    [2^62 + 1] elements the byte count wraps to 4, the request for four
    bytes succeeds, and the constructor returns an array that records
    [2^62 + 1] elements for a block of four bytes, where it should have
    returned a buffer of [count] elements or thrown [bad_alloc]. *)
Theorem allocation_wraps_on_huge_count :
  AlignedArray.posix_memalign_ok (AlignedArray.bump 1000 1024)
  /\ AlignedArray.new (AlignedArray.bump 1000 1024) 4611686018427387905
     = Ret {| AlignedArray.ptr := 1024; AlignedArray.size := 4611686018427387905 |}
  /\ AlignedArray.requested_bytes 4611686018427387905 = 4
  /\ 4 < 4611686018427387905 * ELEM_SIZE.
Proof.
  split; [apply bump_ok|]. split; [reflexivity|]. split; reflexivity.
Qed.

(** * Further properties

    Properties of the backend beyond the statements above: what each
    function needs of its arguments to return, what it leaves alone, and
    how the functions compose. *)

(** ** Further properties of [Fill] *)

(** X1.  [Fill], whose counter is an [int], returns exactly when the
    buffer has at most [INT_MAX] elements, and then every element of the
    buffer is [val], whatever the buffer held. *)
Theorem Fill_returns_constant_buffer {T : Type} (out out' : list T) (val : T) :
  Fill out val = Ret out' <-> size out <= INT_MAX /\ out' = replicate (length out) val.
Proof.
  split.
  - intros E. destruct (Z.le_gt_cases (size out) INT_MAX) as [Hsz|Hsz].
    + split; [done|].
      destruct (Fill_all out val Hsz) as (o & Eo & HL & HP).
      rewrite Eo in E. injection E as <-.
      apply list_eq. intros q.
      destruct (Nat.lt_ge_cases q (length out)) as [Hq|Hq].
      * rewrite (HP q Hq). symmetry. by apply lookup_replicate_2.
      * rewrite !(proj2 (lookup_ge_None _ _)); [done | by rewrite length_replicate | lia].
    + by rewrite (Fill_overflow) in E.
  - intros [Hsz ->].
    destruct (Fill_all out val Hsz) as (o & Eo & HL & HP).
    rewrite Eo. f_equal.
    apply list_eq. intros q.
    destruct (Nat.lt_ge_cases q (length out)) as [Hq|Hq].
    + rewrite (HP q Hq). symmetry. by apply lookup_replicate_2.
    + rewrite !(proj2 (lookup_ge_None _ _)); [done | by rewrite length_replicate | lia].
Qed.

Lemma Fill_returns_constant_buffer_witness :
  Fill [1; 2; 3] 7 = Ret [7; 7; 7] /\ Fill (@nil Z) 7 = Ret [].
Proof.
  split.
  - apply (proj2 (Fill_returns_constant_buffer [1; 2; 3] [7; 7; 7] 7)).
    split; [vm_compute; discriminate | reflexivity].
  - apply (proj2 (Fill_returns_constant_buffer [] [] 7)).
    split; [vm_compute; discriminate | reflexivity].
Defined.

(** ** Further properties of the strided traversals *)

(** With less fuel than multi-indices are left, the outer loop is still
    running when the fuel is used up. *)
Lemma strided_loop_short {St : Type} (visit : Z -> Z -> St -> res St) (Inv : Z -> St -> Prop)
    (shape strides : list Z) (offset : Z) :
  1 <= size shape <= INT_MAX ->
  Forall (fun s => s <= INT_MAX) shape ->
  strides_fit shape strides ->
  0 <= offset < SIZE_MOD ->
  volume shape <= SIZE_MOD ->
  (forall (index : list Z) (s : St),
      in_view shape index -> Inv (ravel shape index) s ->
      exists s', visit (ravel shape index) (wrap64 (view_pos offset strides index)) s = Ret s'
                 /\ Inv (ravel shape index + 1) s') ->
  forall (fuel : nat) (index : list Z) (s : St),
    in_view shape index ->
    Z.of_nat fuel < volume shape - ravel shape index ->
    Inv (ravel shape index) s ->
    strided_loop visit fuel shape strides offset (ravel shape index) index s = OutOfFuel.
Proof.
  intros Hn Hmax Hfit Ho HV Hvisit.
  induction fuel as [|fuel IH]; intros index s Hv Hfuel Hs; [done|].
  cbn [strided_loop].
  rewrite position_lin by done. cbn [bind].
  destruct (Hvisit index s Hv Hs) as (s1 & E1 & H1). rewrite E1. cbn [bind].
  rewrite carry_whole by done. cbn [bind].
  destruct (incr_next _ _ Hv) as [Hv' Hr].
  destruct (incr shape index) as [index' c]; simpl in *.
  pose proof (ravel_bounds _ _ Hv). pose proof (ravel_bounds _ _ Hv').
  destruct c; [lia|].
  rewrite wrap64_small by lia.
  assert (Heq : ravel shape index + 1 = ravel shape index') by lia.
  rewrite Heq in H1 |- *.
  apply IH; [done | lia | done].
Qed.

Lemma Forall_positive_bounded (shape : list Z) :
  Forall (fun s => 1 <= s <= INT_MAX) shape ->
  Forall (fun s => 1 <= s) shape /\ Forall (fun s => s <= INT_MAX) shape.
Proof. intros Hs. split; eapply Forall_impl; try exact Hs; simpl; intros; lia. Qed.

(** X2.  On a shape with at least one dimension and positive extents the
    outer loop of [Compact] and [EwiseSetitem] makes exactly
    [product(shape)] visits and then returns: with that many passes, or
    more, allowed it returns after [product(shape)] visits, and with fewer
    it is still running. *)
Theorem traversal_visits_product_of_shape (shape strides : list Z) (offset : Z) (fuel : nat) :
  1 <= size shape <= INT_MAX ->
  Forall (fun s => 1 <= s <= INT_MAX) shape ->
  strides_fit shape strides ->
  0 <= offset < SIZE_MOD ->
  product shape <= SIZE_MOD ->
  visit_count fuel shape strides offset
  = if product shape <=? Z.of_nat fuel then Ret (product shape) else OutOfFuel.
Proof.
  intros Hn Hs Hfit Ho HV.
  destruct (Forall_positive_bounded _ Hs) as [Hpos Hmax].
  rewrite <- (volume_product shape Hpos) in *.
  destruct (Z.leb_spec (volume shape) (Z.of_nat fuel)) as [Hf|Hf].
  - by apply visit_count_volume.
  - unfold visit_count.
    pose proof (strided_loop_short (fun _ _ n => Ret (n + 1)) (fun c n => n = c)
                  shape strides offset Hn Hmax Hfit Ho HV) as P.
    specialize (P ltac:(intros index s Hv ->; eauto) fuel (replicate (length shape) 0) 0
                  (in_view_zeros shape)).
    rewrite ravel_zeros in P. apply P; [lia | done].
Qed.

(** A 2 by 3 view: six visits. *)
Lemma traversal_visits_product_of_shape_witness :
  visit_count 6 [2; 3] [3; 1] 0 = Ret 6 /\ visit_count 5 [2; 3] [3; 1] 0 = OutOfFuel.
Proof.
  assert (Hs : Forall (fun s => 1 <= s <= INT_MAX) [2; 3]).
  { repeat constructor; vm_compute; discriminate. }
  assert (Hf : strides_fit [2; 3] [3; 1]).
  { repeat constructor; vm_compute; discriminate. }
  split.
  - apply (traversal_visits_product_of_shape [2; 3] [3; 1] 0 6); try done;
      vm_compute; split; discriminate || reflexivity.
  - apply (traversal_visits_product_of_shape [2; 3] [3; 1] 0 5); try done;
      vm_compute; split; discriminate || reflexivity.
Defined.

Lemma in_view_bounds (shape index : list Z) :
  Forall (fun s => 1 <= s) shape ->
  in_view shape index -> Forall2 (fun s i => 0 <= i < s) shape index.
Proof.
  intros Hpos Hv. induction Hv as [|s i shape index Hi Hv IH]; [constructor|].
  inversion Hpos; subst. constructor; [unfold extent in Hi; lia | by apply IH].
Qed.

(** [EwiseSetitem] on any view: where several multi-indices share a
    position, the element of the last of them in row-major order stays. *)
Lemma EwiseSetitem_last_write {T : Type} (a out : list T)
    (shape strides : list Z) (offset : Z) :
  view_ok out shape strides offset ->
  volume shape <= size a ->
  size a <= SIZE_MOD ->
  forall fuel : nat,
    volume shape <= Z.of_nat fuel ->
    exists out',
      EwiseSetitem fuel a out shape strides offset = Ret out'
      /\ length out' = length out
      /\ (forall index : list Z,
             in_view shape index ->
             (forall index' : list Z,
                 in_view shape index' ->
                 view_pos offset strides index' = view_pos offset strides index ->
                 ravel shape index' <= ravel shape index) ->
             out' !! Z.to_nat (view_pos offset strides index)
             = a !! Z.to_nat (ravel shape index))
      /\ (forall q : nat,
             (forall index : list Z,
                 in_view shape index -> Z.to_nat (view_pos offset strides index) <> q) ->
             out' !! q = out !! q).
Proof.
  intros Hok Hav Has fuel Hfuel.
  pose proof (view_ok_offset _ _ _ _ Hok) as Ho.
  pose proof Hok as (Hn & Hmax & Hfit & _ & Hsz & Hin).
  pose proof (volume_pos shape) as HV.
  unfold EwiseSetitem.
  destruct (strided_loop_inv
    (fun cnt pos o => let* v := read a cnt in write o pos v)
    (fun n o =>
       length o = length out
       /\ (forall index, in_view shape index -> ravel shape index < n ->
             (forall index', in_view shape index' -> ravel shape index' < n ->
                view_pos offset strides index' = view_pos offset strides index ->
                ravel shape index' <= ravel shape index) ->
             o !! Z.to_nat (view_pos offset strides index) = a !! Z.to_nat (ravel shape index))
       /\ (forall q : nat,
             (forall index, in_view shape index ->
                            Z.to_nat (view_pos offset strides index) <> q) ->
             o !! q = out !! q))
    shape strides offset Hn Hmax Hfit Ho ltac:(lia))
    with (k := Z.to_nat (volume shape)) (fuel := fuel)
         (index := replicate (length shape) 0) (s := out)
    as (r & E & HL & HP & HF); [| | | | |rewrite ravel_zeros in E].
  - intros index o Hv (HL & HP & HF).
    rewrite (view_ok_wrap _ _ _ _ _ Hok Hv).
    pose proof (ravel_bounds _ _ Hv) as Hb. specialize (Hin _ Hv) as Hp.
    destruct (read_in a (ravel shape index)) as (v & Ev & Lv); [lia|].
    rewrite Ev. cbn [bind].
    rewrite write_in by (unfold size in *; lia).
    eexists. split; [reflexivity|].
    split; [by rewrite length_insert|]. split.
    + intros index2 Hv2 Hlt Hlast. specialize (Hin _ Hv2) as Hp2.
      destruct (decide (view_pos offset strides index2 = view_pos offset strides index))
        as [Heq|Hne].
      * specialize (Hlast index Hv ltac:(lia) (eq_sym Heq)).
        assert (Hr : ravel shape index2 = ravel shape index) by lia.
        rewrite (ravel_inj _ _ _ Hv2 Hv Hr).
        rewrite list_lookup_insert_eq by (unfold size in *; lia). done.
      * rewrite list_lookup_insert_ne by lia.
        assert (Hr : ravel shape index2 <> ravel shape index).
        { intros Hr. by rewrite (ravel_inj _ _ _ Hv2 Hv Hr) in Hne. }
        apply HP; [done | lia |].
        intros index3 Hv3 Hlt3 Heq3. apply Hlast; [done | lia | done].
    + intros q Hq. rewrite list_lookup_insert_ne by (apply Hq; done). by apply HF.
  - apply in_view_zeros.
  - rewrite ravel_zeros. lia.
  - lia.
  - rewrite ravel_zeros. split; [done|]. split; [|done].
    intros index Hv. pose proof (ravel_bounds _ _ Hv). lia.
  - exists r. split; [done|]. split; [done|]. split; [|done].
    intros index Hv Hlast. pose proof (ravel_bounds _ _ Hv).
    apply HP; [done | lia |]. intros index' Hv' _. by apply Hlast.
Qed.

(** X3.  [EwiseSetitem] stores the element at place [row_major(index)] of
    the compact source at the position [offset + Σ index[d] * strides[d]]
    of the destination, for every multi-index of the shape; where several
    multi-indices share a position the last of them in row-major order
    wins, and every element that is not at a position of the view is left
    as it was. *)
Theorem EwiseSetitem_scatters_row_major {T : Type} (a out : list T)
    (shape strides : list Z) (offset : Z) :
  Forall (fun s => 1 <= s) shape ->
  view_ok out shape strides offset ->
  product shape <= size a ->
  size a <= SIZE_MOD ->
  exists out',
    EwiseSetitem (Z.to_nat (product shape)) a out shape strides offset = Ret out'
    /\ length out' = length out
    /\ (forall index : list Z,
           Forall2 (fun s i => 0 <= i < s) shape index ->
           (forall index' : list Z,
               Forall2 (fun s i => 0 <= i < s) shape index' ->
               lin index' strides = lin index strides ->
               row_major shape index' <= row_major shape index) ->
           out' !! Z.to_nat (offset + lin index strides)
           = a !! Z.to_nat (row_major shape index))
    /\ (forall q : nat,
           (forall index : list Z,
               Forall2 (fun s i => 0 <= i < s) shape index ->
               Z.to_nat (offset + lin index strides) <> q) ->
           out' !! q = out !! q).
Proof.
  intros Hpos Hok Ha Has.
  rewrite <- (volume_product shape Hpos) in *.
  pose proof (volume_pos shape).
  destruct (EwiseSetitem_last_write a out shape strides offset Hok Ha Has
              (Z.to_nat (volume shape))) as (out' & E & HL & HP & HF); [lia|].
  exists out'. split; [done|]. split; [done|]. split.
  - intros index Hv Hlast. rewrite <- (ravel_row_major shape index Hpos).
    apply HP; [by apply in_view_positive|].
    intros index' Hv' Heq. rewrite !ravel_row_major by done.
    apply Hlast; [by apply in_view_bounds|]. unfold view_pos in Heq. lia.
  - intros q Hq. apply HF. intros index Hv. apply Hq. by apply in_view_bounds.
Qed.

(** The compact elements [[0,2,4,1,3,5]] scattered over the transposed
    view of a 2 by 3 matrix. *)
Lemma EwiseSetitem_scatters_row_major_witness :
  EwiseSetitem 6 [0; 2; 4; 1; 3; 5] [9; 9; 9; 9; 9; 9; 9] [2; 3] [1; 2] 0
  = Ret [0; 1; 2; 3; 4; 5; 9]
  /\ exists out',
       EwiseSetitem (Z.to_nat (product [2; 3])) [0; 2; 4; 1; 3; 5] [9; 9; 9; 9; 9; 9; 9]
         [2; 3] [1; 2] 0 = Ret out'
       /\ length out' = 7%nat.
Proof.
  split; [reflexivity|].
  destruct (EwiseSetitem_scatters_row_major [0; 2; 4; 1; 3; 5] [9; 9; 9; 9; 9; 9; 9]
              [2; 3] [1; 2] 0) as (out' & E & HL & _).
  - repeat constructor; lia.
  - unfold view_ok. split; [vm_compute; split; discriminate|].
    split; [repeat constructor; vm_compute; discriminate|].
    split; [repeat constructor; vm_compute; discriminate|].
    split; [lia|]. split; [vm_compute; discriminate|].
    intros index Hv.
    inversion Hv as [|? i ? ? Hi Hv1]; subst.
    inversion Hv1 as [|? j ? ? Hj Hv2]; subst. inversion Hv2; subst.
    unfold view_pos, extent, size in *. simpl in *. lia.
  - vm_compute. discriminate.
  - vm_compute. discriminate.
  - exists out'. auto.
Defined.

(** [ScalarSetitem] with any number [sz] of passes: the counter runs through
    the view again and again. *)
Lemma ScalarSetitem_passes {T : Type} (val : T) (out : list T)
    (shape strides : list Z) (offset sz : Z) :
  view_ok out shape strides offset ->
  0 <= sz ->
  exists out',
    ScalarSetitem sz val out shape strides offset = Ret out'
    /\ length out' = length out
    /\ (forall index : list Z,
           in_view shape index -> ravel shape index < sz ->
           out' !! Z.to_nat (view_pos offset strides index) = Some val)
    /\ (forall q : nat,
           (forall index : list Z,
               in_view shape index -> ravel shape index < sz ->
               Z.to_nat (view_pos offset strides index) <> q) ->
           out' !! q = out !! q).
Proof.
  intros Hok Hsz.
  pose proof (view_ok_offset _ _ _ _ Hok) as Ho.
  pose proof Hok as (Hn & Hmax & Hfit & _ & Ha & Hin).
  pose proof (volume_pos shape) as HV.
  unfold ScalarSetitem.
  match goal with
  | |- exists _, bind (for_range 0 _ ?body ?s0) _ = _ /\ _ =>
    destruct (for_range_inv
      (fun k (st : list Z * list T) =>
         in_view shape st.1
         /\ ravel shape st.1 = k mod volume shape
         /\ length st.2 = length out
         /\ (forall index, in_view shape index -> ravel shape index < k ->
               st.2 !! Z.to_nat (view_pos offset strides index) = Some val)
         /\ (forall q : nat,
               (forall index, in_view shape index -> ravel shape index < k ->
                              Z.to_nat (view_pos offset strides index) <> q) ->
               st.2 !! q = out !! q))
      body 0 sz s0 Hsz) as (st & E & Hv & _ & HL & HP & HF)
  end.
  - simpl. split; [apply in_view_zeros|]. split; [by rewrite ravel_zeros, Z.mod_0_l by lia|].
    split; [done|]. split; [|done].
    intros index Hv. pose proof (ravel_bounds _ _ Hv). lia.
  - intros k [index o] Hk (Hv & Hr & HL & HP & HF). simpl in *.
    rewrite position_lin by done. cbn [bind].
    rewrite (view_ok_wrap _ _ _ _ _ Hok Hv).
    specialize (Hin _ Hv) as Hp.
    rewrite write_in by (unfold size in *; lia). cbn [bind].
    rewrite (carry_noreturn_carry _ _ _ _ (incr shape index)).
    + cbn [bind]. eexists. split; [reflexivity|]. simpl.
      destruct (incr_next _ _ Hv) as [Hv' Hr'].
      pose proof (ravel_bounds _ _ Hv) as Hb.
      pose proof (ravel_bounds _ _ Hv') as Hb'.
      pose proof (Z.div_mod k (volume shape) ltac:(lia)) as Hdm.
      split; [done|]. split.
      { destruct (incr shape index) as [index' c]; simpl in *.
        destruct c.
        - apply (Z.mod_unique _ _ (k / volume shape + 1)); lia.
        - apply (Z.mod_unique _ _ (k / volume shape)); lia. }
      split; [by rewrite length_insert|]. split.
      * intros index2 Hv2 Hlt. specialize (Hin _ Hv2) as Hp2.
        destruct (decide (view_pos offset strides index2 = view_pos offset strides index))
          as [Heq|Hne].
        -- rewrite Heq. apply list_lookup_insert_eq. unfold size in *. lia.
        -- rewrite list_lookup_insert_ne by lia. apply HP; [done|].
           destruct (decide (ravel shape index2 = k)) as [Hr2|Hr2]; [|lia].
           pose proof (ravel_bounds _ _ Hv2) as Hb2.
           rewrite Z.mod_small in Hr by lia.
           rewrite <- Hr in Hr2. by rewrite (ravel_inj _ _ _ Hv2 Hv Hr2) in Hne.
      * intros q Hq. rewrite list_lookup_insert_ne.
        -- apply HF. intros index2 Hv2 Hlt. apply Hq; [done | lia].
        -- apply Hq; [done|]. pose proof (Z.mod_pos_bound k (volume shape) ltac:(lia)).
           assert (k mod volume shape <= k) by (apply Z.mod_le; lia). lia.
    + rewrite first_dim_rank by done. lia.
    + by apply carry_whole.
  - rewrite E. cbn [bind]. exists st.2. done.
Qed.

(** X4.  [ScalarSetitem] with [size] passes stores the value at the
    positions of the first [size] multi-indices of the shape in row-major
    order and leaves every other element as it was: nothing changes for
    [size = 0], the whole view is set for [size = product(shape)], and a
    larger [size] sets nothing more. *)
Theorem ScalarSetitem_sets_first_positions {T : Type} (val : T) (out : list T)
    (shape strides : list Z) (offset sz : Z) :
  Forall (fun s => 1 <= s) shape ->
  view_ok out shape strides offset ->
  0 <= sz ->
  exists out',
    ScalarSetitem sz val out shape strides offset = Ret out'
    /\ length out' = length out
    /\ (forall index : list Z,
           Forall2 (fun s i => 0 <= i < s) shape index ->
           row_major shape index < sz ->
           out' !! Z.to_nat (offset + lin index strides) = Some val)
    /\ (forall q : nat,
           (forall index : list Z,
               Forall2 (fun s i => 0 <= i < s) shape index ->
               row_major shape index < sz ->
               Z.to_nat (offset + lin index strides) <> q) ->
           out' !! q = out !! q)
    /\ (sz = 0 -> out' = out).
Proof.
  intros Hpos Hok Hsz.
  destruct (ScalarSetitem_passes val out shape strides offset sz Hok Hsz)
    as (out' & E & HL & HP & HF).
  exists out'. split; [done|]. split; [done|]. split; [|split].
  - intros index Hv Hlt. apply HP; [by apply in_view_positive|].
    by rewrite ravel_row_major.
  - intros q Hq. apply HF. intros index Hv Hlt. apply Hq; [by apply in_view_bounds|].
    by rewrite <- ravel_row_major.
  - intros ->. apply list_eq. intros q. apply HF.
    intros index Hv Hlt. pose proof (ravel_bounds _ _ Hv). lia.
Qed.

(** The first four elements of the transposed view of a 2 by 3 matrix. *)
Lemma ScalarSetitem_sets_first_positions_witness :
  ScalarSetitem 4 7 [0; 0; 0; 0; 0; 0] [2; 3] [1; 2] 0 = Ret [7; 7; 7; 0; 7; 0]
  /\ ScalarSetitem 6 7 [0; 0; 0; 0; 0; 0] [2; 3] [1; 2] 0 = Ret [7; 7; 7; 7; 7; 7]
  /\ ScalarSetitem 9 7 [0; 0; 0; 0; 0; 0] [2; 3] [1; 2] 0 = Ret [7; 7; 7; 7; 7; 7]
  /\ exists out',
       ScalarSetitem 4 7 [0; 0; 0; 0; 0; 0] [2; 3] [1; 2] 0 = Ret out'
       /\ length out' = 6%nat.
Proof.
  split; [reflexivity|]. split; [reflexivity|]. split; [reflexivity|].
  destruct (ScalarSetitem_sets_first_positions 7 [0; 0; 0; 0; 0; 0] [2; 3] [1; 2] 0 4)
    as (out' & E & HL & _).
  - repeat constructor; lia.
  - apply view_ok_transposed. reflexivity.
  - lia.
  - exists out'. auto.
Defined.

(** X5.  On a view without a dimension [ScalarSetitem] returns: with at
    least one pass it stores the value at [offset] and changes nothing
    else, whatever the strides hold. *)
Theorem ScalarSetitem_rank0_writes_offset {T : Type} (val : T) (out : list T)
    (strides : list Z) (offset sz : Z) :
  0 <= offset < size out ->
  1 <= sz ->
  ScalarSetitem sz val out [] strides offset = Ret (<[Z.to_nat offset := val]> out).
Proof.
  intros Ho Hsz. unfold ScalarSetitem.
  match goal with
  | |- bind (for_range 0 _ ?body ?s0) _ = _ =>
    destruct (for_range_inv
      (fun k (st : list Z * list T) =>
         st.1 = []
         /\ (k = 0 -> st.2 = out)
         /\ (1 <= k -> st.2 = <[Z.to_nat offset := val]> out))
      body 0 sz s0 ltac:(lia)) as (st & E & _ & _ & Hst)
  end.
  - simpl. split; [done|]. split; [done | lia].
  - intros k [index o] Hk (-> & H0 & H1). simpl in *.
    change (position (size []) [] strides offset) with (Ret (A:=Z) offset). cbn [bind].
    change (carry_noreturn (Z.to_nat (first_dim (size []) + 1)) (first_dim (size [])) [] [])
      with (Ret (A:=list Z) []).
    assert (Hlen : size o = size out).
    { destruct (Z.eq_dec k 0) as [Hk0|Hk0].
      - by rewrite H0.
      - rewrite H1 by lia. unfold size. by rewrite length_insert. }
    rewrite write_in by lia. cbn [bind].
    eexists. split; [reflexivity|]. simpl. split; [done|]. split; [lia|].
    intros _. destruct (Z.eq_dec k 0) as [Hk0|Hk0].
    + by rewrite H0.
    + rewrite H1 by lia. apply list_insert_insert_eq.
  - rewrite E. cbn [bind]. f_equal. apply Hst. lia.
Qed.

Lemma ScalarSetitem_rank0_writes_offset_witness :
  ScalarSetitem 1 7 [1; 2; 3] [] [] 2 = Ret [1; 2; 7].
Proof.
  apply (ScalarSetitem_rank0_writes_offset 7 [1; 2; 3] [] 2 1).
  - vm_compute. split; [discriminate | reflexivity].
  - lia.
Defined.

(** Every place below the number of multi-indices is the place of a
    multi-index. *)
Lemma ravel_surj (shape : list Z) :
  forall k : Z, 0 <= k < volume shape ->
    exists index, in_view shape index /\ ravel shape index = k.
Proof.
  induction shape as [|s shape IH]; intros k Hk; simpl in *.
  - exists []. split; [constructor | lia].
  - pose proof (volume_pos shape) as HV. pose proof (extent_pos s) as He.
    destruct (IH (k mod volume shape)) as (index & Hv & Hr).
    { apply Z.mod_pos_bound. lia. }
    exists (k / volume shape :: index). split.
    + constructor; [|done]. split.
      * apply Z.div_pos; lia.
      * apply Z.div_lt_upper_bound; lia.
    + simpl. rewrite Hr. pose proof (Z.div_mod k (volume shape) ltac:(lia)). lia.
Qed.

Lemma view_ok_length {T : Type} (a a' : list T) (shape strides : list Z) (offset : Z) :
  view_ok a shape strides offset -> length a' = length a -> view_ok a' shape strides offset.
Proof.
  intros (Hn & Hmax & Hfit & Ho & Ha & Hin) HL. unfold view_ok, size in *.
  rewrite HL. done.
Qed.

(** X6.  Scattering a compact buffer over a view whose multi-indices have
    different positions and compacting that view again gives the compact
    buffer back: the first [product(shape)] elements of the result are those
    of the buffer that was scattered, and the elements after them are those
    the destination of [Compact] held. *)
Theorem Compact_after_EwiseSetitem {T : Type} (c buf out : list T)
    (shape strides : list Z) (offset : Z) :
  Forall (fun s => 1 <= s) shape ->
  view_ok buf shape strides offset ->
  (forall index index' : list Z,
      Forall2 (fun s i => 0 <= i < s) shape index ->
      Forall2 (fun s i => 0 <= i < s) shape index' ->
      lin index strides = lin index' strides -> index = index') ->
  product shape <= size c -> size c <= SIZE_MOD ->
  product shape <= size out -> size out <= SIZE_MOD ->
  exists buf' out',
    EwiseSetitem (Z.to_nat (product shape)) c buf shape strides offset = Ret buf'
    /\ Compact (Z.to_nat (product shape)) buf' out shape strides offset = Ret out'
    /\ length out' = length out
    /\ (forall k : nat, Z.of_nat k < product shape -> out' !! k = c !! k)
    /\ (forall k : nat, product shape <= Z.of_nat k -> out' !! k = out !! k).
Proof.
  intros Hpos Hok Hinj Hc Hcs Hout Houts.
  rewrite <- (volume_product shape Hpos) in *.
  pose proof (volume_pos shape).
  destruct (EwiseSetitem_last_write c buf shape strides offset Hok Hc Hcs
              (Z.to_nat (volume shape))) as (buf' & E1 & HL1 & HP1 & _); [lia|].
  destruct (Compact_row_major buf' out shape strides offset
              (view_ok_length _ _ _ _ _ Hok HL1) Hout Houts (Z.to_nat (volume shape)))
    as (out' & E2 & HL2 & HP2 & HF2); [lia|].
  exists buf', out'. split; [done|]. split; [done|]. split; [done|]. split; [|done].
  intros k Hk.
  destruct (ravel_surj shape (Z.of_nat k)) as (index & Hv & Hr); [lia|].
  rewrite <- (Nat2Z.id k), <- Hr.
  rewrite (HP2 index Hv). apply HP1; [done|].
  intros index' Hv' Heq.
  rewrite (Hinj index' index); [lia | by apply in_view_bounds | by apply in_view_bounds |].
  unfold view_pos in Heq. lia.
Qed.

Lemma transposed_positions_differ (index index' : list Z) :
  Forall2 (fun s i => 0 <= i < s) [2; 3] index ->
  Forall2 (fun s i => 0 <= i < s) [2; 3] index' ->
  lin index [1; 2] = lin index' [1; 2] -> index = index'.
Proof.
  intros Hv Hv'.
  inversion Hv as [|? i ? ? Hi Hv1]; subst.
  inversion Hv1 as [|? j ? ? Hj Hv2]; subst. inversion Hv2; subst.
  inversion Hv' as [|? i' ? ? Hi' Hv1']; subst.
  inversion Hv1' as [|? j' ? ? Hj' Hv2']; subst. inversion Hv2'; subst.
  simpl. intros E. assert (i = i') by lia. assert (j = j') by lia. by subst.
Qed.

(** Six elements scattered over the transposed view of a 2 by 3 matrix and
    gathered again. *)
Lemma Compact_after_EwiseSetitem_witness :
  EwiseSetitem 6 [10; 11; 12; 13; 14; 15] [0; 0; 0; 0; 0; 0] [2; 3] [1; 2] 0
  = Ret [10; 13; 11; 14; 12; 15]
  /\ Compact 6 [10; 13; 11; 14; 12; 15] [0; 0; 0; 0; 0; 0; 9] [2; 3] [1; 2] 0
     = Ret [10; 11; 12; 13; 14; 15; 9]
  /\ exists buf' out',
       EwiseSetitem (Z.to_nat (product [2; 3])) [10; 11; 12; 13; 14; 15] [0; 0; 0; 0; 0; 0]
         [2; 3] [1; 2] 0 = Ret buf'
       /\ Compact (Z.to_nat (product [2; 3])) buf' [0; 0; 0; 0; 0; 0; 9] [2; 3] [1; 2] 0
          = Ret out'
       /\ length out' = 7%nat.
Proof.
  split; [reflexivity|]. split; [reflexivity|].
  destruct (Compact_after_EwiseSetitem [10; 11; 12; 13; 14; 15] [0; 0; 0; 0; 0; 0]
              [0; 0; 0; 0; 0; 0; 9] [2; 3] [1; 2] 0) as (buf' & out' & E1 & E2 & HL & _).
  - repeat constructor; lia.
  - apply view_ok_transposed. reflexivity.
  - apply transposed_positions_differ.
  - vm_compute. discriminate.
  - vm_compute. discriminate.
  - vm_compute. discriminate.
  - vm_compute. discriminate.
  - exists buf', out'. auto.
Defined.

(** X7.  Compacting a view that [ScalarSetitem] has just set gives the
    value in each of the first [product(shape)] elements. *)
Theorem Compact_after_ScalarSetitem {T : Type} (val : T) (buf out : list T)
    (shape strides : list Z) (offset : Z) :
  Forall (fun s => 1 <= s) shape ->
  view_ok buf shape strides offset ->
  product shape <= size out -> size out <= SIZE_MOD ->
  exists buf' out',
    ScalarSetitem (product shape) val buf shape strides offset = Ret buf'
    /\ Compact (Z.to_nat (product shape)) buf' out shape strides offset = Ret out'
    /\ out' = replicate (Z.to_nat (product shape)) val
              ++ drop (Z.to_nat (product shape)) out.
Proof.
  intros Hpos Hok Hout Houts.
  rewrite <- (volume_product shape Hpos) in *.
  pose proof (volume_pos shape).
  destruct (ScalarSetitem_passes val buf shape strides offset (volume shape) Hok)
    as (buf' & E1 & HL1 & HP1 & _); [lia|].
  destruct (Compact_row_major buf' out shape strides offset
              (view_ok_length _ _ _ _ _ Hok HL1) Hout Houts (Z.to_nat (volume shape)))
    as (out' & E2 & HL2 & HP2 & HF2); [lia|].
  exists buf', out'. split; [done|]. split; [done|].
  apply list_eq. intros k.
  destruct (Z.lt_ge_cases (Z.of_nat k) (volume shape)) as [Hk|Hk].
  - rewrite lookup_app_l by (rewrite length_replicate; lia).
    rewrite lookup_replicate_2 by lia.
    destruct (ravel_surj shape (Z.of_nat k)) as (index & Hv & Hr); [lia|].
    rewrite <- (Nat2Z.id k), <- Hr.
    rewrite (HP2 index Hv). apply HP1; [done|]. pose proof (ravel_bounds _ _ Hv). lia.
  - rewrite lookup_app_r by (rewrite length_replicate; lia).
    rewrite length_replicate, lookup_drop.
    rewrite HF2 by lia. f_equal. lia.
Qed.

Lemma Compact_after_ScalarSetitem_witness :
  exists buf' out',
    ScalarSetitem (product [2; 3]) 7 [1; 2; 3; 4; 5; 6] [2; 3] [1; 2] 0 = Ret buf'
    /\ Compact (Z.to_nat (product [2; 3])) buf' [0; 0; 0; 0; 0; 0; 9] [2; 3] [1; 2] 0
       = Ret out'
    /\ out' = [7; 7; 7; 7; 7; 7; 9].
Proof.
  apply (Compact_after_ScalarSetitem 7 [1; 2; 3; 4; 5; 6] [0; 0; 0; 0; 0; 0; 9]
           [2; 3] [1; 2] 0).
  - repeat constructor; lia.
  - apply view_ok_transposed. reflexivity.
  - vm_compute. discriminate.
  - vm_compute. discriminate.
Defined.

Lemma lin_compact_strides (shape index : list Z) :
  lin index (compact_strides shape) = row_major shape index.
Proof.
  revert index. induction shape as [|s shape IH]; intros [|i index]; simpl; try done.
  by rewrite IH.
Qed.

Lemma product_pos (shape : list Z) : Forall (fun s => 1 <= s) shape -> 1 <= product shape.
Proof. intros Hpos. rewrite <- (volume_product shape Hpos). apply volume_pos. Qed.

Lemma compact_strides_fit (shape : list Z) :
  Forall (fun s => 1 <= s) shape -> product shape <= INT_MAX ->
  strides_fit shape (compact_strides shape).
Proof.
  induction 1 as [|s shape Hs Hpos IH]; intros Hmax; simpl; [constructor|].
  pose proof (product_pos shape Hpos) as Hp.
  change (product (s :: shape)) with (s * product shape) in Hmax.
  constructor.
  - unfold extent, INT_MIN, INT_MAX in *. nia.
  - apply IH. nia.
Qed.

Lemma Forall_le_product (shape : list Z) :
  Forall (fun s => 1 <= s) shape -> Forall (fun s => s <= product shape) shape.
Proof.
  induction 1 as [|s shape Hs Hpos IH]; [constructor|].
  pose proof (product_pos shape Hpos) as Hp.
  change (product (s :: shape)) with (s * product shape).
  constructor; [nia|]. eapply Forall_impl; [exact IH|]. simpl. intros x Hx. nia.
Qed.

(** A view with compact strides lies in a buffer that holds
    [product(shape)] elements from [offset] on. *)
Lemma view_ok_compact {T : Type} (a : list T) (shape : list Z) (offset : Z) :
  Forall (fun s => 1 <= s) shape ->
  1 <= size shape <= INT_MAX ->
  product shape <= INT_MAX ->
  0 <= offset -> offset + product shape <= size a -> size a <= SIZE_MOD ->
  view_ok a shape (compact_strides shape) offset.
Proof.
  intros Hpos Hn Hmax Ho Ha Has. unfold view_ok.
  split; [done|]. split.
  { eapply Forall_impl; [apply (Forall_le_product shape Hpos)|]. simpl. intros; lia. }
  split; [by apply compact_strides_fit|]. split; [done|]. split; [done|].
  intros index Hv. unfold view_pos. rewrite lin_compact_strides.
  rewrite <- ravel_row_major by done.
  pose proof (ravel_bounds _ _ Hv). rewrite volume_product in * by done. lia.
Qed.

(** X8.  On compact strides [Compact] is a block copy: the first
    [product(shape)] elements of the result are the elements
    [a[offset .. offset + product(shape) - 1]] in their order, and the
    elements after them are those the destination held. *)
Theorem Compact_of_compact_strides_copies {T : Type} (a out : list T)
    (shape : list Z) (offset : Z) :
  Forall (fun s => 1 <= s) shape ->
  1 <= size shape <= INT_MAX ->
  product shape <= INT_MAX ->
  0 <= offset -> offset + product shape <= size a -> size a <= SIZE_MOD ->
  product shape <= size out -> size out <= SIZE_MOD ->
  Compact (Z.to_nat (product shape)) a out shape (compact_strides shape) offset
  = Ret (take (Z.to_nat (product shape)) (drop (Z.to_nat offset) a)
         ++ drop (Z.to_nat (product shape)) out).
Proof.
  intros Hpos Hn Hmax Ho Ha Has Hout Houts.
  pose proof (view_ok_compact a shape offset Hpos Hn Hmax Ho Ha Has) as Hok.
  pose proof (product_pos shape Hpos) as Hp.
  rewrite <- (volume_product shape Hpos) in *.
  destruct (Compact_row_major a out shape (compact_strides shape) offset Hok Hout Houts
              (Z.to_nat (volume shape))) as (out' & E & HL & HP & HF); [lia|].
  rewrite E. f_equal. apply list_eq. intros k.
  destruct (Z.lt_ge_cases (Z.of_nat k) (volume shape)) as [Hk|Hk].
  - rewrite lookup_app_l by (rewrite length_take, length_drop; unfold size in *; lia).
    rewrite lookup_take_lt by lia. rewrite lookup_drop.
    destruct (ravel_surj shape (Z.of_nat k)) as (index & Hv & Hr); [lia|].
    rewrite <- (Nat2Z.id k) at 1. rewrite <- Hr. rewrite (HP index Hv).
    unfold view_pos. rewrite lin_compact_strides, <- ravel_row_major, Hr by done.
    f_equal. lia.
  - rewrite lookup_app_r by (rewrite length_take, length_drop; unfold size in *; lia).
    rewrite length_take, length_drop, lookup_drop.
    rewrite HF by lia. f_equal. unfold size in *. lia.
Qed.

(** A 2 by 3 block from the second element on. *)
Lemma Compact_of_compact_strides_copies_witness :
  compact_strides [2; 3] = [3; 1]
  /\ Compact (Z.to_nat (product [2; 3])) [9; 0; 1; 2; 3; 4; 5; 9] [7; 7; 7; 7; 7; 7; 7]
       [2; 3] (compact_strides [2; 3]) 1
     = Ret [0; 1; 2; 3; 4; 5; 7].
Proof.
  split; [reflexivity|].
  apply (Compact_of_compact_strides_copies [9; 0; 1; 2; 3; 4; 5; 9] [7; 7; 7; 7; 7; 7; 7]
           [2; 3] 1).
  - repeat constructor; lia.
  - vm_compute. split; discriminate.
  - vm_compute. discriminate.
  - lia.
  - vm_compute. discriminate.
  - vm_compute. discriminate.
  - vm_compute. discriminate.
  - vm_compute. discriminate.
Defined.

(** Every visit of a traversal that has returned has returned. *)
Lemma strided_loop_passes {St : Type} (visit : Z -> Z -> St -> res St) (Inv : Z -> St -> Prop)
    (shape strides : list Z) (offset : Z) :
  1 <= size shape <= INT_MAX ->
  Forall (fun s => s <= INT_MAX) shape ->
  strides_fit shape strides ->
  0 <= offset < SIZE_MOD ->
  volume shape <= SIZE_MOD ->
  (forall (index : list Z) (s s' : St),
      in_view shape index -> Inv (ravel shape index) s ->
      visit (ravel shape index) (wrap64 (view_pos offset strides index)) s = Ret s' ->
      Inv (ravel shape index + 1) s') ->
  forall (fuel : nat) (index : list Z) (s s' : St),
    in_view shape index ->
    Inv (ravel shape index) s ->
    strided_loop visit fuel shape strides offset (ravel shape index) index s = Ret s' ->
    forall index2 : list Z,
      in_view shape index2 -> ravel shape index <= ravel shape index2 ->
      exists s0 s1,
        Inv (ravel shape index2) s0
        /\ visit (ravel shape index2) (wrap64 (view_pos offset strides index2)) s0 = Ret s1.
Proof.
  intros Hn Hmax Hfit Ho HV Hvisit.
  induction fuel as [|fuel IH]; intros index s s' Hv Hs E index2 Hv2 Hle; [discriminate|].
  cbn [strided_loop] in E.
  rewrite position_lin in E by done. cbn [bind] in E.
  apply bind_Ret in E as (s1 & E1 & E).
  rewrite carry_whole in E by done. cbn [bind] in E.
  destruct (decide (ravel shape index2 = ravel shape index)) as [Heq|Hne].
  { rewrite (ravel_inj _ _ _ Hv2 Hv Heq). eauto. }
  pose proof (Hvisit _ _ _ Hv Hs E1) as H1.
  destruct (incr_next _ _ Hv) as [Hv' Hr].
  destruct (incr shape index) as [index' c]; simpl in *.
  pose proof (ravel_bounds _ _ Hv). pose proof (ravel_bounds _ _ Hv').
  pose proof (ravel_bounds _ _ Hv2).
  destruct c; [lia|].
  rewrite wrap64_small in E by lia.
  assert (Heq : ravel shape index + 1 = ravel shape index') by lia.
  rewrite Heq in H1, E.
  apply (IH index' s1 s' Hv' H1 E index2 Hv2). lia.
Qed.

Lemma Forall2_bounds_in_view (shape index : list Z) :
  Forall (fun s => 1 <= s <= INT_MAX) shape ->
  in_view shape index <-> Forall2 (fun s i => 0 <= i < s) shape index.
Proof.
  intros Hs. destruct (Forall_positive_bounded _ Hs) as [Hpos _].
  split; [by apply in_view_bounds | by apply in_view_positive].
Qed.

(** X9.  Neither [Compact] nor [EwiseSetitem] checks a bound.  On a view
    with at least one dimension, positive extents and positions that are
    not negative, [Compact] returns exactly when the destination has
    [product(shape)] elements and every position of the view is inside the
    source, and [EwiseSetitem] exactly when the compact source has
    [product(shape)] elements and every position of the view is inside the
    destination. *)
Theorem strided_copies_return_iff_in_bounds {T : Type} (a out : list T)
    (shape strides : list Z) (offset : Z) :
  1 <= size shape <= INT_MAX ->
  Forall (fun s => 1 <= s <= INT_MAX) shape ->
  strides_fit shape strides ->
  (forall index : list Z,
      Forall2 (fun s i => 0 <= i < s) shape index ->
      0 <= offset + lin index strides < SIZE_MOD) ->
  product shape <= SIZE_MOD ->
  size a <= SIZE_MOD -> size out <= SIZE_MOD ->
  ((exists out', Compact (Z.to_nat (product shape)) a out shape strides offset = Ret out')
   <-> product shape <= size out
       /\ forall index : list Z,
            Forall2 (fun s i => 0 <= i < s) shape index ->
            offset + lin index strides < size a)
  /\ ((exists out', EwiseSetitem (Z.to_nat (product shape)) a out shape strides offset
                    = Ret out')
      <-> product shape <= size a
          /\ forall index : list Z,
               Forall2 (fun s i => 0 <= i < s) shape index ->
               offset + lin index strides < size out).
Proof.
  intros Hn Hs Hfit Hnonneg HVm Has Houts.
  destruct (Forall_positive_bounded _ Hs) as [Hpos Hmax].
  rewrite <- (volume_product shape Hpos) in *.
  pose proof (volume_pos shape) as HV.
  assert (Ho : 0 <= offset < SIZE_MOD).
  { specialize (Hnonneg _ (in_view_bounds _ _ Hpos (in_view_zeros shape))).
    by rewrite lin_zeros, Z.add_0_r in Hnonneg. }
  assert (Hwrap : forall index, in_view shape index ->
            wrap64 (view_pos offset strides index) = offset + lin index strides).
  { intros index Hv. apply wrap64_small. apply Hnonneg. by apply in_view_bounds. }
  assert (Hlast : exists index, in_view shape index /\ ravel shape index = volume shape - 1).
  { apply ravel_surj. lia. }
  assert (Hok : forall buf : list T,
            size buf <= SIZE_MOD ->
            (forall index : list Z,
                Forall2 (fun s i => 0 <= i < s) shape index ->
                offset + lin index strides < size buf) ->
            view_ok buf shape strides offset).
  { intros buf Hbs Hb. unfold view_ok. split; [done|]. split; [done|]. split; [done|].
    split; [lia|]. split; [done|]. intros index Hv. unfold view_pos.
    apply in_view_bounds in Hv; [|done]. specialize (Hnonneg _ Hv). specialize (Hb _ Hv).
    lia. }
  split; split.
  - intros [out' E]. unfold Compact in E.
    rewrite <- (ravel_zeros shape) in E at 1.
    pose proof (strided_loop_passes
      (fun cnt pos o => let* v := read a pos in write o cnt v)
      (fun _ o => length o = length out)
      shape strides offset Hn Hmax Hfit Ho ltac:(lia)) as P.
    specialize (P ltac:(intros index s s' _ HL Eb;
                        apply bind_Ret in Eb as (v & _ & Eb);
                        apply write_inv in Eb as [_ ->];
                        by rewrite length_insert)).
    specialize (P _ _ _ _ (in_view_zeros shape) eq_refl E).
    split.
    + destruct Hlast as (index & Hv & Hr).
      destruct (P index Hv) as (s0 & s1 & HL & Eb).
      { rewrite ravel_zeros. pose proof (ravel_bounds _ _ Hv). lia. }
      apply bind_Ret in Eb as (v & _ & Eb). apply write_inv in Eb as [Hw _].
      unfold size in *. lia.
    + intros index Hv. apply in_view_positive in Hv; [|done].
      destruct (P index Hv) as (s0 & s1 & HL & Eb).
      { rewrite ravel_zeros. pose proof (ravel_bounds _ _ Hv). lia. }
      apply bind_Ret in Eb as (v & Ev & _). apply read_inv in Ev as [Hr _].
      rewrite (Hwrap _ Hv) in Hr. lia.
  - intros [Hout Hin].
    destruct (Compact_row_major a out shape strides offset (Hok a Has Hin) Hout Houts
                (Z.to_nat (volume shape))) as (out' & E & _); [lia|]. eauto.
  - intros [out' E]. unfold EwiseSetitem in E.
    rewrite <- (ravel_zeros shape) in E at 1.
    pose proof (strided_loop_passes
      (fun cnt pos o => let* v := read a cnt in write o pos v)
      (fun _ o => length o = length out)
      shape strides offset Hn Hmax Hfit Ho ltac:(lia)) as P.
    specialize (P ltac:(intros index s s' _ HL Eb;
                        apply bind_Ret in Eb as (v & _ & Eb);
                        apply write_inv in Eb as [_ ->];
                        by rewrite length_insert)).
    specialize (P _ _ _ _ (in_view_zeros shape) eq_refl E).
    split.
    + destruct Hlast as (index & Hv & Hr).
      destruct (P index Hv) as (s0 & s1 & HL & Eb).
      { rewrite ravel_zeros. pose proof (ravel_bounds _ _ Hv). lia. }
      apply bind_Ret in Eb as (v & Ev & _). apply read_inv in Ev as [Hrd _]. lia.
    + intros index Hv. apply in_view_positive in Hv; [|done].
      destruct (P index Hv) as (s0 & s1 & HL & Eb).
      { rewrite ravel_zeros. pose proof (ravel_bounds _ _ Hv). lia. }
      apply bind_Ret in Eb as (v & _ & Eb). apply write_inv in Eb as [Hw _].
      rewrite (Hwrap _ Hv) in Hw. unfold size in *. lia.
  - intros [Ha Hin].
    destruct (EwiseSetitem_last_write a out shape strides offset (Hok out Houts Hin) Ha Has
                (Z.to_nat (volume shape))) as (out' & E & _); [lia|]. eauto.
Qed.

(** The transposed view of a 2 by 3 matrix does not fit a source of five
    elements. *)
Lemma strided_copies_return_iff_in_bounds_witness :
  Compact 6 [0; 1; 2; 3; 4] [9; 9; 9; 9; 9; 9] [2; 3] [1; 2] 0 = UB
  /\ ~ (exists out', Compact (Z.to_nat (product [2; 3])) [0; 1; 2; 3; 4] [9; 9; 9; 9; 9; 9]
                       [2; 3] [1; 2] 0 = Ret out').
Proof.
  split; [reflexivity|].
  destruct (strided_copies_return_iff_in_bounds [0; 1; 2; 3; 4] [9; 9; 9; 9; 9; 9]
              [2; 3] [1; 2] 0) as [[P _] _].
  - vm_compute. split; discriminate.
  - repeat constructor; vm_compute; discriminate.
  - repeat constructor; vm_compute; discriminate.
  - intros index Hv.
    inversion Hv as [|? i ? ? Hi Hv1]; subst.
    inversion Hv1 as [|? j ? ? Hj Hv2]; subst. inversion Hv2; subst.
    simpl. unfold SIZE_MOD. lia.
  - vm_compute. discriminate.
  - vm_compute. discriminate.
  - vm_compute. discriminate.
  - intros Hex. apply P in Hex as [_ Hin].
    specialize (Hin [1; 2] ltac:(repeat constructor; lia)).
    vm_compute in Hin. discriminate.
Defined.

(** ** Further properties of the operators *)

(** Every pass of a loop that has returned has returned. *)
Lemma for_loop_passes {St : Type} (Inv : Z -> St -> Prop) (body : Z -> St -> res St)
    (step : Z) :
  forall (n : nat) (i : Z) (s s' : St),
    for_loop n i step body s = Ret s' ->
    Inv i s ->
    (forall (k : nat) (s0 s1 : St),
        (k < n)%nat -> Inv (i + Z.of_nat k * step) s0 ->
        body (i + Z.of_nat k * step) s0 = Ret s1 ->
        Inv (i + (Z.of_nat k + 1) * step) s1) ->
    forall k : nat, (k < n)%nat ->
      exists s0 s1, Inv (i + Z.of_nat k * step) s0 /\ body (i + Z.of_nat k * step) s0 = Ret s1.
Proof.
  induction n as [|n IH]; intros i s s' E Hs Hbody k Hk; [lia|].
  simpl in E. apply bind_Ret in E as (s1 & E1 & E).
  destruct k as [|k].
  - exists s, s1. by replace (i + Z.of_nat 0 * step) with i by lia.
  - replace (i + Z.of_nat (S k) * step) with (i + step + Z.of_nat k * step) by lia.
    apply (IH (i + step) s1 s' E); [| |lia].
    + replace (i + step) with (i + (Z.of_nat 0 + 1) * step) by lia.
      apply (Hbody O s s1); [lia | by replace (i + Z.of_nat 0 * step) with i by lia |].
      by replace (i + Z.of_nat 0 * step) with i by lia.
    + intros j s0 s2 Hj Hs0 E2.
      replace (i + step + (Z.of_nat j + 1) * step)
        with (i + (Z.of_nat (S j) + 1) * step) by lia.
      apply (Hbody (S j) s0 s2); [lia | |].
      * by replace (i + Z.of_nat (S j) * step) with (i + step + Z.of_nat j * step) by lia.
      * by replace (i + Z.of_nat (S j) * step) with (i + step + Z.of_nat j * step) by lia.
Qed.

Lemma for_range_passes {St : Type} (Inv : Z -> St -> Prop) (body : Z -> St -> res St)
    (lo hi : Z) (s s' : St) :
  for_range lo hi body s = Ret s' ->
  Inv lo s ->
  (forall (k : Z) (s0 s1 : St),
      lo <= k < hi -> Inv k s0 -> body k s0 = Ret s1 -> Inv (k + 1) s1) ->
  forall k : Z, lo <= k < hi -> exists s0 s1, Inv k s0 /\ body k s0 = Ret s1.
Proof.
  intros E Hs Hbody k Hk. unfold for_range in E.
  destruct (for_loop_passes Inv body 1 _ _ _ _ E Hs) with (k := Z.to_nat (k - lo))
    as (s0 & s1 & H0 & E1).
  - intros j s0 s1 Hj Hs0 E1.
    replace (lo + (Z.of_nat j + 1) * 1) with (lo + Z.of_nat j * 1 + 1) by lia.
    apply (Hbody _ s0 s1); [lia | done | done].
  - lia.
  - replace (lo + Z.of_nat (Z.to_nat (k - lo)) * 1) with k in * by lia. eauto.
Qed.

(** A loop that stores one value per pass at the place of its counter
    returns only if the buffer has a place for every pass. *)
Lemma prefix_loop_room {T : Type} (n : Z) (body : Z -> list T -> res (list T))
    (out out' : list T) :
  1 <= n ->
  (forall (i : Z) (o o' : list T),
      0 <= i < n -> body i o = Ret o' -> 0 <= i < size o /\ length o' = length o) ->
  for_range 0 n body out = Ret out' ->
  n <= size out
  /\ exists o o', length o = length out /\ body (n - 1) o = Ret o'.
Proof.
  intros Hn Hbody E.
  destruct (for_range_passes (fun _ o => length o = length out) body 0 n out out' E eq_refl)
    with (k := n - 1) as (o & o' & HL & Eb).
  - intros k s0 s1 Hk HL Eb. destruct (Hbody k s0 s1 Hk Eb) as [_ HL']. congruence.
  - lia.
  - destruct (Hbody (n - 1) o o' ltac:(lia) Eb) as [Hi _].
    split; [unfold size in *; lia | eauto].
Qed.

Section OperatorRoom.
Context {T : Type} `{Scalar T} `{Libm T}.

Lemma ewise_room (opr : T -> T -> T) (a b out : list T) :
  (exists out', DEFINE_EWISE_FUNC opr a b out = Ret out')
  <-> size a <= size b /\ size a <= size out.
Proof.
  split.
  - intros [out' E]. unfold DEFINE_EWISE_FUNC in E.
    destruct (Z.le_gt_cases (size a) 0) as [Ha|Ha].
    { pose proof (size_nonneg b). pose proof (size_nonneg out). lia. }
    apply prefix_loop_room in E as (Ho & o & o' & HL & Eb); [|lia|].
    + apply bind_Ret in Eb as (x & _ & Eb). apply bind_Ret in Eb as (y & Ey & _).
      apply read_inv in Ey as [Hy _]. lia.
    + intros i o o' Hi Eb.
      apply bind_Ret in Eb as (x & _ & Eb). apply bind_Ret in Eb as (y & _ & Eb).
      apply write_inv in Eb as [Hw ->]. by rewrite length_insert.
  - intros [Hb Ho]. destruct (ewise_prefix opr a b out Hb Ho) as (out' & E & _). eauto.
Qed.

Lemma scalar_room (opr : T -> T -> T) (a : list T) (val : T) (out : list T) :
  (exists out', DEFINE_SCALAR_FUNC opr a val out = Ret out') <-> size a <= size out.
Proof.
  split.
  - intros [out' E]. unfold DEFINE_SCALAR_FUNC in E.
    destruct (Z.le_gt_cases (size a) 0) as [Ha|Ha].
    { pose proof (size_nonneg out). lia. }
    apply prefix_loop_room in E as (Ho & _); [done | lia |].
    intros i o o' Hi Eb.
    apply bind_Ret in Eb as (x & _ & Eb).
    apply write_inv in Eb as [Hw ->]. by rewrite length_insert.
  - intros Ho. destruct (scalar_prefix opr a val out Ho) as (out' & E & _). eauto.
Qed.

Lemma unary_room (opr : T -> T) (a out : list T) :
  (exists out', DEFINE_UNARY_FUNC opr a out = Ret out') <-> size a <= size out.
Proof.
  split.
  - intros [out' E]. unfold DEFINE_UNARY_FUNC in E.
    destruct (Z.le_gt_cases (size a) 0) as [Ha|Ha].
    { pose proof (size_nonneg out). lia. }
    apply prefix_loop_room in E as (Ho & _); [done | lia |].
    intros i o o' Hi Eb.
    apply bind_Ret in Eb as (x & _ & Eb).
    apply write_inv in Eb as [Hw ->]. by rewrite length_insert.
  - intros Ho. destruct (unary_prefix opr a out Ho) as (out' & E & _). eauto.
Qed.

(** X10.  No operator checks a size: a call of an array-array operator
    returns exactly when the second operand and the destination have at
    least [a.size] elements, and a call of an array-scalar or unary operator
    exactly when the destination has. *)
Theorem operators_return_iff_room (a b out : list T) (val : T) :
  Forall (fun fo => (exists out', fo.1 a b out = Ret out')
                    <-> size a <= size b /\ size a <= size out)
         ewise_operators
  /\ Forall (fun fo => (exists out', fo.1 a val out = Ret out') <-> size a <= size out)
            scalar_operators
  /\ Forall (fun fo => (exists out', fo.1 a out = Ret out') <-> size a <= size out)
            unary_operators.
Proof.
  split; [|split].
  - unfold ewise_operators.
    repeat (apply List.Forall_cons; [simpl; apply ewise_room|]). apply List.Forall_nil.
  - unfold scalar_operators.
    repeat (apply List.Forall_cons; [simpl; apply scalar_room|]). apply List.Forall_nil.
  - unfold unary_operators.
    repeat (apply List.Forall_cons; [simpl; apply unary_room|]). apply List.Forall_nil.
Qed.

End OperatorRoom.

(** A second operand that is too short. *)
Lemma operators_return_iff_room_witness :
  EwiseAdd [1; 2; 3] [4; 5] [0; 0; 0] = UB
  /\ EwiseAdd [1; 2] [4; 5; 6] [0; 0; 0] = Ret [5; 7; 0]
  /\ ~ (exists out', EwiseMul [1; 2; 3] [4; 5] [0; 0; 0] = Ret out').
Proof.
  split; [reflexivity|]. split; [reflexivity|].
  pose proof (proj1 (operators_return_iff_room [1; 2; 3] [4; 5] [0; 0; 0] 0)) as P.
  apply Forall_cons in P as [_ P]. apply Forall_cons in P as [P _]. simpl in P.
  intros Hex. apply P in Hex as [Hb _]. vm_compute in Hb. by apply Hb.
Defined.

Section ComparisonProperties.
Context {T : Type} `{Scalar T} `{Libm T}.

Lemma ewise_comparison (cmp : T -> T -> bool) (a b out : list T) :
  size a <= size b -> size a <= size out ->
  exists out',
    DEFINE_EWISE_FUNC (fun x y => s_of_bool (cmp x y)) a b out = Ret out'
    /\ forall i : nat, (i < length a)%nat ->
         out' !! i = Some (s_of_int 0) \/ out' !! i = Some (s_of_int 1).
Proof.
  intros Hb Ho.
  destruct (ewise_prefix (fun x y => s_of_bool (cmp x y)) a b out Hb Ho)
    as (out' & E & _ & HP & _).
  exists out'. split; [done|]. intros i Hi. rewrite (HP i Hi).
  destruct (lookup_lt_is_Some_2 a i Hi) as [x ->].
  destruct (lookup_lt_is_Some_2 b i) as [y ->]; [unfold size in *; lia|].
  unfold s_of_bool. destruct (cmp x y); auto.
Qed.

Lemma scalar_comparison (cmp : T -> T -> bool) (a : list T) (val : T) (out : list T) :
  size a <= size out ->
  exists out',
    DEFINE_SCALAR_FUNC (fun x y => s_of_bool (cmp x y)) a val out = Ret out'
    /\ forall i : nat, (i < length a)%nat ->
         out' !! i = Some (s_of_int 0) \/ out' !! i = Some (s_of_int 1).
Proof.
  intros Ho.
  destruct (scalar_prefix (fun x y => s_of_bool (cmp x y)) a val out Ho)
    as (out' & E & _ & HP & _).
  exists out'. split; [done|]. intros i Hi. rewrite (HP i Hi).
  destruct (lookup_lt_is_Some_2 a i Hi) as [x ->]. simpl.
  unfold s_of_bool. destruct (cmp x val); auto.
Qed.

(** X11.  The comparison operators [EwiseEq], [EwiseGe], [ScalarEq] and
    [ScalarGe] store nothing but zeros and ones: each of the first [a.size]
    elements of the destination is the scalar [0] or the scalar [1]. *)
Theorem comparisons_store_zero_or_one (a b out : list T) (val : T) :
  size a <= size out ->
  (size a <= size b ->
   Forall (fun f : list T -> list T -> list T -> res (list T) =>
             exists out',
               f a b out = Ret out'
               /\ forall i : nat, (i < length a)%nat ->
                    out' !! i = Some (s_of_int 0) \/ out' !! i = Some (s_of_int 1))
          [EwiseEq; EwiseGe])
  /\ Forall (fun f : list T -> T -> list T -> res (list T) =>
               exists out',
                 f a val out = Ret out'
                 /\ forall i : nat, (i < length a)%nat ->
                      out' !! i = Some (s_of_int 0) \/ out' !! i = Some (s_of_int 1))
            [ScalarEq; ScalarGe].
Proof.
  intros Ho. split; [intros Hb|].
  - repeat (apply List.Forall_cons; [by apply ewise_comparison|]). apply List.Forall_nil.
  - repeat (apply List.Forall_cons; [by apply scalar_comparison|]). apply List.Forall_nil.
Qed.

End ComparisonProperties.

Lemma comparisons_store_zero_or_one_witness :
  EwiseGe [1; 5; 3] [2; 5; 1] [9; 9; 9; 9] = Ret [0; 1; 1; 9]
  /\ ScalarEq [1; 5; 3] 5 [9; 9; 9; 9] = Ret [0; 1; 0; 9]
  /\ Forall (fun f : list Z -> Z -> list Z -> res (list Z) =>
               exists out',
                 f [1; 5; 3] 5 [9; 9; 9; 9] = Ret out'
                 /\ forall i : nat, (i < 3)%nat ->
                      out' !! i = Some (s_of_int 0) \/ out' !! i = Some (s_of_int 1))
            [ScalarEq; ScalarGe].
Proof.
  split; [reflexivity|]. split; [reflexivity|].
  apply (comparisons_store_zero_or_one [1; 5; 3] [2; 5; 1] [9; 9; 9; 9] 5).
  vm_compute. discriminate.
Defined.

Section ScalarAsElementwise.
Context {T : Type} `{Scalar T} `{Libm T}.

Lemma writes_prefix_unique (n : nat) (f g : nat -> option T) (out o1 o2 : list T) :
  (forall i : nat, (i < n)%nat -> f i = g i) ->
  writes_prefix n f out o1 -> writes_prefix n g out o2 -> o1 = o2.
Proof.
  intros Hfg (HL1 & HP1 & HF1) (HL2 & HP2 & HF2). apply list_eq. intros i.
  destruct (Nat.lt_ge_cases i n) as [Hi|Hi].
  - by rewrite HP1, HP2, Hfg.
  - by rewrite HF1, HF2.
Qed.

Lemma scalar_as_ewise (opr : T -> T -> T) (a b out : list T) (val : T) :
  size b = size a -> size a <= INT_MAX -> size a <= size out ->
  exists filled,
    Fill b val = Ret filled
    /\ DEFINE_SCALAR_FUNC opr a val out = DEFINE_EWISE_FUNC opr a filled out.
Proof.
  intros Hb Ha Ho.
  destruct (Fill_all b val ltac:(lia)) as (filled & Ef & HLf & HPf).
  exists filled. split; [done|].
  destruct (scalar_prefix opr a val out Ho) as (o1 & E1 & W1).
  destruct (ewise_prefix opr a filled out) as (o2 & E2 & W2); [unfold size in *; lia | done |].
  rewrite E1, E2. f_equal.
  refine (writes_prefix_unique _ _ _ _ _ _ _ W1 W2).
  intros i Hi. destruct (lookup_lt_is_Some_2 a i Hi) as [x ->]. simpl.
  rewrite HPf by (unfold size in *; lia). done.
Qed.

(** X12.  An array-scalar operator does what its elementwise operator
    does on an array filled with the scalar: after [Fill(b, val)] on a [b]
    of [a.size] elements, [ScalarAdd(a, val, out)] returns what
    [EwiseAdd(a, b, out)] returns, and so for [Mul], [Div], [Maximum], [Eq]
    and [Ge]. *)
Theorem scalar_operators_as_elementwise (a b out : list T) (val : T) :
  size b = size a -> size a <= INT_MAX -> size a <= size out ->
  exists filled,
    Fill b val = Ret filled
    /\ ScalarAdd a val out = EwiseAdd a filled out
    /\ ScalarMul a val out = EwiseMul a filled out
    /\ ScalarDiv a val out = EwiseDiv a filled out
    /\ ScalarMaximum a val out = EwiseMaximum a filled out
    /\ ScalarEq a val out = EwiseEq a filled out
    /\ ScalarGe a val out = EwiseGe a filled out.
Proof.
  intros Hb Ha Ho.
  destruct (Fill_all b val ltac:(lia)) as (filled & Ef & HLf & HPf).
  exists filled. split; [done|].
  assert (Hgen : forall opr : T -> T -> T,
            DEFINE_SCALAR_FUNC opr a val out = DEFINE_EWISE_FUNC opr a filled out).
  { intros opr. destruct (scalar_as_ewise opr a b out val Hb Ha Ho) as (f2 & Ef2 & Eq).
    rewrite Ef in Ef2. injection Ef2 as <-. done. }
  repeat split; apply Hgen.
Qed.

End ScalarAsElementwise.

Lemma scalar_operators_as_elementwise_witness :
  ScalarMul [1; 2; 3] 5 [0; 0; 0; 0] = Ret [5; 10; 15; 0]
  /\ EwiseMul [1; 2; 3] [5; 5; 5] [0; 0; 0; 0] = Ret [5; 10; 15; 0]
  /\ exists filled,
       Fill [7; 8; 9] 5 = Ret filled
       /\ ScalarAdd [1; 2; 3] 5 [0; 0; 0; 0] = EwiseAdd [1; 2; 3] filled [0; 0; 0; 0]
       /\ ScalarMul [1; 2; 3] 5 [0; 0; 0; 0] = EwiseMul [1; 2; 3] filled [0; 0; 0; 0]
       /\ ScalarDiv [1; 2; 3] 5 [0; 0; 0; 0] = EwiseDiv [1; 2; 3] filled [0; 0; 0; 0]
       /\ ScalarMaximum [1; 2; 3] 5 [0; 0; 0; 0] = EwiseMaximum [1; 2; 3] filled [0; 0; 0; 0]
       /\ ScalarEq [1; 2; 3] 5 [0; 0; 0; 0] = EwiseEq [1; 2; 3] filled [0; 0; 0; 0]
       /\ ScalarGe [1; 2; 3] 5 [0; 0; 0; 0] = EwiseGe [1; 2; 3] filled [0; 0; 0; 0].
Proof.
  split; [reflexivity|]. split; [reflexivity|].
  apply (scalar_operators_as_elementwise [1; 2; 3] [7; 8; 9] [0; 0; 0; 0] 5).
  - reflexivity.
  - vm_compute. discriminate.
  - vm_compute. discriminate.
Defined.

(** ** Further properties of the matrix products *)

Section TileRoom.
Context {T : Type} `{Scalar T}.

Lemma accumulate_inv (o o' : list T) (idx : Z) (x y : T) :
  accumulate o idx x y = Ret o' -> 0 <= idx < size o /\ length o' = length o.
Proof.
  unfold accumulate. intros E. apply bind_Ret in E as (cur & _ & E).
  apply write_inv in E as [Hi ->]. by rewrite length_insert.
Qed.

(** The loop over [k] of [AlignedDot] and [Matmul], as far as it returns. *)
Lemma accumulate_loop_inv (a b : list T) (ia ib : Z -> Z) (idx lo hi : Z) (o o' : list T) :
  for_range lo hi
    (fun k o => let* x := read a (ia k) in let* y := read b (ib k) in accumulate o idx x y)
    o = Ret o' ->
  length o' = length o
  /\ forall k, lo <= k < hi ->
       0 <= ia k < size a /\ 0 <= ib k < size b /\ 0 <= idx < size o.
Proof.
  intros E.
  assert (Hstep : forall (k : Z) (s0 s1 : list T),
             lo <= k < hi -> length s0 = length o ->
             (let* x := read a (ia k) in let* y := read b (ib k) in accumulate s0 idx x y)
             = Ret s1 ->
             length s1 = length o).
  { intros k s0 s1 _ HL Eb.
    apply bind_Ret in Eb as (x & _ & Eb). apply bind_Ret in Eb as (y & _ & Eb).
    apply accumulate_inv in Eb as [_ HL1]. congruence. }
  destruct (Z.le_gt_cases lo hi) as [Hle|Hgt].
  - split.
    + apply (for_range_ret_inv (fun _ s => length s = length o) _ lo hi o o' Hle E eq_refl Hstep).
    + intros k Hk.
      destruct (for_range_passes (fun _ s => length s = length o) _ lo hi o o' E eq_refl Hstep
                  k Hk) as (s0 & s1 & HL & Eb).
      apply bind_Ret in Eb as (x & Ex & Eb). apply bind_Ret in Eb as (y & Ey & Eb).
      apply read_inv in Ex as [Hx _]. apply read_inv in Ey as [Hy _].
      apply accumulate_inv in Eb as [Hi _]. unfold size in *. rewrite HL in Hi. done.
  - unfold for_range in E. replace (Z.to_nat (hi - lo)) with O in E by lia.
    simpl in E. injection E as <-. split; [done | intros; lia].
Qed.

(** [AlignedDot] returns only if the three tiles lie inside their
    buffers. *)
Lemma AlignedDot_room (a : list T) (a_tile : Z) (b : list T) (b_tile : Z)
    (o : list T) (out_tile : Z) (o' : list T) :
  AlignedDot a a_tile b b_tile o out_tile = Ret o' ->
  length o' = length o
  /\ (0 <= a_tile /\ a_tile + TILE * TILE <= size a)
  /\ (0 <= b_tile /\ b_tile + TILE * TILE <= size b)
  /\ (0 <= out_tile /\ out_tile + TILE * TILE <= size o).
Proof.
  unfold AlignedDot, TILE. intros E.
  set (inner := fun (i j : Z) (o : list T) =>
    for_range 0 8
      (fun k o =>
         let* x := read a (a_tile + (i * 8 + k)) in
         let* y := read b (b_tile + (k * 8 + j)) in
         accumulate o (out_tile + (i * 8 + j)) x y) o) in *.
  set (row := fun (i : Z) (o : list T) => for_range 0 8 (fun j o => inner i j o) o) in *.
  assert (Hinner : forall i j s0 s1, inner i j s0 = Ret s1 ->
            length s1 = length s0
            /\ forall k, 0 <= k < 8 ->
                 0 <= a_tile + (i * 8 + k) < size a
                 /\ 0 <= b_tile + (k * 8 + j) < size b
                 /\ 0 <= out_tile + (i * 8 + j) < size s0).
  { intros i j s0 s1 Ei. unfold inner in Ei.
    apply (accumulate_loop_inv a b (fun k => a_tile + (i * 8 + k))
             (fun k => b_tile + (k * 8 + j))) in Ei. done. }
  assert (Hrow_len : forall i s0 s1, row i s0 = Ret s1 -> length s1 = length s0).
  { intros i s0 s1 Er. unfold row in Er.
    apply (for_range_ret_inv (fun _ s => length s = length s0) _ 0 8 s0 s1 ltac:(lia) Er eq_refl).
    intros j t0 t1 _ HL Ei. destruct (Hinner i j t0 t1 Ei) as [HL1 _]. congruence. }
  assert (Hrow : forall i s0 s1, row i s0 = Ret s1 ->
            forall j k, 0 <= j < 8 -> 0 <= k < 8 ->
              0 <= a_tile + (i * 8 + k) < size a
              /\ 0 <= b_tile + (k * 8 + j) < size b
              /\ 0 <= out_tile + (i * 8 + j) < size s0).
  { intros i s0 s1 Er j k Hj Hk. unfold row in Er.
    destruct (for_range_passes (fun _ s => length s = length s0) _ 0 8 s0 s1 Er eq_refl)
      with (k := j) as (t0 & t1 & HL & Ei); [|done|].
    - intros j' t0 t1 _ HL Ei. destruct (Hinner i j' t0 t1 Ei) as [HL1 _]. congruence.
    - destruct (Hinner i j t0 t1 Ei) as [_ Hb]. specialize (Hb k Hk).
      unfold size in *. rewrite HL in Hb. done. }
  assert (HL : length o' = length o).
  { apply (for_range_ret_inv (fun _ s => length s = length o) _ 0 8 o o' ltac:(lia) E eq_refl).
    intros i s0 s1 _ HL0 Er. rewrite (Hrow_len i s0 s1 Er). done. }
  assert (Hall : forall i j k, 0 <= i < 8 -> 0 <= j < 8 -> 0 <= k < 8 ->
            0 <= a_tile + (i * 8 + k) < size a
            /\ 0 <= b_tile + (k * 8 + j) < size b
            /\ 0 <= out_tile + (i * 8 + j) < size o).
  { intros i j k Hi Hj Hk.
    destruct (for_range_passes (fun _ s => length s = length o) _ 0 8 o o' E eq_refl)
      with (k := i) as (s0 & s1 & HL0 & Er); [|done|].
    - intros i' s0 s1 _ HL0 Er. rewrite (Hrow_len i' s0 s1 Er). done.
    - pose proof (Hrow i s0 s1 Er j k Hj Hk) as Hb.
      unfold size in *. rewrite HL0 in Hb. done. }
  split; [done|].
  pose proof (Hall 0 0 0 ltac:(lia) ltac:(lia) ltac:(lia)).
  pose proof (Hall 7 7 7 ltac:(lia) ltac:(lia) ltac:(lia)).
  lia.
Qed.

(** X13.  [AlignedDot] returns exactly when the three tiles of
    [TILE * TILE] elements lie inside their buffers; it then adds to every
    cell [(i, j)] of the destination tile the products
    [a[i,k] * b[k,j]] for [k = 0 .. TILE - 1], from the left onto what the
    cell held, and leaves every element outside the destination tile as it
    was. *)
Theorem AlignedDot_adds_tile_product (a : list T) (a_tile : Z) (b : list T) (b_tile : Z)
    (o : list T) (out_tile : Z) :
  ((exists o', AlignedDot a a_tile b b_tile o out_tile = Ret o')
   <-> (0 <= a_tile /\ a_tile + TILE * TILE <= size a)
       /\ (0 <= b_tile /\ b_tile + TILE * TILE <= size b)
       /\ (0 <= out_tile /\ out_tile + TILE * TILE <= size o))
  /\ forall o', AlignedDot a a_tile b b_tile o out_tile = Ret o' ->
       length o' = length o
       /\ (forall i j, 0 <= i < TILE -> 0 <= j < TILE ->
             o' !! Z.to_nat (out_tile + (i * TILE + j))
             = Some (sum_lr (Z.to_nat TILE) 0
                       (fun k => s_mul (get a (a_tile + (i * TILE + k)))
                                       (get b (b_tile + (k * TILE + j))))
                       (get o (out_tile + (i * TILE + j)))))
       /\ (forall q : nat,
             Z.of_nat q < out_tile \/ out_tile + TILE * TILE <= Z.of_nat q ->
             o' !! q = o !! q).
Proof.
  split.
  - split.
    + intros [o' E]. apply AlignedDot_room in E. tauto.
    + intros ([Ha0 Ha1] & [Hb0 Hb1] & [Ho0 Ho1]).
      destruct (AlignedDot_tile a a_tile b b_tile o out_tile Ha0 Ha1 Hb0 Hb1 Ho0 Ho1)
        as (o' & E & _). eauto.
  - intros o' E. pose proof (AlignedDot_room _ _ _ _ _ _ _ E)
      as (_ & [Ha0 Ha1] & [Hb0 Hb1] & [Ho0 Ho1]).
    destruct (AlignedDot_tile a a_tile b b_tile o out_tile Ha0 Ha1 Hb0 Hb1 Ho0 Ho1)
      as (o2 & E2 & HL & HP & HF).
    rewrite E2 in E. injection E as <-. done.
Qed.

End TileRoom.

(** The product of two tiles of ones, added to a tile of fives. *)
Lemma AlignedDot_adds_tile_product_witness :
  AlignedDot (replicate 64 1) 0 (replicate 64 1) 0 (replicate 64 5) 0 = Ret (replicate 64 13)
  /\ forall q : nat, Z.of_nat q < 0 \/ 0 + TILE * TILE <= Z.of_nat q ->
       replicate 64 13 !! q = replicate 64 5 !! q.
Proof.
  assert (E : AlignedDot (replicate 64 1) 0 (replicate 64 1) 0 (replicate 64 5) 0
              = Ret (replicate 64 13)) by reflexivity.
  split; [exact E|].
  apply (proj2 (AlignedDot_adds_tile_product (replicate 64 1) 0 (replicate 64 1) 0
                  (replicate 64 5) 0) (replicate 64 13) E).
Defined.

Section TiledDestination.
Context {T : Type} `{Scalar T}.

(** A place inside the first [M * P] tiles is a cell of a tile. *)
Lemma tile_cell_of_place (M P q : Z) :
  0 <= q < TILE * TILE * (M * P) -> 0 <= M -> 0 <= P ->
  exists I J ii jj,
    0 <= I < M /\ 0 <= J < P /\ 0 <= ii < TILE /\ 0 <= jj < TILE
    /\ q = (I * P + J) * (TILE * TILE) + (ii * TILE + jj).
Proof.
  unfold TILE. intros Hq HM HP.
  assert (0 < P) by nia.
  pose proof (Z.div_mod q 64 ltac:(lia)) as E1.
  pose proof (Z.mod_pos_bound q 64 ltac:(lia)) as B1.
  pose proof (Z.div_mod (q / 64) P ltac:(lia)) as E2.
  pose proof (Z.mod_pos_bound (q / 64) P ltac:(lia)) as B2.
  pose proof (Z.div_mod (q mod 64) 8 ltac:(lia)) as E3.
  pose proof (Z.mod_pos_bound (q mod 64) 8 ltac:(lia)) as B3.
  assert (0 <= q / 64 < M * P).
  { split; [apply Z.div_pos; lia | apply Z.div_lt_upper_bound; lia]. }
  exists (q / 64 / P), (q / 64 mod P), (q mod 64 / 8), (q mod 64 mod 8).
  split. { split; [apply Z.div_pos; lia | apply Z.div_lt_upper_bound; nia]. }
  split; [done|].
  split. { split; [apply Z.div_pos; lia | apply Z.div_lt_upper_bound; lia]. }
  split; [done|]. lia.
Qed.

(** X14.  [MatmulTiled] overwrites its whole destination: the buffer it
    returns does not depend on what the destination held, and every element
    after the [m * p] elements of the product is zero. *)
Theorem MatmulTiled_overwrites_destination (a b out out2 : list T) (m n p : Z) :
  0 <= m -> 0 <= n -> 0 <= p ->
  m mod TILE = 0 -> n mod TILE = 0 -> p mod TILE = 0 ->
  m * n <= size a -> size a <= SIZE_MOD ->
  n * p <= size b -> size b <= SIZE_MOD ->
  m * p <= size out -> size out <= INT_MAX ->
  length out2 = length out ->
  exists out',
    MatmulTiled a b out m n p = Ret out'
    /\ MatmulTiled a b out2 m n p = Ret out'
    /\ length out' = length out
    /\ forall q : nat, m * p <= Z.of_nat q -> (q < length out)%nat ->
         out' !! q = Some (s_of_int 0).
Proof.
  intros Hm Hn Hp Hm8 Hn8 Hp8 Ha Has Hb Hbs Hout Houts HL2.
  pose proof (multiple_of_tile m Hm8) as Em.
  pose proof (multiple_of_tile n Hn8) as En.
  pose proof (multiple_of_tile p Hp8) as Ep.
  assert (HM : 0 <= m / TILE) by (apply Z.div_pos; unfold TILE; lia).
  assert (HN : 0 <= n / TILE) by (apply Z.div_pos; unfold TILE; lia).
  assert (HP : 0 <= p / TILE) by (apply Z.div_pos; unfold TILE; lia).
  assert (Hmn : TILE * TILE * (m / TILE * (n / TILE)) = m * n) by (unfold TILE in *; nia).
  assert (Hnp : TILE * TILE * (n / TILE * (p / TILE)) = n * p) by (unfold TILE in *; nia).
  assert (Hmp : TILE * TILE * (m / TILE * (p / TILE)) = m * p) by (unfold TILE in *; nia).
  destruct (MatmulTiled_tiles a b out (m / TILE) (n / TILE) (p / TILE) HM HN HP)
    as (out' & E & HL & HC & HZ); try lia.
  destruct (MatmulTiled_tiles a b out2 (m / TILE) (n / TILE) (p / TILE) HM HN HP)
    as (out2' & E2 & HL2' & HC2 & HZ2); try (unfold size in *; lia).
  rewrite <- Em, <- En, <- Ep in E, E2.
  exists out'. split; [done|]. split.
  - rewrite E2. f_equal. apply list_eq. intros q.
    destruct (Nat.lt_ge_cases q (length out)) as [Hq|Hq].
    + destruct (Z.lt_ge_cases (Z.of_nat q) (m * p)) as [Hlt|Hge].
      * destruct (tile_cell_of_place (m / TILE) (p / TILE) (Z.of_nat q))
          as (I & J & ii & jj & HI & HJ & Hii & Hjj & Eq); [lia | done | done |].
        rewrite <- (Nat2Z.id q), Eq.
        by rewrite (HC I J ii jj), (HC2 I J ii jj).
      * rewrite HZ, HZ2; [done | lia | lia | lia | lia].
    + rewrite !(proj2 (lookup_ge_None _ _)); [done | lia | lia].
  - split; [done|]. intros q Hq Hlt. apply HZ; lia.
Qed.

End TiledDestination.

(** One tile in a destination of 70 elements. *)
Lemma MatmulTiled_overwrites_destination_witness :
  exists out',
    MatmulTiled (replicate 64 1) (replicate 64 2) (replicate 70 5) 8 8 8 = Ret out'
    /\ MatmulTiled (replicate 64 1) (replicate 64 2) (replicate 70 9) 8 8 8 = Ret out'
    /\ length out' = 70%nat
    /\ forall q : nat, 8 * 8 <= Z.of_nat q -> (q < 70)%nat -> out' !! q = Some (s_of_int 0).
Proof.
  apply (MatmulTiled_overwrites_destination (replicate 64 1) (replicate 64 2)
           (replicate 70 5) (replicate 70 9) 8 8 8);
    try lia; try reflexivity; vm_compute; discriminate.
Defined.

Lemma for_loop_length {T : Type} (body : Z -> list T -> res (list T)) (step : Z) :
  (forall (k : Z) (s0 s1 : list T), body k s0 = Ret s1 -> length s1 = length s0) ->
  forall (n : nat) (i : Z) (o o' : list T),
    for_loop n i step body o = Ret o' -> length o' = length o.
Proof.
  intros Hbody n i o o' E.
  apply (for_loop_ret_inv (fun _ s => length s = length o) body step n i o o' E eq_refl).
  intros k s0 s1 _ HL Eb. rewrite (Hbody _ _ _ Eb). done.
Qed.

Lemma Fill_inv {T : Type} (out out' : list T) (val : T) :
  Fill out val = Ret out' -> size out <= INT_MAX /\ length out' = length out.
Proof.
  intros E. destruct (Z.le_gt_cases (size out) INT_MAX) as [Hsz|Hsz].
  - destruct (Fill_all out val Hsz) as (o & Eo & HL & _). split; [done | congruence].
  - by rewrite Fill_overflow in E.
Qed.

(** The last pass of [for (i = 0; i < m; i += TILE)] starts less than a
    tile before [m]. *)
Lemma last_tile_step (m : Z) :
  1 <= m ->
  (Z.to_nat ((m + (TILE - 1)) / TILE - 1) < tile_steps m)%nat
  /\ 0 <= m - Z.of_nat (Z.to_nat ((m + (TILE - 1)) / TILE - 1)) * TILE - 1 < TILE.
Proof.
  intros Hm. unfold tile_steps, TILE.
  pose proof (Z.div_mod (m + (8 - 1)) 8 ltac:(lia)) as E.
  pose proof (Z.mod_pos_bound (m + (8 - 1)) 8 ltac:(lia)) as B.
  assert (1 <= (m + (8 - 1)) / 8) by (apply Z.div_le_lower_bound; lia).
  split; lia.
Qed.

Lemma wrap64_sum (x y : Z) :
  0 <= x -> 0 <= y -> x + y < SIZE_MOD -> wrap64 (wrap64 x + wrap64 y) = x + y.
Proof.
  intros Hx Hy Hxy. rewrite (wrap64_small x), (wrap64_small y) by lia.
  apply wrap64_small. lia.
Qed.

(** The last tiles of the three operands lie inside buffers of exactly
    [m * n], [n * p] and [m * p] elements only if every dimension ends with
    a whole tile. *)
Lemma last_tiles_fit (m n p I K J : Z) :
  1 <= m -> 1 <= n -> 1 <= p ->
  0 <= I -> 0 <= K -> 0 <= J ->
  0 <= m - I - 1 < TILE -> 0 <= n - K - 1 < TILE -> 0 <= p - J - 1 < TILE ->
  16 * (m * n) <= SIZE_MOD -> 16 * (n * p) <= SIZE_MOD -> m * p <= INT_MAX ->
  wrap64 (wrap64 (I * n) + wrap64 (K * TILE)) + TILE * TILE <= m * n ->
  wrap64 (wrap64 (K * p) + wrap64 (J * TILE)) + TILE * TILE <= n * p ->
  wrap64 (wrap64 (I * p) + wrap64 (J * TILE)) + TILE * TILE <= m * p ->
  m = I + TILE /\ n = K + TILE /\ p = J + TILE.
Proof.
  unfold TILE, INT_MAX, SIZE_MOD.
  intros Hm Hn Hp HI0 HK0 HJ0 HI HK HJ Has Hbs Hos Ha1 Hb1 Ho1.
  assert (HIn : 0 <= I * n <= m * n).
  { split; [apply Z.mul_nonneg_nonneg; lia | apply Z.mul_le_mono_nonneg_r; lia]. }
  assert (HKp : 0 <= K * p <= n * p).
  { split; [apply Z.mul_nonneg_nonneg; lia | apply Z.mul_le_mono_nonneg_r; lia]. }
  assert (HIp : 0 <= I * p <= m * p).
  { split; [apply Z.mul_nonneg_nonneg; lia | apply Z.mul_le_mono_nonneg_r; lia]. }
  assert (Hn1 : 1 * n <= m * n) by (apply Z.mul_le_mono_nonneg_r; lia).
  assert (Hp1 : 1 * p <= n * p) by (apply Z.mul_le_mono_nonneg_r; lia).
  assert (Hp2 : 1 * p <= m * p) by (apply Z.mul_le_mono_nonneg_r; lia).
  rewrite wrap64_sum in Ha1 by (unfold SIZE_MOD; lia).
  rewrite wrap64_sum in Hb1 by (unfold SIZE_MOD; lia).
  rewrite wrap64_sum in Ho1 by (unfold SIZE_MOD; lia).
  assert (Hrs : (8 - (m - I)) * p <= 8 * (p - J) - 64) by lia.
  assert (Em : m = I + 8).
  { destruct (Z.eq_dec (m - I) 8) as [Heq|Hne]; [lia|].
    assert (1 * p <= (8 - (m - I)) * p) by (apply Z.mul_le_mono_nonneg_r; lia). lia. }
  assert (Ep : p = J + 8).
  { replace (m - I) with 8 in Hrs by lia. lia. }
  assert (En : n = K + 8).
  { assert (Hrt : (8 - (m - I)) * n <= 8 * (n - K) - 64) by lia.
    replace (m - I) with 8 in Hrt by lia. lia. }
  done.
Qed.

Section WholeTiles.
Context {T : Type} `{Scalar T}.

(** X15.  On buffers of exactly [m * n], [n * p] and [m * p] elements
    [MatmulTiled] returns only if [m], [n] and [p] are multiples of
    [TILE]. *)
Theorem MatmulTiled_returns_only_on_whole_tiles (a b out out' : list T) (m n p : Z) :
  1 <= m -> 1 <= n -> 1 <= p ->
  size a = m * n -> size b = n * p -> size out = m * p ->
  16 * size a <= SIZE_MOD -> 16 * size b <= SIZE_MOD ->
  MatmulTiled a b out m n p = Ret out' ->
  m mod TILE = 0 /\ n mod TILE = 0 /\ p mod TILE = 0.
Proof.
  intros Hm Hn Hp Ha Hb Hout Has Hbs E.
  unfold MatmulTiled in E. apply bind_Ret in E as (out0 & E0 & E).
  apply Fill_inv in E0 as [Houts HL0].
  set (dot := fun (i j k : Z) (o : list T) =>
    AlignedDot a (wrap64 (wrap64 (i * n) + wrap64 (k * TILE)))
               b (wrap64 (wrap64 (k * p) + wrap64 (j * TILE)))
               o (wrap64 (wrap64 (i * p) + wrap64 (j * TILE)))) in *.
  assert (Hdot : forall i j k s0 s1, dot i j k s0 = Ret s1 -> length s1 = length s0).
  { intros i j k s0 s1 Ed. by apply AlignedDot_room in Ed as [HL _]. }
  set (kloop := fun (i j : Z) (o : list T) =>
    for_loop (tile_steps n) 0 TILE (fun k o => dot i j k o) o) in *.
  assert (Hkloop : forall i j s0 s1, kloop i j s0 = Ret s1 -> length s1 = length s0).
  { intros i j s0 s1 Ek. apply (for_loop_length _ _ (fun k => Hdot i j k) _ _ _ _ Ek). }
  set (jloop := fun (i : Z) (o : list T) =>
    for_loop (tile_steps p) 0 TILE (fun j o => kloop i j o) o) in *.
  assert (Hjloop : forall i s0 s1, jloop i s0 = Ret s1 -> length s1 = length s0).
  { intros i s0 s1 Ej. apply (for_loop_length _ _ (fun j => Hkloop i j) _ _ _ _ Ej). }
  destruct (last_tile_step m Hm) as [HIlt HI].
  destruct (last_tile_step n Hn) as [HKlt HK].
  destruct (last_tile_step p Hp) as [HJlt HJ].
  set (I := Z.of_nat (Z.to_nat ((m + (TILE - 1)) / TILE - 1)) * TILE) in *.
  set (K := Z.of_nat (Z.to_nat ((n + (TILE - 1)) / TILE - 1)) * TILE) in *.
  set (J := Z.of_nat (Z.to_nat ((p + (TILE - 1)) / TILE - 1)) * TILE) in *.
  assert (HI0 : 0 <= I) by (unfold I, TILE; lia).
  assert (HK0 : 0 <= K) by (unfold K, TILE; lia).
  assert (HJ0 : 0 <= J) by (unfold J, TILE; lia).
  destruct (for_loop_passes (fun _ s => length s = length out) (fun i o => jloop i o) TILE
              _ _ _ _ E HL0) with (k := Z.to_nat ((m + (TILE - 1)) / TILE - 1))
    as (s0 & s1 & HLs & Ej); [|done|].
  { intros k t0 t1 _ HL Ej. rewrite (Hjloop _ _ _ Ej). done. }
  rewrite Z.add_0_l in Ej. fold I in Ej. unfold jloop in Ej.
  destruct (for_loop_passes (fun _ s => length s = length out) (fun j o => kloop I j o) TILE
              _ _ _ _ Ej HLs) with (k := Z.to_nat ((p + (TILE - 1)) / TILE - 1))
    as (t0 & t1 & HLt & Ek); [|done|].
  { intros k u0 u1 _ HL Ek. rewrite (Hkloop _ _ _ _ Ek). done. }
  rewrite Z.add_0_l in Ek. fold J in Ek. unfold kloop in Ek.
  destruct (for_loop_passes (fun _ s => length s = length out) (fun k o => dot I J k o) TILE
              _ _ _ _ Ek HLt) with (k := Z.to_nat ((n + (TILE - 1)) / TILE - 1))
    as (u0 & u1 & HLu & Ed); [|done|].
  { intros k v0 v1 _ HL Ed. rewrite (Hdot _ _ _ _ _ Ed). done. }
  rewrite Z.add_0_l in Ed. fold K in Ed. unfold dot in Ed.
  apply AlignedDot_room in Ed as (_ & [_ Ha1] & [_ Hb1] & [_ Ho1]).
  unfold size in Ho1. rewrite HLu in Ho1. fold (size out) in Ho1.
  assert (HIm : exists x, I = x * TILE) by (unfold I; eauto).
  assert (HKm : exists x, K = x * TILE) by (unfold K; eauto).
  assert (HJm : exists x, J = x * TILE) by (unfold J; eauto).
  clearbody I K J. clear E Ej Ek Hdot Hkloop Hjloop dot kloop jloop.
  rewrite Ha in Ha1, Has. rewrite Hb in Hb1, Hbs. rewrite Hout in Ho1, Houts.
  destruct (last_tiles_fit m n p I K J) as (Em & En & Ep); try done.
  destruct HIm as [x ->]. destruct HKm as [y ->]. destruct HJm as [z ->].
  rewrite Em, En, Ep.
  rewrite <- !(Z.mul_succ_l _ TILE). rewrite !Z.mod_mul by (unfold TILE; lia). done.
Qed.

End WholeTiles.

(** A 4 by 4 product is not a whole tile. *)
Lemma MatmulTiled_returns_only_on_whole_tiles_witness :
  MatmulTiled (replicate 16 1) (replicate 16 1) (replicate 16 0) 4 4 4 = UB
  /\ forall out' : list Z,
       MatmulTiled (replicate 16 1) (replicate 16 1) (replicate 16 0) 4 4 4 <> Ret out'.
Proof.
  split; [reflexivity|]. intros out' E.
  destruct (MatmulTiled_returns_only_on_whole_tiles
              (replicate 16 1) (replicate 16 1) (replicate 16 0) out' 4 4 4) as (Hm & _);
    try lia; try reflexivity; try exact E; try (vm_compute; discriminate).
Defined.

Section MatmulEdges.
Context {T : Type} `{Scalar T}.

(** X16.  [Matmul] writes the first [m * p] elements of its destination
    and nothing else: a longer destination keeps its other elements, an
    empty product ([m = 0] or [p = 0]) leaves the destination as it was, and
    an empty contraction ([n = 0]) sets the [m * p] elements to zero. *)
Theorem Matmul_writes_first_m_p (a b out : list T) (m n p : Z) :
  0 <= m -> 0 <= n -> 0 <= p ->
  size a = m * n -> size b = n * p -> m * p <= size out ->
  m * n <= UINT32_MOD -> n * p <= UINT32_MOD -> m * p <= UINT32_MOD ->
  exists out',
    Matmul a b out m n p = Ret out'
    /\ length out' = length out
    /\ (forall q : nat, m * p <= Z.of_nat q -> out' !! q = out !! q)
    /\ (m = 0 \/ p = 0 -> out' = out)
    /\ (n = 0 -> forall q : nat, Z.of_nat q < m * p -> out' !! q = Some (s_of_int 0)).
Proof.
  intros Hm Hn Hp Ha Hb Hout Hmn Hnp Hmp.
  destruct (Matmul_entries a b out m n p) as (out' & E & HL & HC & HF); try done.
  exists out'. split; [done|]. split; [done|]. split; [done|]. split.
  - intros Hz. apply list_eq. intros q. apply HF. nia.
  - intros -> q Hq.
    assert (0 < p) by nia.
    destruct (place_split (Z.of_nat q) p m) as (Eq & Hi & Hj); [lia | done |].
    rewrite <- (Nat2Z.id q). rewrite Eq. rewrite (HC _ _ Hi Hj). done.
Qed.

End MatmulEdges.

(** A 2 by 0 matrix times a 0 by 2 matrix, in a destination of five
    elements. *)
Lemma Matmul_writes_first_m_p_witness :
  Matmul [] [] [7; 7; 7; 7; 7] 2 0 2 = Ret [0; 0; 0; 0; 7]
  /\ exists out',
       Matmul (@nil Z) [] [7; 7; 7; 7; 7] 2 0 2 = Ret out'
       /\ length out' = 5%nat
       /\ (forall q : nat, 2 * 2 <= Z.of_nat q -> out' !! q = [7; 7; 7; 7; 7] !! q)
       /\ (2 = 0 \/ 2 = 0 -> out' = [7; 7; 7; 7; 7])
       /\ (0 = 0 -> forall q : nat, Z.of_nat q < 2 * 2 -> out' !! q = Some (s_of_int 0)).
Proof.
  split; [reflexivity|].
  apply (Matmul_writes_first_m_p [] [] [7; 7; 7; 7; 7] 2 0 2);
    try lia; try reflexivity; vm_compute; discriminate.
Defined.

Section MatmulRoom.
Context {T : Type} `{Scalar T}.

(** One cell of [Matmul], as far as it returns. *)
Lemma Matmul_cell_inv (a b : list T) (n p i j : Z) (o o' : list T) :
  (let* o1 := write o (wrap32 (wrap32 (i * p) + j)) (s_of_int 0) in
   for_range 0 n
     (fun k o =>
        let* x := read a (wrap32 (wrap32 (i * n) + k)) in
        let* y := read b (wrap32 (wrap32 (k * p) + j)) in
        accumulate o (wrap32 (wrap32 (i * p) + j)) x y)
     o1) = Ret o' ->
  length o' = length o
  /\ 0 <= wrap32 (wrap32 (i * p) + j) < size o
  /\ forall k, 0 <= k < n ->
       0 <= wrap32 (wrap32 (i * n) + k) < size a
       /\ 0 <= wrap32 (wrap32 (k * p) + j) < size b.
Proof.
  intros E. apply bind_Ret in E as (o1 & E1 & E).
  apply write_inv in E1 as [Hw ->].
  apply (accumulate_loop_inv a b (fun k => wrap32 (wrap32 (i * n) + k))
           (fun k => wrap32 (wrap32 (k * p) + j))) in E as [HL Hk].
  rewrite length_insert in HL. split; [done|]. split; [done|].
  intros k Hk'. destruct (Hk k Hk') as (Ha & Hb & _). done.
Qed.

(** X17.  [Matmul] checks no size either: for positive [m], [n] and [p]
    whose products fit the 32-bit index arithmetic it returns exactly when
    [a] has [m * n], [b] has [n * p] and the destination has [m * p]
    elements, or more. *)
Theorem Matmul_returns_iff_room (a b out : list T) (m n p : Z) :
  1 <= m -> 1 <= n -> 1 <= p ->
  m * n <= UINT32_MOD -> n * p <= UINT32_MOD -> m * p <= UINT32_MOD ->
  (exists out', Matmul a b out m n p = Ret out')
  <-> m * n <= size a /\ n * p <= size b /\ m * p <= size out.
Proof.
  intros Hm Hn Hp Hmn Hnp Hmp. split.
  - intros [out' E]. unfold Matmul in E.
    set (cell := fun (i j : Z) (o : list T) =>
      let* o1 := write o (wrap32 (wrap32 (i * p) + j)) (s_of_int 0) in
      for_range 0 n
        (fun k o =>
           let* x := read a (wrap32 (wrap32 (i * n) + k)) in
           let* y := read b (wrap32 (wrap32 (k * p) + j)) in
           accumulate o (wrap32 (wrap32 (i * p) + j)) x y)
        o1) in *.
    assert (Hcell : forall i j s0 s1, cell i j s0 = Ret s1 -> length s1 = length s0).
    { intros i j s0 s1 Ec. by apply Matmul_cell_inv in Ec as [HL _]. }
    set (row := fun (i : Z) (o : list T) => for_range 0 p (fun j o => cell i j o) o) in *.
    assert (Hrow : forall i s0 s1, row i s0 = Ret s1 -> length s1 = length s0).
    { intros i s0 s1 Er. unfold row, for_range in Er.
      apply (for_loop_length _ _ (fun j => Hcell i j) _ _ _ _ Er). }
    destruct (for_range_passes (fun _ s => length s = length out) (fun i o => row i o)
                0 m out out' E eq_refl) with (k := m - 1) as (s0 & s1 & HLs & Er); [|lia|].
    { intros k t0 t1 _ HL Er. rewrite (Hrow _ _ _ Er). done. }
    unfold row in Er.
    destruct (for_range_passes (fun _ s => length s = length out) (fun j o => cell (m - 1) j o)
                0 p s0 s1 Er HLs) with (k := p - 1) as (t0 & t1 & HLt & Ec); [|lia|].
    { intros k u0 u1 _ HL Ec. rewrite (Hcell _ _ _ _ Ec). done. }
    apply Matmul_cell_inv in Ec as (_ & Ho & Hk).
    destruct (Hk (n - 1) ltac:(lia)) as [Ha Hb].
    unfold size in Ho. rewrite HLt in Ho. fold (size out) in Ho.
    assert (0 <= (m - 1) * p /\ (m - 1) * p + p = m * p) by nia.
    assert (0 <= (m - 1) * n /\ (m - 1) * n + n = m * n) by nia.
    assert (0 <= (n - 1) * p /\ (n - 1) * p + p = n * p) by nia.
    rewrite (wrap32_small ((m - 1) * p)) in Ho by lia.
    rewrite wrap32_small in Ho by lia.
    rewrite (wrap32_small ((m - 1) * n)) in Ha by lia.
    rewrite wrap32_small in Ha by lia.
    rewrite (wrap32_small ((n - 1) * p)) in Hb by lia.
    rewrite wrap32_small in Hb by lia.
    lia.
  - intros (Ha & Hb & Hout).
    destruct (Matmul_cells a b out m n p) as (out' & E & _); try lia; [| |eauto].
    + intros i k Hi Hk.
      assert (0 <= i * n /\ i * n + n <= m * n) by nia.
      rewrite (wrap32_small (i * n)) by lia. rewrite wrap32_small by lia. lia.
    + intros k j Hk Hj.
      assert (0 <= k * p /\ k * p + p <= n * p) by nia.
      rewrite (wrap32_small (k * p)) by lia. rewrite wrap32_small by lia. lia.
Qed.

End MatmulRoom.

(** A 2 by 2 product with a first operand of three elements. *)
Lemma Matmul_returns_iff_room_witness :
  Matmul [1; 2; 3] [1; 0; 0; 1] [0; 0; 0; 0] 2 2 2 = UB
  /\ ~ (exists out', Matmul [1; 2; 3] [1; 0; 0; 1] [0; 0; 0; 0] 2 2 2 = Ret out').
Proof.
  split; [reflexivity|].
  destruct (Matmul_returns_iff_room [1; 2; 3] [1; 0; 0; 1] [0; 0; 0; 0] 2 2 2) as [P _].
  - lia.
  - lia.
  - lia.
  - vm_compute. discriminate.
  - vm_compute. discriminate.
  - vm_compute. discriminate.
  - intros Hex. apply P in Hex as [Ha _]. vm_compute in Ha. by apply Ha.
Defined.

(** ** Further properties of the reductions *)

Section MaximumProperties.
Context {T : Type} `{Scalar T}.

Lemma s_max_cases (x y : T) : s_max x y = if s_lt x y then y else x.
Proof. reflexivity. Qed.

Lemma foldl_max_elem (l : list T) :
  forall x : T, foldl s_max x l ∈ x :: l.
Proof.
  induction l as [|y l IH]; intros x; simpl.
  - apply list_elem_of_here.
  - specialize (IH (s_max x y)). apply elem_of_cons in IH as [-> | Hin].
    + rewrite s_max_cases. destruct (s_lt x y).
      * apply list_elem_of_further, list_elem_of_here.
      * apply list_elem_of_here.
    + by do 2 apply list_elem_of_further.
Qed.

Lemma foldl_max_upper (l : list T) :
  (forall x : T, s_lt x x = false) ->
  (forall x y z : T, s_lt x y = true -> s_lt y z = true -> s_lt x z = true) ->
  (forall x y z : T, s_lt x z = true -> s_lt x y = true \/ s_lt y z = true) ->
  forall x : T,
    s_lt (foldl s_max x l) x = false
    /\ forall e : T, e ∈ l -> s_lt (foldl s_max x l) e = false.
Proof.
  intros Hirr Htrans Hneg. induction l as [|y l IH]; intros x; simpl.
  - split; [apply Hirr|]. intros e He. by apply elem_of_nil in He.
  - destruct (IH (s_max x y)) as [Hm Hl]. rewrite s_max_cases in *.
    assert (Hxy : s_lt (foldl s_max (if s_lt x y then y else x) l) x = false
                  /\ s_lt (foldl s_max (if s_lt x y then y else x) l) y = false).
    { destruct (s_lt x y) eqn:Exy.
      - split; [|done].
        destruct (s_lt (foldl s_max y l) x) eqn:Ex; [|done].
        by rewrite (Htrans _ _ _ Ex Exy) in Hm.
      - split; [done|].
        destruct (s_lt (foldl s_max x l) y) eqn:Ey; [|done].
        destruct (Hneg _ x _ Ey) as [Hc | Hc]; congruence. }
    destruct Hxy as [Hx Hy].
    split; [done|]. intros e He. apply elem_of_cons in He as [-> | He]; [done | by apply Hl].
Qed.

Lemma max_of_elem (l : list T) (v : T) : max_of l = Some v -> v ∈ l.
Proof.
  destruct l as [|x l]; [discriminate|]. simpl. intros [= <-]. apply foldl_max_elem.
Qed.

Lemma max_of_upper (l : list T) (v : T) :
  (forall x : T, s_lt x x = false) ->
  (forall x y z : T, s_lt x y = true -> s_lt y z = true -> s_lt x z = true) ->
  (forall x y z : T, s_lt x z = true -> s_lt x y = true \/ s_lt y z = true) ->
  max_of l = Some v -> forall e : T, e ∈ l -> s_lt v e = false.
Proof.
  intros Hirr Htrans Hneg. destruct l as [|x l]; [discriminate|]. simpl. intros [= <-] e He.
  destruct (foldl_max_upper l Hirr Htrans Hneg x) as [Hx Hl].
  apply elem_of_cons in He as [-> | He]; [done | by apply Hl].
Qed.

(** X18.  Each element that [ReduceMax] stores is an element of its
    block, whatever the comparison of the scalars does. *)
Theorem ReduceMax_stores_block_element (a out : list T) (reduce_size : Z) :
  1 <= reduce_size ->
  size a = size out * reduce_size ->
  size a < SIZE_MOD ->
  exists out',
    ReduceMax a out reduce_size = Ret out'
    /\ length out' = length out
    /\ forall i : nat, (i < length out)%nat ->
         exists v, out' !! i = Some v /\ v ∈ block a (Z.to_nat reduce_size) i.
Proof.
  intros Hr Ha Hsz.
  destruct (ReduceMax_blocks a out reduce_size Hr Ha Hsz) as (out' & E & HL & HP).
  exists out'. split; [done|]. split; [done|]. intros i Hi.
  destruct (lookup_lt_is_Some_2 out' i) as [v Hv]; [lia|].
  exists v. split; [done|]. apply max_of_elem. by rewrite <- (HP i Hi).
Qed.


End MaximumProperties.

Lemma ReduceMax_stores_block_element_witness :
  exists out',
    ReduceMax [3; 1; 2; 4; 6; 5] [0; 0] 3 = Ret out'
    /\ length out' = 2%nat
    /\ forall i : nat, (i < 2)%nat ->
         exists v, out' !! i = Some v /\ v ∈ block [3; 1; 2; 4; 6; 5] 3 i.
Proof.
  apply (ReduceMax_stores_block_element [3; 1; 2; 4; 6; 5] [0; 0] 3);
    [lia | reflexivity | reflexivity].
Defined.

Lemma Z_lt_strict_weak :
  (forall x : Z, s_lt x x = false)
  /\ (forall x y z : Z, s_lt x y = true -> s_lt y z = true -> s_lt x z = true)
  /\ (forall x y z : Z, s_lt x z = true -> s_lt x y = true \/ s_lt y z = true).
Proof.
  simpl. split; [|split].
  - intros x. apply Z.ltb_irrefl.
  - intros x y z Hxy Hyz. apply Z.ltb_lt in Hxy, Hyz. apply Z.ltb_lt. lia.
  - intros x y z Hxz. apply Z.ltb_lt in Hxz.
    destruct (Z.ltb_spec x y); [by left|]. right. apply Z.ltb_lt. lia.
Qed.


Section EmptyBlocks.
Context {T : Type} `{Scalar T}.

Lemma prefix_loop_constant (v : T) (body : Z -> list T -> res (list T)) (out : list T) :
  (forall (i : Z) (o : list T), 0 <= i < size out -> body i o = write o i v) ->
  for_range 0 (size out) body out = Ret (replicate (length out) v).
Proof.
  intros Hbody.
  destruct (prefix_loop (fun _ x => x = v) (size out) body out
              (conj (size_nonneg out) (Z.le_refl _))) as (out' & E & HL & HP & _).
  - intros i o Hi _. exists v. split; [by apply Hbody | done].
  - rewrite E. f_equal. apply list_eq. intros q.
    destruct (Nat.lt_ge_cases q (length out)) as [Hq|Hq].
    + destruct (HP (Z.of_nat q)) as (x & Hx & ->); [unfold size; lia|].
      rewrite Nat2Z.id in Hx. rewrite Hx. symmetry. by apply lookup_replicate_2.
    + rewrite !(proj2 (lookup_ge_None _ _)); [done | by rewrite length_replicate | lia].
Qed.

(** X20.  With [reduce_size = 0] the reductions read no block:
    [ReduceSum] sets every element of the destination to zero, and
    [ReduceMax] sets every element to [a.ptr[0]], which it reads although
    no block holds it; on an empty source that read is outside the
    buffer. *)
Theorem reductions_of_empty_blocks (a out : list T) :
  ReduceSum a out 0 = Ret (replicate (length out) (s_of_int 0))
  /\ (forall x : T, a !! 0%nat = Some x -> ReduceMax a out 0 = Ret (replicate (length out) x))
  /\ (a = [] -> out <> [] -> ReduceMax a out 0 = UB).
Proof.
  split; [|split].
  - unfold ReduceSum. apply prefix_loop_constant. intros i o Hi. reflexivity.
  - intros x Hx. unfold ReduceMax. apply prefix_loop_constant. intros i o Hi.
    rewrite Z.mul_0_r. change (wrap64 0) with 0.
    rewrite (read_Some a 0 x) by (done || lia). reflexivity.
  - intros -> Hout. unfold ReduceMax, for_range.
    destruct out as [|y out]; [done|].
    unfold size. rewrite Z.sub_0_r, Nat2Z.id. reflexivity.
Qed.

End EmptyBlocks.

Lemma reductions_of_empty_blocks_witness :
  ReduceSum [5; 6] [9; 9; 9] 0 = Ret [0; 0; 0]
  /\ ReduceMax [5; 6] [9; 9; 9] 0 = Ret [5; 5; 5]
  /\ ReduceMax (@nil Z) [9; 9; 9] 0 = UB.
Proof.
  destruct (reductions_of_empty_blocks [5; 6] [9; 9; 9]) as (E1 & E2 & _).
  destruct (reductions_of_empty_blocks (@nil Z) [9; 9; 9]) as (_ & _ & E3).
  split; [exact E1|]. split; [exact (E2 5 eq_refl)|]. by apply E3.
Defined.

Section BlocksFit.
Context {T : Type} `{Scalar T}.

Lemma ReduceSum_blocks_fit (a out : list T) (reduce_size : Z) :
  1 <= reduce_size ->
  size out * reduce_size <= size a ->
  size out * reduce_size < SIZE_MOD ->
  exists out',
    ReduceSum a out reduce_size = Ret out'
    /\ length out' = length out
    /\ forall i : nat, (i < length out)%nat ->
         out' !! i = Some (sum_of (block a (Z.to_nat reduce_size) i)).
Proof.
  intros Hr Ha Hsz. unfold ReduceSum.
  match goal with
  | |- exists _, for_range 0 _ ?body _ = _ /\ _ =>
    destruct (prefix_loop
      (fun i v => v = sum_of (block a (Z.to_nat reduce_size) (Z.to_nat i)))
      (size out) body out (conj (size_nonneg out) (Z.le_refl _))) as (out' & E & HL & HP & _)
  end.
  - intros i o Hi _.
    assert (Hb : 0 <= i * reduce_size /\ i * reduce_size + reduce_size <= size out * reduce_size)
      by nia.
    exists (sum_of (block a (Z.to_nat reduce_size) (Z.to_nat i))). split; [|done].
    unfold for_range. rewrite Z.sub_0_r.
    rewrite (fold_slice s_add a (i * reduce_size)).
    + simpl. unfold sum_of, block. do 4 f_equal. lia.
    + lia.
    + lia.
    + intros j acc Hj. rewrite (wrap64_small (i * reduce_size)) by lia.
      rewrite wrap64_small by lia. done.
  - exists out'. split; [exact E|]. split; [done|].
    intros i Hi. destruct (HP (Z.of_nat i)) as (v & Hv & ->); [unfold size; lia|].
    by rewrite Nat2Z.id in *.
Qed.

Lemma ReduceMax_blocks_fit (a out : list T) (reduce_size : Z) :
  1 <= reduce_size ->
  size out * reduce_size <= size a ->
  size out * reduce_size < SIZE_MOD ->
  exists out',
    ReduceMax a out reduce_size = Ret out'
    /\ length out' = length out
    /\ forall i : nat, (i < length out)%nat ->
         out' !! i = max_of (block a (Z.to_nat reduce_size) i).
Proof.
  intros Hr Ha Hsz. unfold ReduceMax.
  match goal with
  | |- exists _, for_range 0 _ ?body _ = _ /\ _ =>
    destruct (prefix_loop
      (fun i v => Some v = max_of (block a (Z.to_nat reduce_size) (Z.to_nat i)))
      (size out) body out (conj (size_nonneg out) (Z.le_refl _))) as (out' & E & HL & HP & _)
  end.
  - intros i o Hi _.
    assert (Hb : 0 <= i * reduce_size /\ i * reduce_size + reduce_size <= size out * reduce_size)
      by nia.
    rewrite (wrap64_small (i * reduce_size)) by lia.
    destruct (read_in a (i * reduce_size)) as (x & Ex & Lx); [lia|].
    rewrite Ex. simpl bind.
    unfold for_range.
    rewrite (fold_slice s_max a (i * reduce_size)).
    + simpl bind. eexists. split; [reflexivity|].
      unfold block.
      replace (Z.to_nat i * Z.to_nat reduce_size)%nat with (Z.to_nat (i * reduce_size)) by lia.
      rewrite (drop_S _ _ _ Lx).
      replace (Z.to_nat reduce_size) with (S (Z.to_nat (reduce_size - 1))) by lia.
      simpl. do 4 f_equal. lia.
    + lia.
    + lia.
    + intros j acc Hj. rewrite wrap64_small by lia. done.
  - exists out'. split; [exact E|]. split; [done|].
    intros i Hi. destruct (HP (Z.of_nat i)) as (v & Hv & Hm); [unfold size; lia|].
    rewrite Nat2Z.id in *. by rewrite Hv.
Qed.

Lemma ReduceSum_room (a out out' : list T) (reduce_size : Z) :
  1 <= reduce_size ->
  size out * reduce_size < SIZE_MOD ->
  ReduceSum a out reduce_size = Ret out' ->
  size out * reduce_size <= size a.
Proof.
  intros Hr Hsz E. unfold ReduceSum in E.
  destruct (Z.le_gt_cases (size out) 0) as [Ho|Ho].
  { pose proof (size_nonneg a). pose proof (size_nonneg out). nia. }
  apply prefix_loop_room in E as (_ & o & o' & _ & Eb); [|lia|].
  - apply bind_Ret in Eb as (v & Ev & _).
    destruct (for_range_passes (fun _ _ => True) _ 0 reduce_size _ _ Ev I)
      with (k := reduce_size - 1) as (s0 & s1 & _ & Er); [done | lia |].
    apply bind_Ret in Er as (x & Ex & _). apply read_inv in Ex as [Hx _].
    assert (0 <= (size out - 1) * reduce_size) by nia.
    rewrite (wrap64_small ((size out - 1) * reduce_size)) in Hx by nia.
    rewrite wrap64_small in Hx by nia. nia.
  - intros i o o' Hi Eb. apply bind_Ret in Eb as (v & _ & Eb).
    apply write_inv in Eb as [Hw ->]. by rewrite length_insert.
Qed.

Lemma ReduceMax_room (a out out' : list T) (reduce_size : Z) :
  1 <= reduce_size ->
  size out * reduce_size < SIZE_MOD ->
  ReduceMax a out reduce_size = Ret out' ->
  size out * reduce_size <= size a.
Proof.
  intros Hr Hsz E. unfold ReduceMax in E.
  destruct (Z.le_gt_cases (size out) 0) as [Ho|Ho].
  { pose proof (size_nonneg a). pose proof (size_nonneg out). nia. }
  apply prefix_loop_room in E as (_ & o & o' & _ & Eb); [|lia|].
  - apply bind_Ret in Eb as (first & Ef & Eb). apply bind_Ret in Eb as (v & Ev & _).
    assert (0 <= (size out - 1) * reduce_size) by nia.
    rewrite (wrap64_small ((size out - 1) * reduce_size)) in Ef, Ev by nia.
    apply read_inv in Ef as [Hf _].
    destruct (Z.eq_dec reduce_size 1) as [->|Hne]; [lia|].
    destruct (for_range_passes (fun _ _ => True) _ 1 reduce_size _ _ Ev I)
      with (k := reduce_size - 1) as (s0 & s1 & _ & Er); [done | lia |].
    apply bind_Ret in Er as (x & Ex & _). apply read_inv in Ex as [Hx _].
    rewrite wrap64_small in Hx by nia. nia.
  - intros i o o' Hi Eb. apply bind_Ret in Eb as (first & _ & Eb).
    apply bind_Ret in Eb as (v & _ & Eb).
    apply write_inv in Eb as [Hw ->]. by rewrite length_insert.
Qed.

Lemma block_take (a : list T) (r i n : nat) :
  (i * r + r <= n)%nat -> block (take n a) r i = block a r i.
Proof.
  intros Hn. unfold block.
  rewrite !take_drop_commute, take_take. do 2 f_equal. lia.
Qed.

(** X21.  The reductions read the first [out.size * reduce_size] elements
    of the source and never compare that number with [a.size]: a call
    returns exactly when the source has that many elements, and a longer
    source gives what its first [out.size * reduce_size] elements give. *)
Theorem reductions_read_leading_blocks (a out : list T) (reduce_size : Z) :
  1 <= reduce_size ->
  size out * reduce_size < SIZE_MOD ->
  ((exists out', ReduceSum a out reduce_size = Ret out')
   <-> size out * reduce_size <= size a)
  /\ ((exists out', ReduceMax a out reduce_size = Ret out')
      <-> size out * reduce_size <= size a)
  /\ (size out * reduce_size <= size a ->
      ReduceSum a out reduce_size
      = ReduceSum (take (Z.to_nat (size out * reduce_size)) a) out reduce_size
      /\ ReduceMax a out reduce_size
         = ReduceMax (take (Z.to_nat (size out * reduce_size)) a) out reduce_size).
Proof.
  intros Hr Hsz. split; [|split].
  - split.
    + intros [out' E]. by apply (ReduceSum_room a out out').
    + intros Ha. destruct (ReduceSum_blocks_fit a out reduce_size Hr Ha Hsz) as (o & E & _).
      eauto.
  - split.
    + intros [out' E]. by apply (ReduceMax_room a out out').
    + intros Ha. destruct (ReduceMax_blocks_fit a out reduce_size Hr Ha Hsz) as (o & E & _).
      eauto.
  - intros Ha.
    pose proof (size_nonneg out) as Ho.
    assert (Ht : size out * reduce_size
                 <= size (take (Z.to_nat (size out * reduce_size)) a)).
    { unfold size in *. rewrite length_take. lia. }
    assert (Hblock : forall i : nat, (i < length out)%nat ->
              block (take (Z.to_nat (size out * reduce_size)) a) (Z.to_nat reduce_size) i
              = block a (Z.to_nat reduce_size) i).
    { intros i Hi. apply block_take. unfold size in *. nia. }
    split.
    + destruct (ReduceSum_blocks_fit a out reduce_size Hr Ha Hsz) as (o1 & E1 & HL1 & HP1).
      destruct (ReduceSum_blocks_fit _ out reduce_size Hr Ht Hsz) as (o2 & E2 & HL2 & HP2).
      rewrite E1, E2. f_equal. apply list_eq. intros q.
      destruct (Nat.lt_ge_cases q (length out)) as [Hq|Hq].
      * by rewrite (HP1 q Hq), (HP2 q Hq), Hblock.
      * rewrite !(proj2 (lookup_ge_None _ _)); [done | lia | lia].
    + destruct (ReduceMax_blocks_fit a out reduce_size Hr Ha Hsz) as (o1 & E1 & HL1 & HP1).
      destruct (ReduceMax_blocks_fit _ out reduce_size Hr Ht Hsz) as (o2 & E2 & HL2 & HP2).
      rewrite E1, E2. f_equal. apply list_eq. intros q.
      destruct (Nat.lt_ge_cases q (length out)) as [Hq|Hq].
      * by rewrite (HP1 q Hq), (HP2 q Hq), Hblock.
      * rewrite !(proj2 (lookup_ge_None _ _)); [done | lia | lia].
Qed.

End BlocksFit.

(** A source of seven elements for two blocks of three, and one of five. *)
Lemma reductions_read_leading_blocks_witness :
  ReduceSum [1; 2; 3; 4; 5; 6; 100] [0; 0] 3 = Ret [6; 15]
  /\ ReduceMax [1; 2; 3; 4; 5] [0; 0] 3 = UB
  /\ ReduceSum [1; 2; 3; 4; 5; 6; 100] [0; 0] 3
     = ReduceSum (take (Z.to_nat (size [0; 0] * 3)) [1; 2; 3; 4; 5; 6; 100]) [0; 0] 3.
Proof.
  split; [reflexivity|]. split; [reflexivity|].
  destruct (reductions_read_leading_blocks [1; 2; 3; 4; 5; 6; 100] [0; 0] 3)
    as (_ & _ & P); [lia | reflexivity |].
  destruct P as [P _]; [vm_compute; discriminate | exact P].
Defined.

(** ** Further properties of grid sampling *)

Section GridSampleReturns.
Context {T : Type} `{Scalar T} `{Sampling T}.

(** The place of a neighbour of a sampling point inside its plane is
    computed without overflow and lies in the source. *)
Lemma a_index_in (planes h w i y x yk xk : Z) :
  1 <= h -> 1 <= w ->
  0 <= i < planes * (h * w) ->
  planes * ((h + 2) * (w + 2)) <= INT_MAX ->
  0 <= y <= h -> 0 <= x <= w ->
  yk = 0 \/ yk = 1 -> xk = 0 \/ xk = 1 ->
  a_index i (h * w) ((h + 2) * (w + 2)) w y x yk xk
  = Ret (Z.quot i (h * w) * ((h + 2) * (w + 2)) + (y + yk) * (w + 2) + (x + xk))
  /\ 0 <= Z.quot i (h * w) * ((h + 2) * (w + 2)) + (y + yk) * (w + 2) + (x + xk)
       < planes * ((h + 2) * (w + 2)).
Proof.
  intros Hh Hw Hi Hmax Hy Hx Hyk Hxk.
  assert (Hhw : 1 <= h * w) by nia.
  assert (Hq : 0 <= Z.quot i (h * w) < planes).
  { rewrite Z.quot_div_nonneg by lia. split.
    - apply Z.div_pos; lia.
    - apply Z.div_lt_upper_bound; lia. }
  set (q := Z.quot i (h * w)) in *.
  set (P := (h + 2) * (w + 2)) in *.
  assert (HP : (h + 1) * (w + 2) + (w + 2) = P) by (unfold P; lia).
  assert (Hq1 : 0 <= q * P) by (unfold P; nia).
  assert (Hq2 : q * P + P <= planes * P) by (unfold P; nia).
  assert (Hyk1 : 0 <= (y + yk) * (w + 2) <= (h + 1) * (w + 2)) by nia.
  unfold INT_MAX in *.
  assert (HwM : w + 2 <= 2147483647) by nia.
  assert (HhM : h + 2 <= 2147483647) by nia.
  split; [|lia].
  unfold a_index, div32.
  replace (h * w =? 0) with false by (symmetry; apply Z.eqb_neq; lia).
  fold q.
  rewrite (int32_in q) by (unfold INT_MIN, INT_MAX; lia). cbn [bind].
  rewrite (int32_in (q * P)) by (unfold INT_MIN, INT_MAX; lia). cbn [bind].
  rewrite (int32_in (y + yk)) by (unfold INT_MIN, INT_MAX; lia). cbn [bind].
  rewrite (int32_in (w + 2)) by (unfold INT_MIN, INT_MAX; lia). cbn [bind].
  rewrite (int32_in ((y + yk) * (w + 2))) by (unfold INT_MIN, INT_MAX; lia). cbn [bind].
  rewrite (int32_in (q * P + (y + yk) * (w + 2))) by (unfold INT_MIN, INT_MAX; lia).
  cbn [bind].
  rewrite (int32_in (x + xk)) by (unfold INT_MIN, INT_MAX; lia). cbn [bind].
  rewrite int32_in by (unfold INT_MIN, INT_MAX; lia). done.
Qed.

(** One pass of the loop over the neighbours, for a sampling point inside
    the padded plane. *)
Lemma sample_neighbour_in (a : list T) (planes h w i : Z) (pt : point)
    (k xk yk : Z) (o : list T) :
  1 <= h -> 1 <= w ->
  0 <= i < planes * (h * w) ->
  planes * ((h + 2) * (w + 2)) <= INT_MAX ->
  planes * ((h + 2) * (w + 2)) <= size a ->
  0 <= i < size o ->
  0 <= x_ind pt <= w -> 0 <= y_ind pt <= h ->
  read xx k = Ret xk -> read yy k = Ret yk ->
  xk = 0 \/ xk = 1 -> yk = 0 \/ yk = 1 ->
  exists v, sample_neighbour a i (h * w) ((h + 2) * (w + 2)) w pt k o
            = Ret (<[Z.to_nat i := v]> o).
Proof.
  intros Hh Hw Hi Hmax Ha Hio Hx Hy Ex Ey Hxk Hyk.
  unfold sample_neighbour. rewrite Ex, Ey. cbn [bind].
  destruct (a_index_in planes h w i (y_ind pt) (x_ind pt) yk xk) as [Ep Hp]; try done.
  rewrite Ep. cbn [bind].
  destruct (read_in a _ ltac:(split; [apply Hp | lia])) as (v & Ev & _).
  rewrite Ev. cbn [bind].
  rewrite (weight_bit _ _ Hxk), (weight_bit _ _ Hyk). cbn [bind].
  destruct (read_in o i Hio) as (cur & Ec & _). rewrite Ec. cbn [bind].
  rewrite write_in by done. eauto.
Qed.

Lemma four_neighbours_in (a : list T) (planes h w i : Z) (pt : point) (o : list T) :
  1 <= h -> 1 <= w ->
  0 <= i < planes * (h * w) ->
  planes * ((h + 2) * (w + 2)) <= INT_MAX ->
  planes * ((h + 2) * (w + 2)) <= size a ->
  0 <= i < size o ->
  0 <= x_ind pt <= w -> 0 <= y_ind pt <= h ->
  exists o', for_range 0 4 (sample_neighbour a i (h * w) ((h + 2) * (w + 2)) w pt) o = Ret o'
             /\ length o' = length o.
Proof.
  intros Hh Hw Hi Hmax Ha Hio Hx Hy.
  unfold for_range. change (Z.to_nat (4 - 0)) with 4%nat. cbn [for_loop].
  destruct (sample_neighbour_in a planes h w i pt 0 0 0 o) as (v0 & E0);
    try done; try reflexivity; try lia.
  rewrite E0. cbn [bind].
  destruct (sample_neighbour_in a planes h w i pt (0 + 1) 1 0 (<[Z.to_nat i := v0]> o))
    as (v1 & E1); try done; try reflexivity; try lia.
  { unfold size in *. rewrite length_insert. lia. }
  rewrite E1. cbn [bind].
  destruct (sample_neighbour_in a planes h w i pt (0 + 1 + 1) 0 1
              (<[Z.to_nat i := v1]> (<[Z.to_nat i := v0]> o)))
    as (v2 & E2); try done; try reflexivity; try lia.
  { unfold size in *. rewrite !length_insert. lia. }
  rewrite E2. cbn [bind].
  destruct (sample_neighbour_in a planes h w i pt (0 + 1 + 1 + 1) 1 1
              (<[Z.to_nat i := v2]> (<[Z.to_nat i := v1]> (<[Z.to_nat i := v0]> o))))
    as (v3 & E3); try done; try reflexivity; try lia.
  { unfold size in *. rewrite !length_insert. lia. }
  rewrite E3. cbn [bind].
  eexists. split; [reflexivity|]. by rewrite !length_insert.
Qed.


End GridSampleReturns.


(** ** Conversion to numpy *)

(** X23.  The strides [to_numpy] passes to numpy are the element strides
    in bytes: for strides whose byte count fits [size_t], the byte offset
    [offset * ELEM_SIZE + Σ index[d] * numpy_strides[d]] of a multi-index
    from [a.ptr] is [ELEM_SIZE] times the position
    [offset + Σ index[d] * strides[d]] of that multi-index in the buffer. *)
Theorem numpy_strides_are_byte_strides (strides index : list Z) (offset : Z) :
  Forall (fun c => 0 <= c /\ c * ELEM_SIZE < SIZE_MOD) strides ->
  length (numpy_strides strides) = length strides
  /\ offset * ELEM_SIZE + lin index (numpy_strides strides)
     = ELEM_SIZE * view_pos offset strides index.
Proof.
  intros Hs. split; [apply length_map|].
  unfold view_pos. rewrite Z.mul_add_distr_l, (Z.mul_comm offset). f_equal.
  revert index. induction Hs as [|c strides [Hc0 Hc] Hs IH]; intros [|i index]; simpl; try lia.
  rewrite IH. rewrite wrap64_small by (unfold ELEM_SIZE in *; lia). lia.
Qed.

Lemma numpy_strides_are_byte_strides_witness :
  numpy_strides [3; 1] = [12; 4]
  /\ numpy_strides [4611686018427387904] = [0]
  /\ 5 * ELEM_SIZE + lin [1; 2] (numpy_strides [3; 1]) = ELEM_SIZE * view_pos 5 [3; 1] [1; 2].
Proof.
  split; [reflexivity|]. split; [reflexivity|].
  apply (numpy_strides_are_byte_strides [3; 1] [1; 2] 5).
  repeat constructor; vm_compute; discriminate.
Defined.

